(** * Occupancy grid builder of the simple sensor simulator

    A shallow embedding of
    [simulation/simple_sensor_simulator/src/sensor_simulation/occupancy_grid/occupancy_grid_builder.cpp]
    and the properties of its rasterizer, compositor and visibility polygon.

    Conventions of the model.
    - Fixed-width integers are [Z] with the wrap-around written out
      ([wrap]); [size_t] is the 64-bit unsigned type.
    - [double] is idealised as a real number ([R]); [std::atan2] and [M_PI]
      are the mathematical function and constant.
    - [std::vector] is a [list], read and written through [vec_get] and
      [vec_set]; [addPolygon_run] records every index [addPolygon] touches,
      in program order, so that memory safety is a property of that record.
    - Signed overflow is undefined behaviour: the one [int32_t] sum of the
      translation unit, [col + 1] in [addPolygon], is [max_write]'s
      [UndefinedBehaviour]; [addPolygon] itself is the function of the defined
      runs.
    - A loop without a bound ([for (;;)]) runs on fuel; that it does not
      stop is: no result for any amount of fuel.
    - The class [GridTraversal], the primitive's [get2DConvexHull] and the type
      alias [MarkerCounterType] are declared outside this translation unit:
      they are parameters of the development.  The scratch buffers hold
      [int32_t] values, the type of the traversal's cell coordinates. *)

From Stdlib Require Import ZArith List Bool Lia Reals Lra Permutation.
Import ListNotations.

Open Scope Z_scope.

(** * Machine integers *)

Record IntType := { bits : positive; is_signed : bool }.

Definition modulus (ty : IntType) : Z := 2 ^ Z.pos (bits ty).

Definition int_min (ty : IntType) : Z :=
  if is_signed ty then - 2 ^ (Z.pos (bits ty) - 1) else 0.

Definition int_max (ty : IntType) : Z := int_min ty + modulus ty - 1.

(** Conversion of a mathematical integer to the type: reduction modulo
    [2 ^ bits] into the interval [[int_min, int_max]]. *)
Definition wrap (ty : IntType) (z : Z) : Z :=
  (z - int_min ty) mod modulus ty + int_min ty.

Definition in_range (ty : IntType) (z : Z) : Prop :=
  int_min ty <= z <= int_max ty.

Definition int8_t : IntType := {| bits := 8; is_signed := true |}.
Definition int16_t : IntType := {| bits := 16; is_signed := true |}.
Definition int32_t : IntType := {| bits := 32; is_signed := true |}.
Definition size_t : IntType := {| bits := 64; is_signed := false |}.

(** * Vectors *)

Fixpoint list_update (n : nat) (x : Z) (v : list Z) : list Z :=
  match v, n with
  | [], _ => []
  | _ :: v', O => x :: v'
  | y :: v', S n' => y :: list_update n' x v'
  end.

(** [v[i]] and [v[i] = x].  An index outside the vector is undefined
    behaviour in the source; the model reads 0 and writes nothing there. *)
Definition vec_get (v : list Z) (i : Z) : Z :=
  if i <? 0 then 0 else nth (Z.to_nat i) v 0.

Definition vec_set (v : list Z) (i : Z) (x : Z) : list Z :=
  if i <? 0 then v else list_update (Z.to_nat i) x v.

(** [v.assign(v.size(), x)] *)
Definition vec_assign (v : list Z) (x : Z) : list Z := repeat x (length v).

(** The list [lo, lo+1, ..., lo+n-1]: the values a counting [for] loop takes. *)
Definition zrange (lo : Z) (n : nat) : list Z :=
  map (fun k => lo + Z.of_nat k) (seq 0 n).

(** * Geometry types *)

Record PointType := Point { p_x : R; p_y : R; p_z : R }.

Definition PolygonType := list PointType.

Record QuaternionType := Quaternion { q_x : R; q_y : R; q_z : R; q_w : R }.

Record PoseType := Pose { position : PointType; orientation : QuaternionType }.

(** The mutable members of [OccupancyGridBuilder]. *)
Record Builder := mkBuilder {
  origin_ : PoseType;
  primitive_count_ : Z;
  invisible_grid_ : list Z;
  occupied_grid_ : list Z;
  values_ : list Z;
  mincols_ : list Z;
  maxcols_ : list Z
}.

(** A memory access of the rasterizer: to a scratch buffer at a row, or a
    read-modify-write of the difference array at an index, with the amount
    added. *)
Inductive Access :=
| ScratchAccess (row : Z)
| GridWrite (index : Z) (delta : Z).

(** Which accumulator [add] hands to [addPolygon] by reference. *)
Inductive GridSel := InvisibleGrid | OccupiedGrid.

(** The result of a computation that is run with a bound on the iterations
    of its loops: a value, no value within the bound, or no defined
    behaviour at all. *)
Inductive Result (A : Type) :=
| Ok (a : A)
| OutOfFuel
| UndefinedBehaviour.
Arguments Ok {A} a.
Arguments OutOfFuel {A}.
Arguments UndefinedBehaviour {A}.

(** How a call of [add] ends: it returns, it throws [std::runtime_error]
    (the builder is the one left behind by the call), it has not returned
    within the bound, or its behaviour is undefined. *)
Inductive Outcome :=
| Normal (b : Builder)
| RuntimeError (b : Builder)
| Unfinished
| Undefined.

(** * Sample inputs *)

Definition identity_pose : PoseType := Pose (Point 0 0 0) (Quaternion 0 0 0 1).

(** A grid of one row and two columns, freshly reset. *)
Definition empty_2x1 : Builder :=
  mkBuilder identity_pose 0 [0; 0] [0; 0] [0; 0] [0] [0].

(** On the 2 x 1 grid with resolution 1 the segment from (-3/2, 0) to
    (-1/2, 0) runs, in pixel space, from (-1/2, 1/2) to (1/2, 1/2): it crosses
    the cell left of the grid and the first cell of row 0. *)
Definition left_edge_hull : PolygonType := [Point (-3 / 2) 0 0; Point (-1 / 2) 0 0].

Definition left_edge_traversal (px py qx qy : R) : list (Z * Z) :=
  [(-1, 0); (0, 0)].

(** A traversal answering cells 0 and 1 of row 0.  On the 2 x 1 grid that is
    the segment from (-1/2, 0) to (1/2, 0), in pixel space from (1/2, 1/2) to
    (3/2, 1/2), which spans the whole row. *)
Definition two_cell_traversal (px py qx qy : R) : list (Z * Z) :=
  [(0, 0); (1, 0)].


(** A grid of one row and three columns, freshly reset; there the segment
    from (-1, 0) to (0, 0) runs in pixel space from (1/2, 1/2) to (3/2, 1/2)
    and leaves the last column free. *)
Definition empty_3x1 : Builder :=
  mkBuilder identity_pose 0 [0; 0; 0] [0; 0; 0] [0; 0; 0] [0] [0].

Definition short_span_hull : PolygonType := [Point (-1) 0 0; Point 0 0 0].

(** On the 2 x 1 grid the segment from (9/2, 0) to (11/2, 0) runs, in pixel
    space, from (11/2, 1/2) to (13/2, 1/2): right of the grid. *)
Definition outside_hull : PolygonType := [Point (9 / 2) 0 0; Point (11 / 2) 0 0].

Definition outside_traversal (px py qx qy : R) : list (Z * Z) :=
  [(5, 0); (6, 0)].

(** On a 10 x 10 grid with resolution 1 and the sensor at its centre, a
    square obstacle behind the sensor, slightly to its left: all four
    bearings lie between that of the top-left grid corner (3/4 PI) and PI. *)
Definition behind_left_hull : PolygonType :=
  [Point (-4) (1 / 2) 0; Point (-3) (1 / 2) 0; Point (-3) 1 0; Point (-4) 1 0].

(** A sensor at (1, 2) turned by a half turn about the z axis. *)
Definition turned_pose : PoseType := Pose (Point 1 2 0) (Quaternion 0 0 1 0).

(** Two obstacles ahead of the sensor. *)
Definition near_hull : PolygonType := [Point 1 0 0; Point 1 (1 / 4) 0].
Definition far_hull : PolygonType := [Point 2 0 0; Point 2 (1 / 4) 0].

(** The 2 x 1 builder after rasterizing [left_edge_hull] into the occupied
    array: no increment (the minimum column is -1), one decrement right of
    the maximum column 0. *)
Definition left_edge_marked : Builder :=
  mkBuilder identity_pose 0 [0; 0] [0; -1] [0; 0] [-1] [0].

(** A 1 x 3 builder at the end of a cycle: accumulators summed, costs
    written, a counter and a pose of its own. *)
Definition stale_3x1 : Builder :=
  mkBuilder turned_pose 5 [1; 1; 0] [0; 1; 1] [50; 100; 100] [1] [2].


(** On the 2 x 1 grid with resolution 1 the segment from (8589934585/4, 0)
    to (8589934587/4, 0) runs, in pixel space, from (2147483647.25, 1/2) to
    (2147483647.75, 1/2): far right of the grid, inside the cell of column
    [INT32_MAX] of row 0. *)
Definition far_right_hull : PolygonType :=
  [Point (8589934585 / 4) 0 0; Point (8589934587 / 4) 0 0].

Definition far_right_traversal (px py qx qy : R) : list (Z * Z) :=
  [(2147483647, 0)].

(** Closed goals about concrete grids are settled by evaluation. *)
Ltac by_computation :=
  lazy; repeat split; try reflexivity; try discriminate.

Section OccupancyGridBuilder.

(** The [const] members set by the constructor. *)
Variable resolution : R.
Variable height : Z.
Variable width : Z.
Variable occupied_cost : Z.
Variable invisible_cost : Z.

(** Declared in the header and in [grid_traversal.hpp]. *)
Variable MarkerCounterType : IntType.
Variable GridTraversal : R -> R -> R -> R -> list (Z * Z).

Definition count_max : Z := int_max MarkerCounterType.

(** ** Coordinate transformer *)

(** Eigen's [Quaternion::conjugate]. *)
Definition conjugate (q : QuaternionType) : QuaternionType :=
  Quaternion (- q_x q) (- q_y q) (- q_z q) (q_w q).

(** Eigen's [Quaternion * Vector3] ([_transformVector]):
    [uv = 2 * (q.vec x v);  v + q.w * uv + q.vec x uv]. *)
Definition quat_transform (q : QuaternionType) (v : PointType) : PointType :=
  let uvx := (2 * (q_y q * p_z v - q_z q * p_y v))%R in
  let uvy := (2 * (q_z q * p_x v - q_x q * p_z v))%R in
  let uvz := (2 * (q_x q * p_y v - q_y q * p_x v))%R in
  Point (p_x v + q_w q * uvx + (q_y q * uvz - q_z q * uvy))
        (p_y v + q_w q * uvy + (q_z q * uvx - q_x q * uvz))
        (p_z v + q_w q * uvz + (q_x q * uvy - q_y q * uvx)).

Definition vec3_sub (a b : PointType) : PointType :=
  Point (p_x a - p_x b) (p_y a - p_y b) (p_z a - p_z b).

Definition transformToGrid (origin : PoseType) (p : PointType) : PointType :=
  let r := orientation origin in
  let o := position origin in
  vec3_sub (quat_transform (conjugate r) p) o.

Definition transformToPixel (p : PointType) : PointType :=
  Point ((p_x p + IZR width * resolution / 2) / resolution)
        ((p_y p + IZR height * resolution / 2) / resolution)
        0.

(** ** Rasterizer *)

Definition vec_add (grid : list Z) (i : Z) (d : Z) : list Z :=
  vec_set grid i (wrap MarkerCounterType (vec_get grid i + d)).

(** Body of the loop over the cells of one edge. *)
Definition scan_cell (mm : list Z * list Z) (c : Z * Z) : list Z * list Z :=
  let '(col, row) := c in
  if (0 <=? row) && (row <? wrap int32_t height) then
    (vec_set (fst mm) row (Z.min (vec_get (fst mm) row) col),
     vec_set (snd mm) row (Z.max (vec_get (snd mm) row) col))
  else mm.

(** The cells of edge [i], from vertex [i] to vertex [(i + 1) % size]. *)
Definition edge_cells (convex_hull : PolygonType) (i : nat) : list (Z * Z) :=
  let p := transformToPixel (nth i convex_hull (Point 0 0 0)) in
  let q := transformToPixel
             (nth ((i + 1) mod length convex_hull) convex_hull (Point 0 0 0)) in
  GridTraversal (p_x p) (p_y p) (p_x q) (p_y q).

(** All cells visited by the first loop of [addPolygon], in order. *)
Definition polygon_cells (convex_hull : PolygonType) : list (Z * Z) :=
  flat_map (edge_cells convex_hull) (seq 0 (length convex_hull)).

Definition scan_edges (convex_hull : PolygonType) (mm : list Z * list Z)
  : list Z * list Z :=
  fold_left
    (fun mm i => fold_left scan_cell (edge_cells convex_hull i) mm)
    (seq 0 (length convex_hull)) mm.

(** The two conditional statements of the loop over the rows, as the list of
    [(index, amount)] they add into the difference array. *)
Definition min_write (mincols : list Z) (row : Z) : list (Z * Z) :=
  let col := vec_get mincols row in
  if (0 <=? col) && (col <? wrap int32_t width)
  then [(wrap size_t (width * row + col), 1)]
  else [].

(** [col >= 0 && col + 1 < int32_t(width)]: the right operand is evaluated
    for [col >= 0] only, and its [int32_t] sum [col + 1] overflows for
    [col = INT32_MAX], which is undefined behaviour. *)
Definition max_write (maxcols : list Z) (row : Z) : Result (list (Z * Z)) :=
  let col := vec_get maxcols row in
  if 0 <=? col then
    if int_max int32_t <=? col then UndefinedBehaviour
    else if col + 1 <? wrap int32_t width
         then Ok [(wrap size_t (width * row + col + 1), -1)]
         else Ok []
  else Ok [].

(** The write of the second conditional in a defined run. *)
Definition max_write_value (maxcols : list Z) (row : Z) : list (Z * Z) :=
  match max_write maxcols row with
  | Ok ws => ws
  | OutOfFuel | UndefinedBehaviour => []
  end.

Definition row_writes (mincols maxcols : list Z) (row : Z) : list (Z * Z) :=
  min_write mincols row ++ max_write_value maxcols row.

Definition apply_write (grid : list Z) (w : Z * Z) : list Z :=
  vec_add grid (fst w) (snd w).

Definition mark_row (mincols maxcols : list Z) (grid : list Z) (row : Z)
  : list Z :=
  fold_left apply_write (row_writes mincols maxcols row) grid.

Definition mark_rows (mincols maxcols : list Z) (grid : list Z) : list Z :=
  fold_left (mark_row mincols maxcols) (zrange 0 (Z.to_nat height)) grid.

Definition get_grid (sel : GridSel) (b : Builder) : list Z :=
  match sel with
  | InvisibleGrid => invisible_grid_ b
  | OccupiedGrid => occupied_grid_ b
  end.

Definition set_grid (sel : GridSel) (g : list Z) (b : Builder) : Builder :=
  match sel with
  | InvisibleGrid =>
      mkBuilder (origin_ b) (primitive_count_ b) g (occupied_grid_ b)
                (values_ b) (mincols_ b) (maxcols_ b)
  | OccupiedGrid =>
      mkBuilder (origin_ b) (primitive_count_ b) (invisible_grid_ b) g
                (values_ b) (mincols_ b) (maxcols_ b)
  end.

Definition set_scratch (mm : list Z * list Z) (b : Builder) : Builder :=
  mkBuilder (origin_ b) (primitive_count_ b) (invisible_grid_ b)
            (occupied_grid_ b) (values_ b) (fst mm) (snd mm).

(** The scratch buffers after the two [assign] calls and the loop over the
    edges. *)
Definition scanned (convex_hull : PolygonType) (b : Builder) : list Z * list Z :=
  scan_edges convex_hull
    (vec_assign (mincols_ b) (wrap int32_t width), vec_assign (maxcols_ b) (-1)).

(** [addPolygon] in a defined run: the builder it leaves.  [addPolygon_run]
    below is the function with its undefined behaviour and its accesses. *)
Definition addPolygon (sel : GridSel) (convex_hull : PolygonType) (b : Builder)
  : Builder :=
  let mm := scanned convex_hull b in
  let grid := mark_rows (fst mm) (snd mm) (get_grid sel b) in
  set_grid sel grid (set_scratch mm b).

(** *** The rasterizer as it runs

    [addPolygon_run] is [addPolygon] with the accesses it makes to its
    scratch buffers and to the difference array recorded in program order,
    and with its undefined behaviour explicit.  Reading and writing a
    scratch buffer returns the value together with the access made. *)

Definition Traced (A : Type) : Type := (A * list Access)%type.

Definition scratch_get (v : list Z) (i : Z) : Traced Z :=
  (vec_get v i, [ScratchAccess i]).

Definition scratch_set (v : list Z) (i x : Z) : Traced (list Z) :=
  (vec_set v i x, [ScratchAccess i]).

Definition as_grid_write (w : Z * Z) : Access := GridWrite (fst w) (snd w).

(** Body of the loop over the cells of one edge:
    [mincols_[row] = std::min(mincols_[row], col);
     maxcols_[row] = std::max(maxcols_[row], col);] *)
Definition scan_cell_run (st : Traced (list Z * list Z)) (c : Z * Z)
  : Traced (list Z * list Z) :=
  let '(col, row) := c in
  if (0 <=? row) && (row <? wrap int32_t height) then
    let '(lo, t1) := scratch_get (fst (fst st)) row in
    let '(mincols, t2) := scratch_set (fst (fst st)) row (Z.min lo col) in
    let '(hi, t3) := scratch_get (snd (fst st)) row in
    let '(maxcols, t4) := scratch_set (snd (fst st)) row (Z.max hi col) in
    ((mincols, maxcols), snd st ++ t1 ++ t2 ++ t3 ++ t4)
  else st.

Definition scan_edges_run (convex_hull : PolygonType)
  (st : Traced (list Z * list Z)) : Traced (list Z * list Z) :=
  fold_left
    (fun st i => fold_left scan_cell_run (edge_cells convex_hull i) st)
    (seq 0 (length convex_hull)) st.

(** The accesses of one iteration of the loop over the rows: each
    conditional reads its scratch buffer, then makes its write. *)
Definition mark_row_accesses (mincols : list Z) (row : Z) (ws : list (Z * Z))
  : list Access :=
  ScratchAccess row :: map as_grid_write (min_write mincols row)
  ++ ScratchAccess row :: map as_grid_write ws.

Definition mark_row_run (mincols maxcols : list Z) (st : Traced (list Z))
  (row : Z) : Result (Traced (list Z)) :=
  match max_write maxcols row with
  | Ok ws =>
      Ok (fold_left apply_write (min_write mincols row ++ ws) (fst st),
          snd st ++ mark_row_accesses mincols row ws)
  | OutOfFuel => OutOfFuel
  | UndefinedBehaviour => UndefinedBehaviour
  end.

Fixpoint mark_rows_run (mincols maxcols : list Z) (rows : list Z)
  (st : Traced (list Z)) : Result (Traced (list Z)) :=
  match rows with
  | [] => Ok st
  | row :: rows' =>
      match mark_row_run mincols maxcols st row with
      | Ok st' => mark_rows_run mincols maxcols rows' st'
      | OutOfFuel => OutOfFuel
      | UndefinedBehaviour => UndefinedBehaviour
      end
  end.

Definition addPolygon_run (sel : GridSel) (convex_hull : PolygonType)
  (b : Builder) : Result (Traced Builder) :=
  let st :=
    scan_edges_run convex_hull
      ((vec_assign (mincols_ b) (wrap int32_t width),
        vec_assign (maxcols_ b) (-1)), []) in
  let mm := fst st in
  match mark_rows_run (fst mm) (snd mm) (zrange 0 (Z.to_nat height))
          (get_grid sel b, snd st) with
  | Ok (grid, accesses) => Ok (set_grid sel grid (set_scratch mm b), accesses)
  | OutOfFuel => OutOfFuel
  | UndefinedBehaviour => UndefinedBehaviour
  end.

(** The writes into the difference array among the accesses of a run. *)
Definition grid_writes (accesses : list Access) : list (Z * Z) :=
  flat_map (fun a => match a with
                     | GridWrite index delta => [(index, delta)]
                     | ScratchAccess _ => []
                     end) accesses.

(** All writes of one [addPolygon] call into the difference array. *)
Definition addPolygon_writes (convex_hull : PolygonType) (b : Builder)
  : list (Z * Z) :=
  let mm := scanned convex_hull b in
  flat_map (row_writes (fst mm) (snd mm)) (zrange 0 (Z.to_nat height)).



(** ** Visibility polygon *)

Definition Rltb (a b : R) : bool := if Rlt_dec a b then true else false.
Definition Rleb (a b : R) : bool := if Rle_dec a b then true else false.

(** [std::atan2(y, x)] on the reals. *)
Definition atan2 (y x : R) : R :=
  if Rltb 0 x then atan (y / x)
  else if Rltb x 0 then
    if Rleb 0 y then (atan (y / x) + PI)%R else (atan (y / x) - PI)%R
  else if Rltb 0 y then (PI / 2)%R
  else if Rltb y 0 then (- (PI / 2))%R
  else 0%R.

Definition theta (p : PointType) : R := atan2 (p_y p) (p_x p).

Definition realw : R := (IZR width * resolution / 2)%R.
Definition realh : R := (IZR height * resolution / 2)%R.

Definition corners (i : Z) : PointType :=
  match i mod 4 with
  | 1 => Point realw (- realh) 0
  | 2 => Point realw realh 0
  | 3 => Point (- realw) realh 0
  | _ => Point (- realw) (- realh) 0
  end.

Definition projection (p : PointType) (i : Z) : PointType :=
  match i mod 4 with
  | 1 => Point (p_x p * - realh / p_y p) (- realh) 0
  | 2 => Point realw (p_y p * realw / p_x p) 0
  | 3 => Point (p_x p * realh / p_y p) realh 0
  | _ => Point (- realw) (p_y p * - realw / p_x p) 0
  end.

(** [std::minmax_element] over the non-empty range [p :: ps] with comparison
    [lt]: the first smallest and the last largest element. *)
Definition minmax_step (lt : PointType -> PointType -> bool)
  (mm : PointType * PointType) (q : PointType) : PointType * PointType :=
  (if lt q (fst mm) then q else fst mm,
   if lt q (snd mm) then snd mm else q).

Definition minmax_element (lt : PointType -> PointType -> bool)
  (p : PointType) (ps : PolygonType) : PointType * PointType :=
  fold_left (minmax_step lt) ps (p, p).

Definition theta_lt (p q : PointType) : bool := Rltb (theta p) (theta q).

Definition adjust (t : R) : R := if Rltb t 0 then (t + 2 * PI)%R else t.

Definition adjusted_lt (p q : PointType) : bool :=
  Rltb (adjust (theta p)) (adjust (theta q)).

(** The vertex pair [auto [minp, maxp] = minmaxp] after the optional
    re-selection. *)
Definition select_minmax (p : PointType) (ps : PolygonType)
  : PointType * PointType :=
  let minmaxp := minmax_element theta_lt p ps in
  if Rltb PI (theta (snd minmaxp) - theta (fst minmaxp))
  then minmax_element adjusted_lt p ps
  else minmaxp.

(** The first corner loop: [for (;; ++i) if (corners(i).theta() >= minang) break;]
    run for at most [fuel] iterations. *)
Fixpoint first_corner (fuel : nat) (minang : R) (i : Z) : option Z :=
  match fuel with
  | O => None
  | S fuel' =>
      if Rleb minang (theta (corners i)) then Some i
      else first_corner fuel' minang (wrap size_t (i + 1))
  end.

(** The second corner loop, appending the corners it passes to [res]. *)
Fixpoint walk_corners (fuel : nat) (maxang : R) (i : Z) (res : PolygonType)
  : option (Z * PolygonType) :=
  match fuel with
  | O => None
  | S fuel' =>
      let corner := corners i in
      if Rleb maxang (theta corner + 2 * PI * IZR (i / 4)) then Some (i, res)
      else walk_corners fuel' maxang (wrap size_t (i + 1)) (res ++ [corner])
  end.

Definition makeInvisibleArea (fuel : nat) (occupied_polygon : PolygonType)
  : Result PolygonType :=
  match occupied_polygon with
  | [] => UndefinedBehaviour
  | p :: ps =>
      let '(minp, maxp) := select_minmax p ps in
      let minang := theta minp in
      let maxang := theta maxp in
      let maxang := if Rltb maxang minang then (maxang + 2 * PI)%R else maxang in
      match first_corner fuel minang 0 with
      | None => OutOfFuel
      | Some i =>
          let res := [minp; projection minp i] in
          match walk_corners fuel maxang i res with
          | None => OutOfFuel
          | Some (i, res) => Ok (res ++ [projection maxp i; maxp])
          end
      end
  end.

(** ** Grid compositor *)

Variable PrimitiveType : Type.
Variable get2DConvexHull : PrimitiveType -> list PointType.

Definition makeOccupiedArea (b : Builder) (primitive : PrimitiveType)
  : PolygonType :=
  map (transformToGrid (origin_ b)) (get2DConvexHull primitive).

Definition set_primitive_count (n : Z) (b : Builder) : Builder :=
  mkBuilder (origin_ b) n (invisible_grid_ b) (occupied_grid_ b)
            (values_ b) (mincols_ b) (maxcols_ b).

(** [add]: the post-increment of the counter takes place before the
    comparison's result is acted upon, so the builder carried by
    [RuntimeError] already holds the incremented counter. *)
Definition add (fuel : nat) (primitive : PrimitiveType) (b : Builder) : Outcome :=
  let old_count := primitive_count_ b in
  let b := set_primitive_count (wrap MarkerCounterType (old_count + 1)) b in
  if old_count =? count_max then RuntimeError b
  else
    let occupied_area := makeOccupiedArea b primitive in
    match makeInvisibleArea fuel occupied_area with
    | OutOfFuel => Unfinished
    | UndefinedBehaviour => Undefined
    | Ok invisible_area =>
        match addPolygon_run InvisibleGrid invisible_area b with
        | Ok (b, _) =>
            match addPolygon_run OccupiedGrid occupied_area b with
            | Ok (b, _) => Normal b
            | OutOfFuel | UndefinedBehaviour => Undefined
            end
        | OutOfFuel | UndefinedBehaviour => Undefined
        end
    end.

(** A caller issuing [add] for each primitive in turn, stopping at the first
    call that does not return normally. *)
Fixpoint add_all (fuel : nat) (primitives : list PrimitiveType) (b : Builder)
  : Outcome :=
  match primitives with
  | [] => Normal b
  | p :: ps =>
      match add fuel p b with
      | Normal b' => add_all fuel ps b'
      | o => o
      end
  end.

(** Body of the inner loop of [build]:
    [grid[row * width + col + 1] += grid[row * width + col]]. *)
Definition accumulate_cell (row : Z) (grid : list Z) (col : Z) : list Z :=
  vec_add grid (wrap size_t (row * width + col + 1))
          (vec_get grid (wrap size_t (row * width + col))).

(** [for (size_t col = 0; col + 1 < width; ++col)] *)
Definition accumulate_row (grid : list Z) (row : Z) : list Z :=
  fold_left (accumulate_cell row) (zrange 0 (Z.to_nat (width - 1))) grid.

Definition prefix_sums (grid : list Z) : list Z :=
  fold_left accumulate_row (zrange 0 (Z.to_nat height)) grid.

(** [occupied_grid_[i] ? occupied_cost : invisible_grid_[i] ? invisible_cost : 0] *)
Definition cell_cost (occupied invisible : Z) : Z :=
  if occupied =? 0 then
    if invisible =? 0 then 0 else invisible_cost
  else occupied_cost.

Definition compose_cell (occupied invisible : list Z) (values : list Z) (i : Z)
  : list Z :=
  vec_set values i (cell_cost (vec_get occupied i) (vec_get invisible i)).

Definition build (b : Builder) : Builder :=
  let invisible := prefix_sums (invisible_grid_ b) in
  let occupied := prefix_sums (occupied_grid_ b) in
  let values :=
    fold_left (compose_cell occupied invisible)
              (zrange 0 (Z.to_nat (wrap size_t (height * width)))) (values_ b) in
  mkBuilder (origin_ b) (primitive_count_ b) invisible occupied values
            (mincols_ b) (maxcols_ b).

Definition get (b : Builder) : list Z := values_ b.

Definition reset (origin : PoseType) (b : Builder) : Builder :=
  mkBuilder origin 0 (vec_assign (invisible_grid_ b) 0)
            (vec_assign (occupied_grid_ b) 0) (values_ b)
            (mincols_ b) (maxcols_ b).

(** The vectors have the sizes the constructor gave them. *)
Definition wf_builder (b : Builder) : Prop :=
  length (invisible_grid_ b) = Z.to_nat (height * width)
  /\ length (occupied_grid_ b) = Z.to_nat (height * width)
  /\ length (values_ b) = Z.to_nat (height * width)
  /\ length (mincols_ b) = Z.to_nat height
  /\ length (maxcols_ b) = Z.to_nat height.

(** The grid dimensions are [size_t] values whose product, the size of the
    three arrays, is a [size_t] value too. *)
Definition wf_sizes : Prop :=
  0 <= height /\ 0 <= width /\ height * width <= int_max size_t.

(** The grid dimensions are representable as [int32_t] (the type of the
    traversal's cell coordinates). *)
Definition wf_geometry : Prop :=
  0 <= height <= int_max int32_t /\ 0 <= width <= int_max int32_t.

(** ** Specification-level notions *)

(** The sum of the cells [base, base + 1, ..., base + k] of [grid]. *)
Fixpoint psum (grid : list Z) (base : Z) (k : nat) : Z :=
  match k with
  | O => vec_get grid base
  | S k' => psum grid base k' + vec_get grid (base + Z.of_nat k)
  end.

(** The prefix-summed coverage count of cell [i]: the running sum of the
    difference array along the row of [i], up to and including [i], as a value
    of [MarkerCounterType]. *)
Definition coverage (grid : list Z) (i : Z) : Z :=
  wrap MarkerCounterType (psum grid (i / width * width) (Z.to_nat (i mod width))).

(** The cost the specification assigns to a cell with the given coverage
    counts: occupied if the occupied count is greater than 0, else invisible
    if the invisible count is greater than 0, else free. *)
Definition spec_cell_cost (occupied invisible : Z) : Z :=
  if 0 <? occupied then occupied_cost
  else if 0 <? invisible then invisible_cost
  else 0.

(** Every element of the vector is a value of [MarkerCounterType]. *)
Definition marker_values (grid : list Z) : Prop :=
  forall i, in_range MarkerCounterType (vec_get grid i).

(** The point [(x, y)] lies on the segment from [(px, py)] to [(qx, qy)]. *)
Definition on_segment (px py qx qy x y : R) : Prop :=
  exists t, (0 <= t <= 1)%R
            /\ x = (px + t * (qx - px))%R /\ y = (py + t * (qy - py))%R.

(** The point [(x, y)] of pixel space lies in the cell [c = (col, row)]. *)
Definition in_cell (c : Z * Z) (x y : R) : Prop :=
  (IZR (fst c) <= x < IZR (fst c) + 1)%R
  /\ (IZR (snd c) <= y < IZR (snd c) + 1)%R.

(** Modelled from the spec: [GridTraversal], whose source is not part of this
    translation unit, "traverses all grid cells the segment's continuous path
    crosses in pixel space"; here, the half that matters for clipping: every
    cell it yields for the segment contains a point of the segment. *)
Definition traversal_crosses (px py qx qy : R) : Prop :=
  forall c, In c (GridTraversal px py qx qy) ->
            exists x y, on_segment px py qx qy x y /\ in_cell c x y.

(** The end points, in pixel space, of edge [i] of the polygon. *)
Definition edge_start (convex_hull : PolygonType) (i : nat) : PointType :=
  transformToPixel (nth i convex_hull (Point 0 0 0)).

Definition edge_end (convex_hull : PolygonType) (i : nat) : PointType :=
  transformToPixel
    (nth ((i + 1) mod length convex_hull) convex_hull (Point 0 0 0)).

(** The image of the polygon's boundary under [transformToPixel] lies
    entirely outside the rectangle [[0, width) x [0, height)]. *)
Definition polygon_outside (convex_hull : PolygonType) : Prop :=
  forall i x y,
    (i < length convex_hull)%nat ->
    on_segment (p_x (edge_start convex_hull i)) (p_y (edge_start convex_hull i))
               (p_x (edge_end convex_hull i)) (p_y (edge_end convex_hull i))
               x y ->
    ~ ((0 <= x < IZR width)%R /\ (0 <= y < IZR height)%R).

(** The traversal of every edge of the polygon yields cells the edge
    crosses. *)
Definition polygon_traversal_crosses (convex_hull : PolygonType) : Prop :=
  forall i,
    (i < length convex_hull)%nat ->
    traversal_crosses
      (p_x (edge_start convex_hull i)) (p_y (edge_start convex_hull i))
      (p_x (edge_end convex_hull i)) (p_y (edge_end convex_hull i)).

(** Hamilton product of quaternions. *)
Definition qmul (a b : QuaternionType) : QuaternionType :=
  Quaternion
    (q_w a * q_x b + q_x a * q_w b + q_y a * q_z b - q_z a * q_y b)
    (q_w a * q_y b - q_x a * q_z b + q_y a * q_w b + q_z a * q_x b)
    (q_w a * q_z b + q_x a * q_y b - q_y a * q_x b + q_z a * q_w b)
    (q_w a * q_w b - q_x a * q_x b - q_y a * q_y b - q_z a * q_z b).

Definition norm2 (q : QuaternionType) : R :=
  (q_w q * q_w q + q_x q * q_x q + q_y q * q_y q + q_z q * q_z q)%R.

(** The rotation of the vector [v] by the unit quaternion [q]:
    the vector part of [q * (0, v) * q^-1], the inverse of a unit quaternion
    being its conjugate. *)
Definition rotate (q : QuaternionType) (v : PointType) : PointType :=
  let r := qmul (qmul q (Quaternion (p_x v) (p_y v) (p_z v) 0)) (conjugate q) in
  Point (q_x r) (q_y r) (q_z r).

(** [transformToGrid] in the words of the specification: rotate the world
    point by the conjugate of the origin's orientation, then subtract the
    origin's raw position. *)
Definition spec_transformToGrid (origin : PoseType) (p : PointType) : PointType :=
  let rotated := rotate (conjugate (orientation origin)) p in
  Point (p_x rotated - p_x (position origin))
        (p_y rotated - p_y (position origin))
        (p_z rotated - p_z (position origin)).

(** Two builders that agree on everything [add] and [build] read: all members
    but the contents of the scratch buffers. *)
Definition same_accumulation (b1 b2 : Builder) : Prop :=
  origin_ b1 = origin_ b2
  /\ primitive_count_ b1 = primitive_count_ b2
  /\ invisible_grid_ b1 = invisible_grid_ b2
  /\ occupied_grid_ b1 = occupied_grid_ b2
  /\ values_ b1 = values_ b2
  /\ length (mincols_ b1) = length (mincols_ b2)
  /\ length (maxcols_ b1) = length (maxcols_ b2).

(** ** Further notions for the lifecycle and the rasterizer *)

(** The guard of the second conditional of the row loop overflows in row
    [row]: the recorded maximum is [INT32_MAX]. *)
Definition max_overflows (maxcols : list Z) (row : Z) : bool :=
  (0 <=? vec_get maxcols row) && (int_max int32_t <=? vec_get maxcols row).

(** No row of the grid overflows: the run of [addPolygon] is defined. *)
Definition addPolygon_defined (convex_hull : PolygonType) (b : Builder) : bool :=
  forallb (fun row => negb (max_overflows (snd (scanned convex_hull b)) row))
          (zrange 0 (Z.to_nat height)).




(** The constructor.  The five vectors are value-initialised at their sizes;
    [origin_] and [primitive_count_] are left to their own types'
    initialisation, which this translation unit does not show: they are
    arguments. *)
Definition construct (origin0 : PoseType) (count0 : Z) : Builder :=
  let cells := Z.to_nat (wrap size_t (height * width)) in
  mkBuilder origin0 count0 (repeat 0 cells) (repeat 0 cells) (repeat 0 cells)
            (repeat 0 (Z.to_nat height)) (repeat 0 (Z.to_nat height)).

(** The data invariant of the builder: the vectors have their sizes and the
    accumulators hold values of [MarkerCounterType]. *)
Definition builder_invariant (b : Builder) : Prop :=
  wf_builder b
  /\ marker_values (invisible_grid_ b)
  /\ marker_values (occupied_grid_ b).

(** The sum of the amounts a list of writes adds at index [k], and at the
    indices [lo .. hi]. *)
Definition delta_at (ws : list (Z * Z)) (k : Z) : Z :=
  fold_right Z.add 0 (map snd (filter (fun w => fst w =? k) ws)).

Definition delta_in (ws : list (Z * Z)) (lo hi : Z) : Z :=
  fold_right Z.add 0
    (map snd (filter (fun w => (lo <=? fst w) && (fst w <=? hi)) ws)).

(** Column [col] of row [row] lies between two columns the traversal of the
    polygon's edges visits in that row. *)
Definition in_span (convex_hull : PolygonType) (row col : Z) : Prop :=
  exists c1 c2,
    In (c1, row) (polygon_cells convex_hull)
    /\ In (c2, row) (polygon_cells convex_hull)
    /\ c1 <= col <= c2.

(** The squared distance of two points. *)
Definition dist2 (a b : PointType) : R :=
  ((p_x a - p_x b) * (p_x a - p_x b) + (p_y a - p_y b) * (p_y a - p_y b)
   + (p_z a - p_z b) * (p_z a - p_z b))%R.

(** The point lies on the boundary of the grid rectangle
    [[-realw, realw] x [-realh, realh]] (grid frame). *)
Definition on_rectangle (q : PointType) : Prop :=
  ((p_x q = - realw \/ p_x q = realw) /\ (- realh <= p_y q <= realh))%R
  \/ ((p_y q = - realh \/ p_y q = realh) /\ (- realw <= p_x q <= realw))%R.

(** [q] lies on the ray from the sensor (the origin of the grid frame)
    through [p]. *)
Definition radial (p q : PointType) : Prop :=
  exists s, (0 < s)%R /\ p_x q = (s * p_x p)%R /\ p_y q = (s * p_y p)%R.

(** The bearing of [p] falls on side [k mod 4] of the rectangle, the sides
    numbered as [projection] numbers them: 0 left, 1 bottom, 2 right, 3 top,
    each side closed at the corner of the same number. *)
Definition in_sector (p : PointType) (k : Z) : Prop :=
  match k mod 4 with
  | 1 => (theta (corners 0) < theta p <= theta (corners 1))%R
  | 2 => (theta (corners 1) < theta p <= theta (corners 2))%R
  | 3 => (theta (corners 2) < theta p <= theta (corners 3))%R
  | _ => (theta p <= theta (corners 0) \/ theta (corners 3) < theta p)%R
  end.

(** [in_span] as a test. *)
Definition in_spanb (convex_hull : PolygonType) (row col : Z) : bool :=
  existsb (fun c => (snd c =? row) && (fst c <=? col))
          (polygon_cells convex_hull)
  && existsb (fun c => (snd c =? row) && (col <=? fst c))
             (polygon_cells convex_hull).

(** The number of primitives of the list whose occupied polygon, in the grid
    frame of [b], has cell [(col, row)] in one of its row spans. *)
Definition covering (b : Builder) (primitives : list PrimitiveType)
  (row col : Z) : Z :=
  Z.of_nat
    (length
       (filter (fun primitive => in_spanb (makeOccupiedArea b primitive) row col)
               primitives)).

(** * Properties *)

(** ** Machine integers *)

Lemma modulus_pos ty : 0 < modulus ty.
Proof. unfold modulus. apply Z.pow_pos_nonneg; lia. Qed.

Lemma wrap_in_range ty z : in_range ty (wrap ty z).
Proof.
  unfold in_range, wrap, int_max.
  pose proof (Z.mod_pos_bound (z - int_min ty) (modulus ty) (modulus_pos ty)).
  lia.
Qed.

Lemma wrap_small ty z : in_range ty z -> wrap ty z = z.
Proof.
  unfold in_range, wrap, int_max. intros H.
  rewrite Z.mod_small by lia. lia.
Qed.

Lemma wrap_add_l ty a b : wrap ty (wrap ty a + b) = wrap ty (a + b).
Proof.
  unfold wrap. f_equal.
  replace ((a - int_min ty) mod modulus ty + int_min ty + b - int_min ty)
    with ((a - int_min ty) mod modulus ty + b) by lia.
  replace (a + b - int_min ty) with ((a - int_min ty) + b) by lia.
  rewrite Z.add_mod_idemp_l; [reflexivity | pose proof (modulus_pos ty); lia].
Qed.

Lemma wrap_add_r ty a b : wrap ty (a + wrap ty b) = wrap ty (a + b).
Proof. rewrite Z.add_comm, wrap_add_l. f_equal. lia. Qed.

Lemma wrap_idem ty a : wrap ty (wrap ty a) = wrap ty a.
Proof. apply wrap_small, wrap_in_range. Qed.

Lemma int_max_succ_wraps ty : wrap ty (int_max ty + 1) = int_min ty.
Proof.
  unfold wrap, int_max.
  replace (int_min ty + modulus ty - 1 + 1 - int_min ty) with (modulus ty) by lia.
  rewrite Z.mod_same; [lia | pose proof (modulus_pos ty); lia].
Qed.

Lemma int_min_lt_max ty : int_min ty < int_max ty.
Proof.
  unfold int_max, modulus.
  assert (2 ^ 1 <= 2 ^ Z.pos (bits ty)) by (apply Z.pow_le_mono_r; lia).
  change (2 ^ 1) with 2 in *. lia.
Qed.

Lemma int32_max : int_max int32_t = 2147483647.
Proof. reflexivity. Qed.

Lemma wrap_int32_small z : 0 <= z <= int_max int32_t -> wrap int32_t z = z.
Proof. intros H. apply wrap_small. rewrite int32_max in H. unfold in_range. rewrite int32_max. change (int_min int32_t) with (-2147483648). lia. Qed.

Lemma wrap_size_small z : 0 <= z < 2 ^ 64 -> wrap size_t z = z.
Proof.
  intros H. unfold wrap. change (int_min size_t) with 0.
  change (modulus size_t) with (2 ^ 64).
  rewrite Z.sub_0_r, Z.add_0_r. apply Z.mod_small; lia.
Qed.

(** ** Vectors *)

Lemma length_list_update n x v : length (list_update n x v) = length v.
Proof.
  revert n; induction v as [|y v IH]; intros [|n]; simpl; auto.
Qed.

Lemma nth_list_update n x v k :
  nth k (list_update n x v) 0 =
  if (Nat.eqb k n) && (Nat.ltb n (length v)) then x else nth k v 0.
Proof.
  revert n k; induction v as [|y v IH]; intros [|n] [|k]; simpl; auto;
    try (destruct (Nat.eqb k n); reflexivity).
Qed.

Lemma length_vec_set v i x : length (vec_set v i x) = length v.
Proof. unfold vec_set. destruct (i <? 0); auto using length_list_update. Qed.

Lemma vec_get_vec_set v i x j :
  vec_get (vec_set v i x) j =
  if (j =? i) && (0 <=? i) && (i <? Z.of_nat (length v)) then x else vec_get v j.
Proof.
  unfold vec_get, vec_set.
  destruct (Z.ltb_spec i 0).
  - destruct (Z.leb_spec 0 i); try lia. rewrite andb_false_r. reflexivity.
  - destruct (Z.ltb_spec j 0).
    + destruct (Z.eqb_spec j i); try lia. reflexivity.
    + rewrite nth_list_update.
      destruct (Z.eqb_spec j i), (Nat.eqb_spec (Z.to_nat j) (Z.to_nat i)); try lia;
        destruct (Z.leb_spec 0 i); try lia; simpl;
        destruct (Z.ltb_spec i (Z.of_nat (length v))),
                 (Nat.ltb_spec (Z.to_nat i) (length v)); try lia; reflexivity.
Qed.

Lemma vec_get_vec_set_same v i x :
  0 <= i < Z.of_nat (length v) -> vec_get (vec_set v i x) i = x.
Proof.
  intros H. rewrite vec_get_vec_set, Z.eqb_refl.
  destruct (Z.leb_spec 0 i), (Z.ltb_spec i (Z.of_nat (length v))); try lia.
  reflexivity.
Qed.

Lemma vec_get_vec_set_other v i x j :
  j <> i -> vec_get (vec_set v i x) j = vec_get v j.
Proof.
  intros H. rewrite vec_get_vec_set.
  destruct (Z.eqb_spec j i); try lia. reflexivity.
Qed.

Lemma vec_get_assign v x i :
  0 <= i < Z.of_nat (length v) -> vec_get (vec_assign v x) i = x.
Proof.
  intros H. unfold vec_get, vec_assign.
  destruct (Z.ltb_spec i 0); try lia.
  apply nth_repeat_lt. lia.
Qed.

Lemma length_vec_assign v x : length (vec_assign v x) = length v.
Proof. apply repeat_length. Qed.

Lemma vec_ext (u v : list Z) :
  length u = length v ->
  (forall i, 0 <= i < Z.of_nat (length u) -> vec_get u i = vec_get v i) ->
  u = v.
Proof.
  intros Hlen H. apply nth_ext with (d := 0) (d' := 0); auto.
  intros n Hn. specialize (H (Z.of_nat n)).
  unfold vec_get in H.
  destruct (Z.ltb_spec (Z.of_nat n) 0); try lia.
  rewrite Nat2Z.id in H. apply H. lia.
Qed.

Lemma in_zrange lo n k : In k (zrange lo n) <-> lo <= k < lo + Z.of_nat n.
Proof.
  unfold zrange. rewrite in_map_iff. split.
  - intros (m & <- & Hm). apply in_seq in Hm. lia.
  - intros H. exists (Z.to_nat (k - lo)). split; [lia|]. apply in_seq. lia.
Qed.

Lemma zrange_snoc lo n : zrange lo (S n) = zrange lo n ++ [lo + Z.of_nat n].
Proof.
  unfold zrange. rewrite seq_S, map_app. reflexivity.
Qed.

(** ** Grid compositor: [build] *)

Lemma wf_geometry_size :
  wf_geometry -> 0 <= height * width < 2 ^ 62.
Proof.
  unfold wf_geometry. rewrite int32_max. intros [Hh Hw].
  change (2 ^ 62) with (2147483648 * 2147483648). nia.
Qed.

Lemma length_vec_add g i d : length (vec_add g i d) = length g.
Proof. apply length_vec_set. Qed.

Lemma in_range_0 : in_range MarkerCounterType 0.
Proof.
  unfold in_range, int_max. pose proof (modulus_pos MarkerCounterType).
  unfold int_min, modulus in *.
  destruct (is_signed MarkerCounterType).
  - assert (0 < 2 ^ (Z.pos (bits MarkerCounterType) - 1))
      by (apply Z.pow_pos_nonneg; lia).
    assert (2 ^ Z.pos (bits MarkerCounterType)
            = 2 * 2 ^ (Z.pos (bits MarkerCounterType) - 1)).
    { rewrite <- Z.pow_succ_r by lia. f_equal. lia. }
    lia.
  - lia.
Qed.

Lemma marker_values_vec_add g i d :
  marker_values g -> marker_values (vec_add g i d).
Proof.
  intros Hg j. unfold vec_add. rewrite vec_get_vec_set.
  destruct ((j =? i) && (0 <=? i) && (i <? Z.of_nat (length g))).
  - apply wrap_in_range.
  - apply Hg.
Qed.

Lemma psum_ext g g' base k :
  (forall c, 0 <= c <= Z.of_nat k -> vec_get g (base + c) = vec_get g' (base + c)) ->
  psum g base k = psum g' base k.
Proof.
  induction k as [|k IH]; intros H.
  - simpl. specialize (H 0). rewrite !Z.add_0_r in H. apply H. lia.
  - cbn [psum]. rewrite IH by (intros; apply H; lia).
    rewrite (H (Z.of_nat (S k))) by lia. reflexivity.
Qed.

Lemma accumulate_row_cells n : forall g row,
  0 <= row * width ->
  row * width + Z.of_nat n < Z.of_nat (length g) ->
  Z.of_nat (length g) < 2 ^ 64 ->
  in_range MarkerCounterType (vec_get g (row * width)) ->
  let g' := fold_left (accumulate_cell row) (zrange 0 n) g in
  length g' = length g
  /\ forall idx,
      vec_get g' idx =
      if (row * width <=? idx) && (idx <=? row * width + Z.of_nat n)
      then wrap MarkerCounterType (psum g (row * width) (Z.to_nat (idx - row * width)))
      else vec_get g idx.
Proof.
  induction n as [|n IH]; intros g row Hrow Hlen Hsz Hbase.
  - simpl. split; [reflexivity|]. intros idx.
    destruct (Z.leb_spec (row * width) idx), (Z.leb_spec idx (row * width + 0));
      simpl; try reflexivity.
    replace idx with (row * width) by lia.
    rewrite Z.sub_diag. simpl. symmetry. apply wrap_small, Hbase.
  - rewrite zrange_snoc, fold_left_app. cbn [fold_left].
    destruct (IH g row) as [IHlen IHget]; try lia; try assumption.
    set (g' := fold_left (accumulate_cell row) (zrange 0 n) g) in *.
    unfold accumulate_cell. split.
    + rewrite length_vec_add. exact IHlen.
    + intros idx. unfold vec_add.
      rewrite !wrap_size_small by lia.
      rewrite vec_get_vec_set, IHlen.
      replace (row * width + (0 + Z.of_nat n) + 1)
        with (row * width + Z.of_nat (S n)) by lia.
      destruct (Z.eqb_spec idx (row * width + Z.of_nat (S n))) as [->|Hne].
      * destruct (Z.leb_spec 0 (row * width + Z.of_nat (S n))); try lia.
        destruct (Z.ltb_spec (row * width + Z.of_nat (S n)) (Z.of_nat (length g)));
          try lia.
        destruct (Z.leb_spec (row * width) (row * width + Z.of_nat (S n))); try lia.
        destruct (Z.leb_spec (row * width + Z.of_nat (S n))
                    (row * width + Z.of_nat (S n))); try lia.
        cbn [andb].
        rewrite !IHget.
        destruct (Z.leb_spec (row * width) (row * width + Z.of_nat (S n))); try lia.
        destruct (Z.leb_spec (row * width + Z.of_nat (S n))
                    (row * width + Z.of_nat n)); try lia.
        destruct (Z.leb_spec (row * width) (row * width + (0 + Z.of_nat n))); try lia.
        destruct (Z.leb_spec (row * width + (0 + Z.of_nat n))
                    (row * width + Z.of_nat n)); try lia.
        cbn [andb].
        rewrite wrap_add_r.
        replace (Z.to_nat (row * width + Z.of_nat (S n) - row * width))
          with (S n) by lia.
        replace (Z.to_nat (row * width + (0 + Z.of_nat n) - row * width))
          with n by lia.
        cbn [psum]. f_equal. lia.
      * cbn [andb]. rewrite IHget.
        destruct (Z.leb_spec (row * width) idx); cbn [andb]; try reflexivity.
        destruct (Z.leb_spec idx (row * width + Z.of_nat n)),
                 (Z.leb_spec idx (row * width + Z.of_nat (S n)));
          try lia; reflexivity.
Qed.

Lemma row_index_div idx r :
  0 < width -> r * width <= idx < r * width + width -> idx / width = r.
Proof.
  intros Hw H. symmetry. apply (Z.div_unique idx width r (idx - r * width)); lia.
Qed.

Lemma row_index_mod idx r :
  0 < width -> r * width <= idx < r * width + width ->
  idx mod width = idx - r * width.
Proof.
  intros Hw H. symmetry. apply (Z.mod_unique idx width r (idx - r * width)); lia.
Qed.

Lemma prefix_sums_rows r : forall g,
  wf_geometry -> 0 < width ->
  Z.of_nat r <= height ->
  length g = Z.to_nat (height * width) ->
  marker_values g ->
  let g' := fold_left accumulate_row (zrange 0 r) g in
  length g' = length g
  /\ forall idx,
      vec_get g' idx =
      if (0 <=? idx) && (idx <? Z.of_nat r * width)
      then coverage g idx else vec_get g idx.
Proof.
  induction r as [|r IH]; intros g Hgeo Hw Hr Hlen Hval.
  - simpl. split; [reflexivity|]. intros idx.
    destruct (Z.leb_spec 0 idx), (Z.ltb_spec idx 0); try lia; reflexivity.
  - rewrite zrange_snoc, fold_left_app. cbn [fold_left].
    destruct (IH g) as [IHlen IHget]; try lia; try assumption.
    set (g' := fold_left accumulate_row (zrange 0 r) g) in *.
    pose proof (wf_geometry_size Hgeo) as Hsz.
    assert (Hfit : (0 + Z.of_nat r) * width + width <= height * width) by nia.
    unfold accumulate_row.
    destruct (accumulate_row_cells (Z.to_nat (width - 1)) g' (0 + Z.of_nat r))
      as [Hlen' Hget'].
    + nia.
    + rewrite IHlen, Hlen. lia.
    + rewrite IHlen, Hlen. lia.
    + rewrite IHget.
      destruct (Z.ltb_spec ((0 + Z.of_nat r) * width) (Z.of_nat r * width)); try lia.
      rewrite andb_false_r. apply Hval.
    + split; [congruence|].
      intros idx. rewrite Hget'.
      destruct (Z.leb_spec ((0 + Z.of_nat r) * width) idx) as [Hlo|Hlo];
        [destruct (Z.leb_spec idx ((0 + Z.of_nat r) * width
                                   + Z.of_nat (Z.to_nat (width - 1)))) as [Hhi|Hhi]|];
        cbn [andb].
      * destruct (Z.leb_spec 0 idx); try nia.
        destruct (Z.ltb_spec idx (Z.of_nat (S r) * width)); try nia.
        cbn [andb]. unfold coverage. f_equal.
        rewrite (row_index_div idx (Z.of_nat r)) by lia.
        rewrite (row_index_mod idx (Z.of_nat r)) by lia.
        replace ((0 + Z.of_nat r) * width) with (Z.of_nat r * width) by lia.
        apply psum_ext. intros c Hc. rewrite IHget.
        destruct (Z.ltb_spec (Z.of_nat r * width + c) (Z.of_nat r * width)); try lia.
        rewrite andb_false_r. reflexivity.
      * rewrite IHget.
        destruct (Z.leb_spec 0 idx); try nia. cbn [andb].
        destruct (Z.ltb_spec idx (Z.of_nat r * width)),
                 (Z.ltb_spec idx (Z.of_nat (S r) * width)); try nia; reflexivity.
      * rewrite IHget.
        destruct (Z.leb_spec 0 idx); cbn [andb]; try reflexivity.
        destruct (Z.ltb_spec idx (Z.of_nat r * width)),
                 (Z.ltb_spec idx (Z.of_nat (S r) * width)); try nia; reflexivity.
Qed.

Lemma prefix_sums_cells g :
  wf_geometry ->
  length g = Z.to_nat (height * width) ->
  marker_values g ->
  length (prefix_sums g) = length g
  /\ forall idx, 0 <= idx < height * width ->
       vec_get (prefix_sums g) idx = coverage g idx.
Proof.
  intros Hgeo Hlen Hval. unfold prefix_sums.
  destruct (Z.eq_dec width 0) as [Hw0|Hw0].
  - assert (Hnil : zrange 0 (Z.to_nat (width - 1)) = []) by (rewrite Hw0; reflexivity).
    assert (Hid : forall rows g0, fold_left accumulate_row rows g0 = g0).
    { induction rows as [|r rows IH]; intros g0; simpl; auto.
      rewrite IH. unfold accumulate_row. rewrite Hnil. reflexivity. }
    rewrite Hid. split; [reflexivity|]. intros idx H. rewrite Hw0 in H. lia.
  - destruct Hgeo as [Hh Hw].
    destruct (prefix_sums_rows (Z.to_nat height) g) as [Hl Hg];
      try assumption; try (split; assumption); try lia.
    split; [exact Hl|]. intros idx Hidx. rewrite Hg.
    destruct (Z.leb_spec 0 idx), (Z.ltb_spec idx (Z.of_nat (Z.to_nat height) * width));
      try lia; reflexivity.
Qed.

Lemma compose_cells occ inv n : forall vals,
  let vals' := fold_left (compose_cell occ inv) (zrange 0 n) vals in
  length vals' = length vals
  /\ forall i,
      vec_get vals' i =
      if (0 <=? i) && (i <? Z.of_nat n) && (i <? Z.of_nat (length vals))
      then cell_cost (vec_get occ i) (vec_get inv i)
      else vec_get vals i.
Proof.
  induction n as [|n IH]; intros vals.
  - simpl. split; [reflexivity|]. intros i.
    destruct (Z.leb_spec 0 i), (Z.ltb_spec i 0); try lia; reflexivity.
  - rewrite zrange_snoc, fold_left_app. cbn [fold_left].
    destruct (IH vals) as [IHlen IHget].
    set (vals' := fold_left (compose_cell occ inv) (zrange 0 n) vals) in *.
    unfold compose_cell. split.
    + rewrite length_vec_set. exact IHlen.
    + intros i. rewrite vec_get_vec_set, IHlen, IHget.
      destruct (Z.eqb_spec i (0 + Z.of_nat n)) as [->|Hne].
      * destruct (Z.leb_spec 0 (0 + Z.of_nat n)); try lia.
        destruct (Z.ltb_spec (0 + Z.of_nat n) (Z.of_nat (S n))); try lia.
        destruct (Z.ltb_spec (0 + Z.of_nat n) (Z.of_nat n)); try lia.
        cbn [andb].
        destruct (Z.ltb_spec (0 + Z.of_nat n) (Z.of_nat (length vals))); reflexivity.
      * cbn [andb].
        destruct (Z.leb_spec 0 i); cbn [andb]; try reflexivity.
        destruct (Z.ltb_spec i (Z.of_nat n)), (Z.ltb_spec i (Z.of_nat (S n)));
          try lia; reflexivity.
Qed.

Lemma marker_values_Forall g :
  Forall (in_range MarkerCounterType) g -> marker_values g.
Proof.
  intros H i. unfold vec_get. destruct (i <? 0); [apply in_range_0|].
  destruct (Nat.lt_ge_cases (Z.to_nat i) (length g)) as [Hlt|Hge].
  - rewrite Forall_forall in H. apply H, nth_In, Hlt.
  - rewrite nth_overflow by exact Hge. apply in_range_0.
Qed.

Lemma cell_cost_nonneg occ inv :
  0 <= occ -> 0 <= inv -> cell_cost occ inv = spec_cell_cost occ inv.
Proof.
  intros Ho Hi. unfold cell_cost, spec_cell_cost.
  destruct (Z.eqb_spec occ 0), (Z.ltb_spec 0 occ); try lia; try reflexivity.
  destruct (Z.eqb_spec inv 0), (Z.ltb_spec 0 inv); try lia; reflexivity.
Qed.

(** After [build], every cell [i] in [[0, height * width)] holds
    [occupied_cost] if the prefix-summed occupied coverage count at [i] is
    non-zero, else [invisible_cost] if the prefix-summed invisible coverage
    count at [i] is non-zero, else 0. *)
Lemma build_cell_values b :
  wf_geometry -> wf_builder b ->
  marker_values (occupied_grid_ b) -> marker_values (invisible_grid_ b) ->
  forall i, 0 <= i < height * width ->
    vec_get (get (build b)) i =
    if coverage (occupied_grid_ b) i =? 0 then
      if coverage (invisible_grid_ b) i =? 0 then 0 else invisible_cost
    else occupied_cost.
Proof.
  intros Hgeo (Hinv & Hocc & Hvals & _) Hmo Hmi i Hi.
  pose proof (wf_geometry_size Hgeo) as Hsz.
  destruct (prefix_sums_cells (occupied_grid_ b) Hgeo Hocc Hmo) as [_ Hco].
  destruct (prefix_sums_cells (invisible_grid_ b) Hgeo Hinv Hmi) as [_ Hci].
  unfold get, build. cbn [values_].
  rewrite wrap_size_small by lia.
  destruct (compose_cells (prefix_sums (occupied_grid_ b))
              (prefix_sums (invisible_grid_ b))
              (Z.to_nat (height * width)) (values_ b)) as [_ Hget].
  rewrite Hget, Hvals.
  destruct (Z.leb_spec 0 i), (Z.ltb_spec i (Z.of_nat (Z.to_nat (height * width))));
    try lia.
  cbn [andb]. rewrite Hco, Hci by lia. reflexivity.
Qed.

(** ** Grid compositor: [reset] *)

(** C9: [reset origin] stores the pose, zeroes the primitive counter and every
    element of both accumulator arrays, and leaves every element of [values_]
    and the lengths of all three arrays unchanged. *)
Theorem reset_effect origin b :
  origin_ (reset origin b) = origin
  /\ primitive_count_ (reset origin b) = 0
  /\ (forall i, vec_get (invisible_grid_ (reset origin b)) i = 0)
  /\ (forall i, vec_get (occupied_grid_ (reset origin b)) i = 0)
  /\ Forall (fun c => c = 0) (invisible_grid_ (reset origin b))
  /\ Forall (fun c => c = 0) (occupied_grid_ (reset origin b))
  /\ values_ (reset origin b) = values_ b
  /\ length (invisible_grid_ (reset origin b)) = length (invisible_grid_ b)
  /\ length (occupied_grid_ (reset origin b)) = length (occupied_grid_ b)
  /\ length (values_ (reset origin b)) = length (values_ b).
Proof.
  assert (Hz : forall v i, vec_get (vec_assign v 0) i = 0).
  { intros v i. unfold vec_get, vec_assign. destruct (i <? 0); [reflexivity|].
    destruct (Nat.lt_ge_cases (Z.to_nat i) (length v)).
    - apply nth_repeat_lt. assumption.
    - apply nth_overflow. rewrite repeat_length. assumption. }
  assert (Hall : forall v, Forall (fun c => c = 0) (vec_assign v 0)).
  { intros v. apply Forall_forall. intros c Hc. eapply repeat_spec, Hc. }
  unfold reset; cbn.
  repeat split; auto using length_vec_assign.
Qed.

(** ** Rasterizer *)

Lemma wrap_int32_le z : 0 <= z -> wrap int32_t z <= z.
Proof.
  intros Hz. unfold wrap. change (int_min int32_t) with (-2147483648).
  change (modulus int32_t) with 4294967296.
  pose proof (Z.mod_le (z - -2147483648) 4294967296). lia.
Qed.

Lemma int32_max_value : int_max int32_t = 2147483647.
Proof. reflexivity. Qed.

(** The second conditional: undefined when the recorded maximum is
    [INT32_MAX], and otherwise the write of the guard taken exactly. *)
Lemma max_write_cases maxcols row :
  max_write maxcols row =
  if max_overflows maxcols row then UndefinedBehaviour
  else Ok (max_write_value maxcols row).
Proof.
  unfold max_write_value, max_write, max_overflows.
  destruct (0 <=? vec_get maxcols row); cbn [andb]; [|reflexivity].
  destruct (int_max int32_t <=? vec_get maxcols row); [reflexivity|].
  destruct (vec_get maxcols row + 1 <? wrap int32_t width); reflexivity.
Qed.

Lemma max_write_value_eq maxcols row :
  max_write_value maxcols row =
  if (0 <=? vec_get maxcols row)
     && (vec_get maxcols row + 1 <? wrap int32_t width)
  then [(wrap size_t (width * row + vec_get maxcols row + 1), -1)]
  else [].
Proof.
  unfold max_write_value, max_write.
  destruct (Z.leb_spec 0 (vec_get maxcols row)); cbn [andb]; [|reflexivity].
  pose proof (wrap_in_range int32_t width) as [_ Hr].
  destruct (Z.leb_spec (int_max int32_t) (vec_get maxcols row)).
  - destruct (Z.ltb_spec (vec_get maxcols row + 1) (wrap int32_t width));
      [lia | reflexivity].
  - destruct (vec_get maxcols row + 1 <? wrap int32_t width); reflexivity.
Qed.

Lemma wf_geometry_sizes : wf_geometry -> wf_sizes.
Proof.
  intros Hgeo. pose proof (wf_geometry_size Hgeo) as Hsz.
  destruct Hgeo as [Hh Hw]. unfold wf_sizes.
  change (int_max size_t) with (2 ^ 64 - 1).
  assert (2 ^ 62 < 2 ^ 64) by reflexivity. lia.
Qed.

Lemma fold_left_flat_map {A B C : Type} (f : A -> C -> A) (g : B -> list C) l :
  forall a,
    fold_left f (flat_map g l) a = fold_left (fun a x => fold_left f (g x) a) l a.
Proof.
  induction l as [|x l IH]; intros a; simpl; [reflexivity|].
  rewrite fold_left_app. apply IH.
Qed.

Lemma scan_edges_cells convex_hull mm :
  scan_edges convex_hull mm = fold_left scan_cell (polygon_cells convex_hull) mm.
Proof. unfold scan_edges, polygon_cells. symmetry. apply fold_left_flat_map. Qed.

Lemma scan_cell_length mm c :
  length (fst (scan_cell mm c)) = length (fst mm)
  /\ length (snd (scan_cell mm c)) = length (snd mm).
Proof.
  unfold scan_cell. destruct c as [col row].
  destruct ((0 <=? row) && (row <? wrap int32_t height)); cbn [fst snd];
    rewrite ?length_vec_set; auto.
Qed.

Lemma scan_cells_length cells : forall mm,
  length (fst (fold_left scan_cell cells mm)) = length (fst mm)
  /\ length (snd (fold_left scan_cell cells mm)) = length (snd mm).
Proof.
  induction cells as [|c cells IH]; intros mm; simpl; [auto|].
  destruct (IH (scan_cell mm c)) as [H1 H2].
  destruct (scan_cell_length mm c) as [H3 H4]. split; congruence.
Qed.

(** The recorded minimum of a row is the sentinel it started from or the
    column of one of the row's cells; likewise the recorded maximum. *)
Lemma scan_cells_origin cells : forall mm row,
  let mm' := fold_left scan_cell cells mm in
  (vec_get (fst mm') row = vec_get (fst mm) row
   \/ In (vec_get (fst mm') row, row) cells)
  /\ (vec_get (snd mm') row = vec_get (snd mm) row
      \/ In (vec_get (snd mm') row, row) cells).
Proof.
  induction cells as [|[col r] cells IH]; intros mm row; cbn [fold_left].
  - auto.
  - destruct (IH (scan_cell mm (col, r)) row) as [Hmin Hmax].
    assert (Hstep :
      (vec_get (fst (scan_cell mm (col, r))) row = vec_get (fst mm) row
       \/ (vec_get (fst (scan_cell mm (col, r))) row = col /\ r = row))
      /\ (vec_get (snd (scan_cell mm (col, r))) row = vec_get (snd mm) row
          \/ (vec_get (snd (scan_cell mm (col, r))) row = col /\ r = row))).
    { unfold scan_cell.
      destruct ((0 <=? r) && (r <? wrap int32_t height)); cbn [fst snd]; auto.
      rewrite !vec_get_vec_set.
      destruct ((row =? r) && (0 <=? r) && (r <? Z.of_nat (length (fst mm)))) eqn:E1;
      destruct ((row =? r) && (0 <=? r) && (r <? Z.of_nat (length (snd mm)))) eqn:E2;
        auto.
      - apply andb_prop in E1 as [E1 _]. apply andb_prop in E1 as [E1 _].
        apply Z.eqb_eq in E1. subst r. split.
        + destruct (Z.min_spec (vec_get (fst mm) row) col) as [[_ ->]|[_ ->]]; auto.
        + destruct (Z.max_spec (vec_get (snd mm) row) col) as [[_ ->]|[_ ->]]; auto.
      - apply andb_prop in E1 as [E1 _]. apply andb_prop in E1 as [E1 _].
        apply Z.eqb_eq in E1. subst r. split; auto.
        destruct (Z.min_spec (vec_get (fst mm) row) col) as [[_ ->]|[_ ->]]; auto.
      - apply andb_prop in E2 as [E2 _]. apply andb_prop in E2 as [E2 _].
        apply Z.eqb_eq in E2. subst r. split; auto.
        destruct (Z.max_spec (vec_get (snd mm) row) col) as [[_ ->]|[_ ->]]; auto. }
    destruct Hstep as [Smin Smax]. split.
    + destruct Hmin as [Hmin|Hmin]; [|right; right; exact Hmin].
      rewrite Hmin. destruct Smin as [->|[-> ->]]; [left; reflexivity|].
      right; left; reflexivity.
    + destruct Hmax as [Hmax|Hmax]; [|right; right; exact Hmax].
      rewrite Hmax. destruct Smax as [->|[-> ->]]; [left; reflexivity|].
      right; left; reflexivity.
Qed.

(** For a row of the grid the recorded minimum is below the sentinel and
    below every column of the row's cells; dually for the maximum. *)
Lemma scan_cells_bounds cells : forall mm row,
  wf_geometry ->
  length (fst mm) = Z.to_nat height -> length (snd mm) = Z.to_nat height ->
  0 <= row < height ->
  let mm' := fold_left scan_cell cells mm in
  vec_get (fst mm') row <= vec_get (fst mm) row
  /\ vec_get (snd mm) row <= vec_get (snd mm') row
  /\ forall col, In (col, row) cells ->
       vec_get (fst mm') row <= col <= vec_get (snd mm') row.
Proof.
  induction cells as [|[col r] cells IH]; intros mm row Hgeo Hl1 Hl2 Hrow;
    cbn [fold_left].
  - repeat split; try lia. contradiction. contradiction.
  - destruct (scan_cell_length mm (col, r)) as [L1 L2].
    destruct (IH (scan_cell mm (col, r)) row Hgeo) as (Hmin & Hmax & Hall);
      try congruence; try assumption.
    assert (Hstep :
      vec_get (fst (scan_cell mm (col, r))) row <= vec_get (fst mm) row
      /\ vec_get (snd mm) row <= vec_get (snd (scan_cell mm (col, r))) row
      /\ (r = row ->
          vec_get (fst (scan_cell mm (col, r))) row <= col
          <= vec_get (snd (scan_cell mm (col, r))) row)).
    { unfold scan_cell. rewrite wrap_int32_small by (destruct Hgeo; lia).
      destruct (Z.leb_spec 0 r), (Z.ltb_spec r height); cbn [andb fst snd];
        try (repeat split; lia).
      rewrite !vec_get_vec_set, Hl1, Hl2.
      destruct (Z.eqb_spec row r) as [->|Hne]; cbn [andb].
      - destruct (Z.leb_spec 0 r), (Z.ltb_spec r (Z.of_nat (Z.to_nat height)));
          try lia. cbn [andb]. lia.
      - repeat split; lia. }
    destruct Hstep as (S1 & S2 & S3).
    repeat split; try lia.
    + destruct H as [H|H]; [|apply Hall; exact H].
      injection H as -> ->. specialize (S3 eq_refl). lia.
    + destruct H as [H|H]; [|apply Hall; exact H].
      injection H as -> ->. specialize (S3 eq_refl). lia.
Qed.

Lemma addPolygon_grid sel convex_hull b :
  get_grid sel (addPolygon sel convex_hull b) =
  fold_left apply_write (addPolygon_writes convex_hull b) (get_grid sel b).
Proof.
  unfold addPolygon, addPolygon_writes, mark_rows, mark_row.
  rewrite fold_left_flat_map. destruct sel; reflexivity.
Qed.

Lemma addPolygon_frame sel convex_hull b :
  origin_ (addPolygon sel convex_hull b) = origin_ b
  /\ primitive_count_ (addPolygon sel convex_hull b) = primitive_count_ b
  /\ values_ (addPolygon sel convex_hull b) = values_ b
  /\ match sel with
     | InvisibleGrid =>
         occupied_grid_ (addPolygon sel convex_hull b) = occupied_grid_ b
     | OccupiedGrid =>
         invisible_grid_ (addPolygon sel convex_hull b) = invisible_grid_ b
     end.
Proof. destruct sel; repeat split. Qed.

Lemma scanned_length convex_hull b :
  length (fst (scanned convex_hull b)) = length (mincols_ b)
  /\ length (snd (scanned convex_hull b)) = length (maxcols_ b).
Proof.
  unfold scanned. rewrite scan_edges_cells.
  destruct (scan_cells_length (polygon_cells convex_hull)
              (vec_assign (mincols_ b) (wrap int32_t width),
               vec_assign (maxcols_ b) (-1))) as [H1 H2].
  cbn [fst snd] in *. rewrite length_vec_assign in *. auto.
Qed.

(** The recorded minimum of a grid row is the sentinel [width] or the column
    of a traversed cell of that row; the recorded maximum is the sentinel
    [-1] or such a column. *)
Lemma scanned_origin convex_hull b row :
  wf_builder b -> 0 <= row < height ->
  (vec_get (fst (scanned convex_hull b)) row = wrap int32_t width
   \/ In (vec_get (fst (scanned convex_hull b)) row, row)
        (polygon_cells convex_hull))
  /\ (vec_get (snd (scanned convex_hull b)) row = -1
      \/ In (vec_get (snd (scanned convex_hull b)) row, row)
           (polygon_cells convex_hull)).
Proof.
  intros (_ & _ & _ & Hmin & Hmax) Hrow.
  unfold scanned. rewrite scan_edges_cells.
  destruct (scan_cells_origin (polygon_cells convex_hull)
              (vec_assign (mincols_ b) (wrap int32_t width),
               vec_assign (maxcols_ b) (-1)) row) as [H1 H2].
  cbn [fst snd] in *.
  rewrite vec_get_assign in H1 by lia.
  rewrite vec_get_assign in H2 by lia. auto.
Qed.

(** Every write of a grid row goes to a cell of that row. *)
Lemma row_writes_in_row mincols maxcols row idx d :
  wf_sizes -> 0 <= row < height ->
  In (idx, d) (row_writes mincols maxcols row) ->
  exists col, idx = row * width + col /\ 0 <= col < width /\ (d = 1 \/ d = -1).
Proof.
  intros (Hh & Hw & Hsz) Hrow Hin.
  change (int_max size_t) with (2 ^ 64 - 1) in Hsz.
  pose proof (wrap_int32_le width Hw) as Hw32.
  unfold row_writes in Hin. rewrite max_write_value_eq in Hin.
  unfold min_write in Hin.
  apply in_app_or in Hin. destruct Hin as [Hin|Hin].
  - destruct (Z.leb_spec 0 (vec_get mincols row)); cbn [andb] in Hin;
      [|contradiction].
    destruct (Z.ltb_spec (vec_get mincols row) (wrap int32_t width));
      [|contradiction].
    destruct Hin as [Hin|[]]. injection Hin as <- <-.
    exists (vec_get mincols row).
    rewrite wrap_size_small by nia. repeat split; lia.
  - destruct (Z.leb_spec 0 (vec_get maxcols row)); cbn [andb] in Hin;
      [|contradiction].
    destruct (Z.ltb_spec (vec_get maxcols row + 1) (wrap int32_t width));
      [|contradiction].
    destruct Hin as [Hin|[]]. injection Hin as <- <-.
    exists (vec_get maxcols row + 1).
    rewrite wrap_size_small by nia. repeat split; lia.
Qed.

(** A polygon none of whose traversed cells lies in the grid writes nothing. *)
Lemma addPolygon_writes_outside convex_hull b :
  0 <= width -> wf_builder b ->
  (forall col row, In (col, row) (polygon_cells convex_hull) ->
                   ~ (0 <= col < width /\ 0 <= row < height)) ->
  addPolygon_writes convex_hull b = [].
Proof.
  intros Hw Hwf Hout. unfold addPolygon_writes.
  pose proof (wrap_int32_le width Hw) as Hw32.
  assert (Hrows : forall rows, (forall r, In r rows -> 0 <= r < height) ->
    flat_map (row_writes (fst (scanned convex_hull b)) (snd (scanned convex_hull b)))
      rows = []).
  { induction rows as [|r rows IH]; intros Hr; [reflexivity|].
    cbn [flat_map]. rewrite IH by (intros; apply Hr; right; assumption).
    rewrite app_nil_r.
    assert (Hrow : 0 <= r < height) by (apply Hr; left; reflexivity).
    destruct (scanned_origin convex_hull b r Hwf Hrow) as [Hmin Hmax].
    unfold row_writes. rewrite max_write_value_eq. unfold min_write.
    destruct (Z.leb_spec 0 (vec_get (fst (scanned convex_hull b)) r)) as [H1|H1];
    destruct (Z.ltb_spec (vec_get (fst (scanned convex_hull b)) r)
                (wrap int32_t width)) as [H2|H2];
    destruct (Z.leb_spec 0 (vec_get (snd (scanned convex_hull b)) r)) as [H3|H3];
    destruct (Z.ltb_spec (vec_get (snd (scanned convex_hull b)) r + 1)
                (wrap int32_t width)) as [H4|H4];
      cbn [andb app]; try reflexivity; exfalso.
    all: try (destruct Hmin as [Hmin|Hmin]; [lia|];
              apply Hout in Hmin; apply Hmin; lia).
    all: destruct Hmax as [Hmax|Hmax]; [lia|];
         apply Hout in Hmax; apply Hmax; lia. }
  apply Hrows. intros r Hr. apply in_zrange in Hr. lia.
Qed.

Lemma addPolygon_no_cell_no_coverage sel convex_hull b :
  0 <= width -> wf_builder b ->
  (forall col row, In (col, row) (polygon_cells convex_hull) ->
                   ~ (0 <= col < width /\ 0 <= row < height)) ->
  invisible_grid_ (addPolygon sel convex_hull b) = invisible_grid_ b
  /\ occupied_grid_ (addPolygon sel convex_hull b) = occupied_grid_ b
  /\ get (build (addPolygon sel convex_hull b)) = get (build b).
Proof.
  intros Hw Hwf Hout.
  pose proof (addPolygon_grid sel convex_hull b) as Hgrid.
  rewrite (addPolygon_writes_outside convex_hull b Hw Hwf Hout) in Hgrid.
  cbn [fold_left] in Hgrid.
  destruct (addPolygon_frame sel convex_hull b) as (_ & _ & Hvals & Hother).
  assert (Hi : invisible_grid_ (addPolygon sel convex_hull b) = invisible_grid_ b)
    by (destruct sel; [exact Hgrid | exact Hother]).
  assert (Ho : occupied_grid_ (addPolygon sel convex_hull b) = occupied_grid_ b)
    by (destruct sel; [exact Hother | exact Hgrid]).
  repeat split; try assumption.
  unfold get, build. cbn [values_]. rewrite Hi, Ho, Hvals. reflexivity.
Qed.

(** A cell that contains a point outside the grid rectangle is not a cell of
    the grid. *)
Lemma cell_of_outside_point c x y :
  in_cell c x y ->
  ~ ((0 <= x < IZR width)%R /\ (0 <= y < IZR height)%R) ->
  ~ (0 <= fst c < width /\ 0 <= snd c < height).
Proof.
  intros [[Hx1 Hx2] [Hy1 Hy2]] Hout [[Hc1 Hc2] [Hr1 Hr2]]. apply Hout.
  assert (IZR (fst c + 1) <= IZR width)%R by (apply IZR_le; lia).
  assert (IZR (snd c + 1) <= IZR height)%R by (apply IZR_le; lia).
  assert (0 <= IZR (fst c))%R by (apply IZR_le; lia).
  assert (0 <= IZR (snd c))%R by (apply IZR_le; lia).
  rewrite plus_IZR in *. lra.
Qed.

Lemma scanned_bounds convex_hull b row :
  wf_geometry -> wf_builder b -> 0 <= row < height ->
  vec_get (fst (scanned convex_hull b)) row <= width
  /\ -1 <= vec_get (snd (scanned convex_hull b)) row
  /\ forall col, In (col, row) (polygon_cells convex_hull) ->
       vec_get (fst (scanned convex_hull b)) row <= col
       <= vec_get (snd (scanned convex_hull b)) row.
Proof.
  intros Hgeo (_ & _ & _ & Hmin & Hmax) Hrow.
  unfold scanned. rewrite scan_edges_cells.
  destruct (scan_cells_bounds (polygon_cells convex_hull)
              (vec_assign (mincols_ b) (wrap int32_t width),
               vec_assign (maxcols_ b) (-1)) row Hgeo) as (H1 & H2 & H3);
    cbn [fst snd]; rewrite ?length_vec_assign; try assumption.
  cbn [fst snd] in *.
  rewrite vec_get_assign in H1 by lia.
  rewrite vec_get_assign in H2 by lia.
  assert (Hw32 : wrap int32_t width = width)
    by (apply wrap_int32_small; destruct Hgeo; lia).
  split; [lia | split; [exact H2 | exact H3]].
Qed.

(** *** The run of [addPolygon] *)

Lemma scan_cell_run_state st c : fst (scan_cell_run st c) = scan_cell (fst st) c.
Proof.
  destruct st as [[mins maxs] t], c as [col row].
  unfold scan_cell_run, scan_cell, scratch_get, scratch_set. cbn [fst snd].
  destruct ((0 <=? row) && (row <? wrap int32_t height)); reflexivity.
Qed.

Lemma scan_cell_run_accesses st c a :
  In a (snd (scan_cell_run st c)) ->
  In a (snd st)
  \/ exists row, a = ScratchAccess row /\ 0 <= row < wrap int32_t height.
Proof.
  destruct c as [col row]. unfold scan_cell_run, scratch_get, scratch_set.
  destruct (Z.leb_spec 0 row) as [H0|H0]; cbn [andb]; [|auto].
  destruct (Z.ltb_spec row (wrap int32_t height)) as [H1|H1]; [|auto].
  cbn [fst snd]. intros H. apply in_app_or in H as [H|H]; [auto|].
  right. exists row. split; [|lia]. cbn in H. intuition congruence.
Qed.

Lemma scan_cells_run cells : forall st,
  fst (fold_left scan_cell_run cells st) = fold_left scan_cell cells (fst st)
  /\ forall a, In a (snd (fold_left scan_cell_run cells st)) ->
       In a (snd st)
       \/ exists row, a = ScratchAccess row /\ 0 <= row < wrap int32_t height.
Proof.
  induction cells as [|c cells IH]; intros st; cbn [fold_left]; [auto|].
  destruct (IH (scan_cell_run st c)) as [H1 H2]. split.
  - rewrite H1, scan_cell_run_state. reflexivity.
  - intros a Ha. apply H2 in Ha as [Ha|Ha]; [|auto].
    apply scan_cell_run_accesses in Ha. exact Ha.
Qed.

Lemma scan_edges_run_cells convex_hull st :
  scan_edges_run convex_hull st
  = fold_left scan_cell_run (polygon_cells convex_hull) st.
Proof. unfold scan_edges_run, polygon_cells. symmetry. apply fold_left_flat_map. Qed.

Lemma grid_writes_app t1 t2 :
  grid_writes (t1 ++ t2) = grid_writes t1 ++ grid_writes t2.
Proof. unfold grid_writes. apply flat_map_app. Qed.

Lemma grid_writes_as_grid_write ws : grid_writes (map as_grid_write ws) = ws.
Proof.
  induction ws as [|[i d] ws IH]; [reflexivity|].
  cbn [map]. change (grid_writes (as_grid_write (i, d) :: map as_grid_write ws))
    with ((i, d) :: grid_writes (map as_grid_write ws)).
  rewrite IH. reflexivity.
Qed.

Lemma grid_writes_mark_row mincols row ws :
  grid_writes (mark_row_accesses mincols row ws) = min_write mincols row ++ ws.
Proof.
  unfold mark_row_accesses.
  change (grid_writes (ScratchAccess row :: ?l)) with (grid_writes l).
  rewrite grid_writes_app, grid_writes_as_grid_write.
  change (grid_writes (ScratchAccess row :: map as_grid_write ws))
    with (grid_writes (map as_grid_write ws)).
  rewrite grid_writes_as_grid_write. reflexivity.
Qed.

Lemma grid_writes_scratch t :
  (forall a, In a t -> exists row, a = ScratchAccess row) -> grid_writes t = [].
Proof.
  induction t as [|a t IH]; intros H; [reflexivity|].
  destruct (H a (or_introl eq_refl)) as [row ->].
  change (grid_writes (ScratchAccess row :: t)) with (grid_writes t).
  apply IH. intros x Hx. apply H. right. exact Hx.
Qed.

(** The loop over the rows stops at the first row whose guard overflows;
    without one it makes the writes of [mark_row], row after row. *)
Lemma mark_rows_run_cases mincols maxcols rows : forall st,
  mark_rows_run mincols maxcols rows st =
  if forallb (fun row => negb (max_overflows maxcols row)) rows
  then Ok (fold_left (mark_row mincols maxcols) rows (fst st),
           snd st
           ++ flat_map (fun row => mark_row_accesses mincols row
                                     (max_write_value maxcols row)) rows)
  else UndefinedBehaviour.
Proof.
  induction rows as [|row rows IH]; intros st;
    cbn [mark_rows_run forallb fold_left flat_map].
  - rewrite app_nil_r. destruct st; reflexivity.
  - unfold mark_row_run. rewrite max_write_cases.
    destruct (max_overflows maxcols row); cbn [negb andb]; [reflexivity|].
    rewrite IH. cbn [fst snd].
    destruct (forallb _ rows); [|reflexivity].
    unfold mark_row, row_writes. rewrite <- app_assoc. reflexivity.
Qed.

Lemma scan_edges_run_scanned convex_hull b :
  fst (scan_edges_run convex_hull
         ((vec_assign (mincols_ b) (wrap int32_t width),
           vec_assign (maxcols_ b) (-1)), []))
  = scanned convex_hull b.
Proof.
  rewrite scan_edges_run_cells. unfold scanned. rewrite scan_edges_cells.
  apply scan_cells_run.
Qed.

(** A run without overflow: the builder is [addPolygon]'s, the writes among
    the recorded accesses are [addPolygon_writes], and the scratch accesses
    are at rows that passed the row guard or are rows of the grid. *)
Lemma addPolygon_run_defined sel convex_hull b :
  addPolygon_defined convex_hull b = true ->
  exists accesses,
    addPolygon_run sel convex_hull b
    = Ok (addPolygon sel convex_hull b, accesses)
    /\ grid_writes accesses = addPolygon_writes convex_hull b
    /\ forall a, In a accesses ->
         match a with
         | ScratchAccess row =>
             0 <= row /\ (row < wrap int32_t height \/ row < height)
         | GridWrite index delta =>
             In (index, delta) (addPolygon_writes convex_hull b)
         end.
Proof.
  intros Hdef. unfold addPolygon_run. cbv zeta.
  rewrite scan_edges_run_scanned, mark_rows_run_cases.
  change (forallb _ (zrange 0 (Z.to_nat height)))
    with (addPolygon_defined convex_hull b).
  rewrite Hdef. cbn [fst snd].
  set (t := snd (scan_edges_run convex_hull _)).
  assert (Ht : forall a, In a t ->
             exists row, a = ScratchAccess row /\ 0 <= row < wrap int32_t height).
  { intros a Ha. unfold t in Ha. rewrite scan_edges_run_cells in Ha.
    apply scan_cells_run in Ha as [[]|Ha]. exact Ha. }
  set (rows := zrange 0 (Z.to_nat height)).
  set (mm := scanned convex_hull b).
  assert (Hw : grid_writes
                 (flat_map (fun row => mark_row_accesses (fst mm) row
                                         (max_write_value (snd mm) row)) rows)
               = flat_map (row_writes (fst mm) (snd mm)) rows).
  { induction rows as [|row rows' IH]; [reflexivity|].
    cbn [flat_map]. rewrite grid_writes_app, grid_writes_mark_row, IH.
    reflexivity. }
  eexists. split; [reflexivity|]. split.
  - rewrite grid_writes_app, Hw, grid_writes_scratch.
    + reflexivity.
    + intros a Ha. destruct (Ht a Ha) as (row & -> & _). eauto.
  - intros a Ha. apply in_app_or in Ha as [Ha|Ha].
    + destruct (Ht a Ha) as (row & -> & Hrow). lia.
    + apply in_flat_map in Ha as (row & Hrow & Ha).
      apply in_zrange in Hrow. unfold mark_row_accesses in Ha.
      assert (Hcases : a = ScratchAccess row
                \/ exists w, a = as_grid_write w
                     /\ In w (row_writes (fst mm) (snd mm) row)).
      { unfold row_writes. destruct Ha as [Ha|Ha]; [auto|].
        apply in_app_or in Ha. destruct Ha as [Ha|[Ha|Ha]]; auto.
        - apply in_map_iff in Ha. destruct Ha as (w & <- & Hw').
          right. exists w. split; [reflexivity|]. apply in_or_app. auto.
        - apply in_map_iff in Ha. destruct Ha as (w & <- & Hw').
          right. exists w. split; [reflexivity|]. apply in_or_app. auto. }
      destruct Hcases as [->|([idx d] & -> & Hw')].
      * lia.
      * cbn [as_grid_write fst snd]. unfold addPolygon_writes.
        apply in_flat_map. exists row. split; [|exact Hw'].
        apply in_zrange. lia.
Qed.

Lemma addPolygon_run_undefined sel convex_hull b :
  addPolygon_defined convex_hull b = false ->
  addPolygon_run sel convex_hull b = UndefinedBehaviour.
Proof.
  intros Hdef. unfold addPolygon_run. cbv zeta.
  rewrite scan_edges_run_scanned, mark_rows_run_cases.
  change (forallb _ (zrange 0 (Z.to_nat height)))
    with (addPolygon_defined convex_hull b).
  rewrite Hdef. reflexivity.
Qed.

Lemma addPolygon_run_cases sel convex_hull b :
  (addPolygon_defined convex_hull b = true
   /\ exists accesses,
        addPolygon_run sel convex_hull b
        = Ok (addPolygon sel convex_hull b, accesses))
  \/ (addPolygon_defined convex_hull b = false
      /\ addPolygon_run sel convex_hull b = UndefinedBehaviour).
Proof.
  destruct (addPolygon_defined convex_hull b) eqn:E.
  - left. split; [reflexivity|].
    destruct (addPolygon_run_defined sel convex_hull b E) as (t & Ht & _).
    eauto.
  - right. split; [reflexivity|]. apply addPolygon_run_undefined, E.
Qed.


(** The run is defined exactly when no traversed cell of a row of the grid
    has the column [INT32_MAX] (or beyond, which an [int32_t] cannot). *)
Lemma addPolygon_defined_iff convex_hull b :
  wf_geometry -> wf_builder b ->
  addPolygon_defined convex_hull b = true
  <-> forall col row, In (col, row) (polygon_cells convex_hull) ->
        0 <= row < height -> col < int_max int32_t.
Proof.
  intros Hgeo Hwf. unfold addPolygon_defined. rewrite forallb_forall. split.
  - intros H col row Hin Hrow.
    destruct (scanned_bounds convex_hull b row Hgeo Hwf Hrow) as (_ & Hhi & Hall).
    specialize (Hall col Hin).
    assert (Hr : In row (zrange 0 (Z.to_nat height))) by (apply in_zrange; lia).
    apply H in Hr. unfold max_overflows in Hr.
    destruct (Z.leb_spec 0 (vec_get (snd (scanned convex_hull b)) row));
      destruct (Z.leb_spec (int_max int32_t)
                  (vec_get (snd (scanned convex_hull b)) row));
      cbn in Hr; try discriminate; try lia.
    rewrite int32_max_value in *. lia.
  - intros H row Hr. apply in_zrange in Hr.
    assert (Hrow : 0 <= row < height) by lia.
    destruct (scanned_origin convex_hull b row Hwf Hrow) as [_ Hmax].
    unfold max_overflows.
    destruct (Z.leb_spec 0 (vec_get (snd (scanned convex_hull b)) row));
      [|reflexivity].
    destruct (Z.leb_spec (int_max int32_t)
                (vec_get (snd (scanned convex_hull b)) row)); [|reflexivity].
    exfalso. destruct Hmax as [Hmax|Hmax]; [lia|].
    specialize (H _ _ Hmax Hrow). lia.
Qed.

(** A traversed cell of a grid row at column [INT32_MAX] makes the run
    undefined. *)
Lemma addPolygon_run_overflow sel convex_hull b row :
  wf_geometry -> wf_builder b -> 0 <= row < height ->
  In (int_max int32_t, row) (polygon_cells convex_hull) ->
  addPolygon_run sel convex_hull b = UndefinedBehaviour.
Proof.
  intros Hgeo Hwf Hrow Hin. apply addPolygon_run_undefined.
  destruct (addPolygon_defined convex_hull b) eqn:E; [|reflexivity].
  pose proof (proj1 (addPolygon_defined_iff convex_hull b Hgeo Hwf) E
                _ _ Hin Hrow). lia.
Qed.

(** The scratch buffers are re-initialised by every call: what is recorded
    depends on the builder only through their sizes. *)
Lemma scanned_same convex_hull b1 b2 :
  length (mincols_ b1) = length (mincols_ b2) ->
  length (maxcols_ b1) = length (maxcols_ b2) ->
  scanned convex_hull b1 = scanned convex_hull b2.
Proof. intros H1 H2. unfold scanned, vec_assign. rewrite H1, H2. reflexivity. Qed.

Lemma addPolygon_writes_same convex_hull b1 b2 :
  length (mincols_ b1) = length (mincols_ b2) ->
  length (maxcols_ b1) = length (maxcols_ b2) ->
  addPolygon_writes convex_hull b1 = addPolygon_writes convex_hull b2.
Proof.
  intros H1 H2. unfold addPolygon_writes.
  rewrite (scanned_same convex_hull b1 b2 H1 H2). reflexivity.
Qed.

Lemma addPolygon_defined_same convex_hull b1 b2 :
  length (mincols_ b1) = length (mincols_ b2) ->
  length (maxcols_ b1) = length (maxcols_ b2) ->
  addPolygon_defined convex_hull b1 = addPolygon_defined convex_hull b2.
Proof.
  intros H1 H2. unfold addPolygon_defined.
  rewrite (scanned_same convex_hull b1 b2 H1 H2). reflexivity.
Qed.

Lemma addPolygon_scratch_length sel convex_hull b :
  length (mincols_ (addPolygon sel convex_hull b)) = length (mincols_ b)
  /\ length (maxcols_ (addPolygon sel convex_hull b)) = length (maxcols_ b).
Proof.
  destruct (scanned_length convex_hull b) as [H1 H2].
  destruct sel; cbn; auto.
Qed.

(** C7 (behaviour of the code): for a polygon whose image in pixel space
    (the edges between the images of its vertices under [transformToPixel])
    lies entirely outside [[0, width) x [0, height)], rasterized by a
    traversal that yields cells the edges cross, [addPolygon] is defined and
    leaves both accumulator arrays as they were, so that the values after
    the following [build] are those obtained without the polygon, provided
    no traversed cell of a grid row has the column [INT32_MAX]; with such a
    cell, which lies outside every grid, the run is undefined: the guard's
    [int32_t] sum [col + 1] overflows. *)
Theorem addPolygon_outside_no_coverage sel convex_hull b :
  wf_geometry -> wf_builder b ->
  polygon_traversal_crosses convex_hull ->
  polygon_outside convex_hull ->
  ((forall col row, In (col, row) (polygon_cells convex_hull) ->
      0 <= row < height -> col < int_max int32_t) ->
   exists accesses,
     addPolygon_run sel convex_hull b
     = Ok (addPolygon sel convex_hull b, accesses)
     /\ grid_writes accesses = []
     /\ invisible_grid_ (addPolygon sel convex_hull b) = invisible_grid_ b
     /\ occupied_grid_ (addPolygon sel convex_hull b) = occupied_grid_ b
     /\ get (build (addPolygon sel convex_hull b)) = get (build b))
  /\ (forall row, 0 <= row < height ->
        In (int_max int32_t, row) (polygon_cells convex_hull) ->
        addPolygon_run sel convex_hull b = UndefinedBehaviour).
Proof.
  intros Hgeo Hwf Hcross Hout.
  assert (Hcells : forall col row, In (col, row) (polygon_cells convex_hull) ->
                     ~ (0 <= col < width /\ 0 <= row < height)).
  { intros col row Hin. unfold polygon_cells in Hin.
    apply in_flat_map in Hin as (i & Hi & Hin). apply in_seq in Hi.
    destruct (Hcross i ltac:(lia) (col, row) Hin) as (x & y & Hseg & Hcell).
    apply (cell_of_outside_point (col, row) x y Hcell).
    apply (Hout i x y ltac:(lia) Hseg). }
  assert (Hw : 0 <= width) by (destruct Hgeo; lia).
  split.
  - intros Hno.
    apply (proj2 (addPolygon_defined_iff convex_hull b Hgeo Hwf)) in Hno.
    destruct (addPolygon_run_defined sel convex_hull b Hno)
      as (accesses & Hrun & Hwrites & _).
    exists accesses. split; [exact Hrun|].
    rewrite (addPolygon_writes_outside convex_hull b Hw Hwf Hcells) in Hwrites.
    split; [exact Hwrites|].
    apply addPolygon_no_cell_no_coverage; assumption.
  - intros row Hrow Hin.
    apply (addPolygon_run_overflow sel convex_hull b row); assumption.
Qed.

(** C10 (behaviour of the code): when no traversed cell of a grid row has
    the column [INT32_MAX], [addPolygon] is defined, every scratch-buffer
    access of its run is at a row in [[0, height)], inside both buffers, and
    every write into the difference array is at an index [row * width + col]
    with [0 <= row < height] and [0 <= col < width], inside the array,
    whatever other cells the traversal yields.  With such a cell the run is
    undefined: the guard's [int32_t] sum [col + 1] overflows; were it to wrap
    around, the guard would pass and the decrement would go to the index
    [width * row + 2^31], outside every array of at most [2^31] cells. *)
Theorem addPolygon_run_in_bounds_unless_overflow sel convex_hull b :
  wf_geometry -> wf_builder b ->
  ((forall col row, In (col, row) (polygon_cells convex_hull) ->
      0 <= row < height -> col < int_max int32_t) ->
   exists accesses,
     addPolygon_run sel convex_hull b
     = Ok (addPolygon sel convex_hull b, accesses)
     /\ forall a, In a accesses ->
          match a with
          | ScratchAccess row =>
              0 <= row < height
              /\ row < Z.of_nat (length (mincols_ b))
              /\ row < Z.of_nat (length (maxcols_ b))
          | GridWrite index _ =>
              (exists row col,
                  index = row * width + col
                  /\ 0 <= row < height /\ 0 <= col < width)
              /\ 0 <= index < Z.of_nat (length (invisible_grid_ b))
              /\ 0 <= index < Z.of_nat (length (occupied_grid_ b))
          end)
  /\ (forall row, 0 <= row < height ->
        In (int_max int32_t, row) (polygon_cells convex_hull) ->
        addPolygon_run sel convex_hull b = UndefinedBehaviour
        /\ wrap int32_t (int_max int32_t + 1) < wrap int32_t width
        /\ wrap size_t (width * row + int_max int32_t + 1)
           = width * row + 2 ^ 31
        /\ (height * width <= 2 ^ 31 ->
            Z.of_nat (length (get_grid sel b)) <= width * row + 2 ^ 31)).
Proof.
  intros Hgeo Hwf.
  pose proof (wf_geometry_sizes Hgeo) as Hsz.
  pose proof Hsz as (Hh & Hw & Hprod).
  pose proof (wrap_int32_le height Hh) as Hh32.
  split.
  - intros Hno.
    apply (proj2 (addPolygon_defined_iff convex_hull b Hgeo Hwf)) in Hno.
    destruct (addPolygon_run_defined sel convex_hull b Hno)
      as (accesses & Hrun & _ & Hacc).
    exists accesses. split; [exact Hrun|].
    destruct Hwf as (Hli & Hlo & _ & Hlmin & Hlmax).
    intros a Ha. specialize (Hacc a Ha). destruct a as [row|index delta].
    + rewrite Hlmin, Hlmax. lia.
    + unfold addPolygon_writes in Hacc.
      apply in_flat_map in Hacc as (row & Hrow & Hw').
      apply in_zrange in Hrow. assert (Hr : 0 <= row < height) by lia.
      destruct (row_writes_in_row _ _ _ _ _ Hsz Hr Hw') as (col & -> & Hcol & _).
      rewrite Hli, Hlo. split; [exists row, col; auto|]. nia.
  - intros row Hrow Hin.
    split; [apply (addPolygon_run_overflow sel convex_hull b row); assumption|].
    assert (Hw32 : wrap int32_t width = width)
      by (apply wrap_int32_small; destruct Hgeo; lia).
    assert (Hmin : wrap int32_t (int_max int32_t + 1) = -2147483648)
      by reflexivity.
    rewrite Hmin, Hw32, int32_max_value.
    change (2 ^ 31) with 2147483648.
    split; [lia|].
    assert (Hidx : wrap size_t (width * row + 2147483647 + 1)
                   = width * row + 2147483648).
    { rewrite wrap_size_small; [lia|].
      destruct Hgeo as [Hgh Hgw]. rewrite int32_max_value in Hgh, Hgw.
      change (2 ^ 64) with 18446744073709551616. nia. }
    split; [exact Hidx|].
    intros Hsmall. destruct Hwf as (Hli & Hlo & _).
    assert (0 <= width * row) by nia.
    destruct sel; cbn [get_grid]; rewrite ?Hli, ?Hlo; lia.
Qed.

(** *** Span closure *)









(** ** Coordinate transformer *)

Lemma quat_transform_rotate q v :
  norm2 q = 1%R -> quat_transform q v = rotate q v.
Proof.
  unfold norm2, quat_transform, rotate, qmul, conjugate.
  destruct q as [x y z w], v as [vx vy vz]. cbn. intros Hn.
  f_equal; apply Rminus_diag_uniq.
  - match goal with |- ?d = _ =>
      replace d with (vx * (1 - (w * w + x * x + y * y + z * z)))%R by ring end.
    rewrite Hn. ring.
  - match goal with |- ?d = _ =>
      replace d with (vy * (1 - (w * w + x * x + y * y + z * z)))%R by ring end.
    rewrite Hn. ring.
  - match goal with |- ?d = _ =>
      replace d with (vz * (1 - (w * w + x * x + y * y + z * z)))%R by ring end.
    rewrite Hn. ring.
Qed.

Lemma norm2_conjugate q : norm2 (conjugate q) = norm2 q.
Proof. unfold norm2, conjugate. cbn. ring. Qed.

(** C6: for a unit orientation, [transformToGrid p] is [p] rotated by the
    conjugate of the origin's orientation, minus the origin's position as it
    is stored: the offset is subtracted after the rotation and is not itself
    rotated. *)
Theorem transformToGrid_rotate_then_subtract origin p :
  norm2 (orientation origin) = 1%R ->
  transformToGrid origin p = spec_transformToGrid origin p
  /\ p_x (transformToGrid origin p)
     = (p_x (rotate (conjugate (orientation origin)) p) - p_x (position origin))%R
  /\ p_y (transformToGrid origin p)
     = (p_y (rotate (conjugate (orientation origin)) p) - p_y (position origin))%R
  /\ p_z (transformToGrid origin p)
     = (p_z (rotate (conjugate (orientation origin)) p) - p_z (position origin))%R.
Proof.
  intros Hn.
  assert (H : transformToGrid origin p = spec_transformToGrid origin p).
  { unfold transformToGrid, spec_transformToGrid, vec3_sub.
    rewrite quat_transform_rotate by (rewrite norm2_conjugate; exact Hn).
    reflexivity. }
  rewrite H. repeat split.
Qed.

(** ** Grid compositor: [add] and the primitive counter *)

(** [add] by cases: the capacity error, a shadow polygon that is not
    returned or not defined, a rasterization that overflows, and the normal
    return. *)
Lemma add_unfold fuel primitive b :
  add fuel primitive b =
  let b0 := set_primitive_count
              (wrap MarkerCounterType (primitive_count_ b + 1)) b in
  if primitive_count_ b =? count_max then RuntimeError b0
  else
    match makeInvisibleArea fuel (makeOccupiedArea b primitive) with
    | OutOfFuel => Unfinished
    | UndefinedBehaviour => Undefined
    | Ok invisible_area =>
        if addPolygon_defined invisible_area b
           && addPolygon_defined (makeOccupiedArea b primitive) b
        then Normal (addPolygon OccupiedGrid (makeOccupiedArea b primitive)
                       (addPolygon InvisibleGrid invisible_area b0))
        else Undefined
    end.
Proof.
  cbv zeta. unfold add.
  destruct (primitive_count_ b =? count_max); [reflexivity|].
  change (makeOccupiedArea (set_primitive_count _ b) primitive)
    with (makeOccupiedArea b primitive).
  destruct (makeInvisibleArea fuel (makeOccupiedArea b primitive))
    as [inv| |]; try reflexivity.
  set (b0 := set_primitive_count
               (wrap MarkerCounterType (primitive_count_ b + 1)) b).
  rewrite <- (addPolygon_defined_same inv b0 b eq_refl eq_refl).
  destruct (addPolygon_run_cases InvisibleGrid inv b0)
    as [(Hd & t & Ht)|(Hd & Hu)]; rewrite Hd.
  - rewrite Ht. cbn [andb].
    destruct (addPolygon_scratch_length InvisibleGrid inv b0) as [L1 L2].
    rewrite <- (addPolygon_defined_same (makeOccupiedArea b primitive)
                  (addPolygon InvisibleGrid inv b0) b L1 L2).
    destruct (addPolygon_run_cases OccupiedGrid (makeOccupiedArea b primitive)
                (addPolygon InvisibleGrid inv b0))
      as [(Hd' & t' & Ht')|(Hd' & Hu')]; rewrite Hd'.
    + rewrite Ht'. reflexivity.
    + rewrite Hu'. reflexivity.
  - rewrite Hu. reflexivity.
Qed.

Lemma add_at_capacity fuel primitive b :
  primitive_count_ b = count_max ->
  add fuel primitive b
  = RuntimeError (set_primitive_count (int_min MarkerCounterType) b).
Proof.
  intros Hc. rewrite add_unfold. cbv zeta. rewrite Hc, Z.eqb_refl.
  unfold count_max. rewrite int_max_succ_wraps. reflexivity.
Qed.

Lemma add_below_capacity fuel primitive b b' :
  add fuel primitive b = Normal b' ->
  primitive_count_ b <> count_max
  /\ primitive_count_ b' = wrap MarkerCounterType (primitive_count_ b + 1).
Proof.
  rewrite add_unfold. cbv zeta.
  destruct (Z.eqb_spec (primitive_count_ b) count_max); [discriminate|].
  destruct (makeInvisibleArea fuel _); try discriminate.
  destruct (_ && _); try discriminate.
  intros H. injection H as <-. split; [assumption|].
  reflexivity.
Qed.

(** After [n] calls that return normally the counter has advanced by [n]
    and has not passed its maximum. *)
Lemma add_all_count fuel primitives : forall b b',
  in_range MarkerCounterType (primitive_count_ b) ->
  add_all fuel primitives b = Normal b' ->
  primitive_count_ b' = primitive_count_ b + Z.of_nat (length primitives)
  /\ primitive_count_ b' <= count_max.
Proof.
  induction primitives as [|p ps IH]; intros b b' Hr H.
  - injection H as <-. cbn. unfold in_range, count_max in *. lia.
  - cbn [add_all] in H. destruct (add fuel p b) as [b1| | |] eqn:E; try discriminate.
    apply add_below_capacity in E as [Hne Hc1].
    assert (Hlt : primitive_count_ b + 1 <= count_max)
      by (unfold in_range, count_max in *; lia).
    rewrite wrap_small in Hc1 by (unfold in_range, count_max in *; lia).
    destruct (IH b1 b') as [H1 H2]; try assumption.
    + rewrite Hc1. unfold in_range, count_max in *. lia.
    + split; [|exact H2]. rewrite H1, Hc1. cbn [length]. lia.
Qed.

(** In a cycle started by [reset] at most [count_max] calls return
    normally. *)
Lemma add_all_capacity_error fuel primitives origin b s :
  add_all fuel primitives (reset origin b) = Normal s ->
  Z.of_nat (length primitives) <= count_max.
Proof.
  intros H. apply add_all_count in H.
  - cbn [reset primitive_count_] in H. lia.
  - cbn [reset primitive_count_]. apply in_range_0.
Qed.

(** In a cycle started by [reset], once [count_max] calls have returned
    normally the next call, number [count_max + 1], raises the capacity
    error. *)
Lemma add_after_count_max_calls fuel primitives origin b s next :
  add_all fuel primitives (reset origin b) = Normal s ->
  Z.of_nat (length primitives) = count_max ->
  add fuel next s
  = RuntimeError (set_primitive_count (int_min MarkerCounterType) s).
Proof.
  intros H Hlen. apply add_at_capacity.
  apply add_all_count in H.
  - cbn [reset primitive_count_] in H. lia.
  - cbn [reset primitive_count_]. apply in_range_0.
Qed.

Lemma add_not_at_capacity fuel primitive b s :
  primitive_count_ b <> count_max -> add fuel primitive b <> RuntimeError s.
Proof.
  intros Hc. rewrite add_unfold. cbv zeta.
  destruct (Z.eqb_spec (primitive_count_ b) count_max); [contradiction|].
  destruct (makeInvisibleArea fuel _); try discriminate.
  destruct (_ && _); discriminate.
Qed.

(** C3 (behaviour of the code): the call issued with the counter at its
    maximum raises the capacity error and leaves the pose, both accumulators,
    the values and the scratch buffers as they were, yet it has already
    post-incremented the counter, which wraps around to the minimum of its
    type: the failing call does modify the builder, and the calls that follow
    it are no longer refused. *)
Theorem add_overflow_wraps_counter fuel primitive b :
  let full := set_primitive_count count_max b in
  exists b',
    add fuel primitive full = RuntimeError b'
    /\ origin_ b' = origin_ full
    /\ invisible_grid_ b' = invisible_grid_ full
    /\ occupied_grid_ b' = occupied_grid_ full
    /\ values_ b' = values_ full
    /\ primitive_count_ b' = int_min MarkerCounterType
    /\ primitive_count_ b' <> primitive_count_ full
    /\ b' <> full
    /\ forall fuel' next s, add fuel' next b' <> RuntimeError s.
Proof.
  intros full. exists (set_primitive_count (int_min MarkerCounterType) full).
  pose proof (int_min_lt_max MarkerCounterType) as Hlt.
  split; [apply add_at_capacity; reflexivity|].
  repeat split; cbn; unfold count_max; try lia.
  - intros H. apply (f_equal primitive_count_) in H. cbn in H.
    unfold count_max in H. lia.
  - intros fuel' next s. apply add_not_at_capacity. cbn. unfold count_max. lia.
Qed.

(** ** Visibility polygon: bearings *)

Lemma Rltb_true a b : Rltb a b = true <-> (a < b)%R.
Proof. unfold Rltb. destruct (Rlt_dec a b); split; auto; discriminate. Qed.

Lemma Rltb_false a b : Rltb a b = false <-> (b <= a)%R.
Proof.
  unfold Rltb. destruct (Rlt_dec a b); split; auto; try discriminate; lra.
Qed.

Lemma Rleb_true a b : Rleb a b = true <-> (a <= b)%R.
Proof. unfold Rleb. destruct (Rle_dec a b); split; auto; discriminate. Qed.

Lemma Rleb_false a b : Rleb a b = false <-> (b < a)%R.
Proof.
  unfold Rleb. destruct (Rle_dec a b); split; auto; try discriminate; lra.
Qed.

Lemma atan_pos t : (0 < t)%R -> (0 < atan t)%R.
Proof. intros H. rewrite <- atan_0. apply atan_increasing, H. Qed.

Lemma atan_neg t : (t < 0)%R -> (atan t < 0)%R.
Proof. intros H. rewrite <- atan_0. apply atan_increasing, H. Qed.

Lemma atan_nonpos t : (t <= 0)%R -> (atan t <= 0)%R.
Proof.
  intros [H | ->]; [left; apply atan_neg, H | rewrite atan_0; lra].
Qed.

Lemma div_neg_neg a b : (a < 0)%R -> (b < 0)%R -> (0 < a / b)%R.
Proof.
  intros Ha Hb. unfold Rdiv.
  replace (a * / b)%R with ((- a) * / (- b))%R.
  - apply Rmult_lt_0_compat; [lra | apply Rinv_0_lt_compat; lra].
  - rewrite Rinv_opp. ring.
Qed.

Lemma div_nonneg_neg a b : (0 <= a)%R -> (b < 0)%R -> (a / b <= 0)%R.
Proof.
  intros Ha Hb. unfold Rdiv.
  replace (a * / b)%R with (- (a * / (- b)))%R.
  - assert (0 < / - b)%R by (apply Rinv_0_lt_compat; lra).
    assert (0 <= a * / - b)%R by (apply Rmult_le_pos; lra). lra.
  - rewrite Rinv_opp. ring.
Qed.

Lemma div_pos_neg a b : (0 < a)%R -> (b < 0)%R -> (a / b < 0)%R.
Proof.
  intros Ha Hb. unfold Rdiv.
  replace (a * / b)%R with (- (a * / (- b)))%R.
  - assert (0 < / - b)%R by (apply Rinv_0_lt_compat; lra).
    assert (0 < a * / - b)%R by (apply Rmult_lt_0_compat; lra). lra.
  - rewrite Rinv_opp. ring.
Qed.

(** [atan2] by quadrant. *)
Lemma atan2_right y x : (0 < x)%R -> atan2 y x = atan (y / x).
Proof.
  intros H. unfold atan2. apply Rltb_true in H. rewrite H. reflexivity.
Qed.

Lemma atan2_upper_left y x :
  (x < 0)%R -> (0 <= y)%R -> atan2 y x = (atan (y / x) + PI)%R.
Proof.
  intros Hx Hy. unfold atan2.
  assert (H1 : Rltb 0 x = false) by (apply Rltb_false; lra).
  apply Rltb_true in Hx. apply Rleb_true in Hy. rewrite H1, Hx, Hy. reflexivity.
Qed.

Lemma atan2_lower_left y x :
  (x < 0)%R -> (y < 0)%R -> atan2 y x = (atan (y / x) - PI)%R.
Proof.
  intros Hx Hy. unfold atan2.
  assert (H1 : Rltb 0 x = false) by (apply Rltb_false; lra).
  apply Rltb_true in Hx. apply Rleb_false in Hy. rewrite H1, Hx, Hy. reflexivity.
Qed.

(** Bearings lie in the half-open interval [(-PI, PI]]. *)
Lemma atan2_range y x : (- PI < atan2 y x <= PI)%R.
Proof.
  pose proof PI_RGT_0 as Hpi.
  destruct (Rlt_dec 0 x) as [Hx|Hx].
  - rewrite atan2_right by exact Hx. pose proof (atan_bound (y / x)). lra.
  - destruct (Rlt_dec x 0) as [Hx'|Hx'].
    + destruct (Rle_dec 0 y) as [Hy|Hy].
      * rewrite atan2_upper_left by assumption.
        pose proof (atan_bound (y / x)).
        pose proof (atan_nonpos (y / x) (div_nonneg_neg y x Hy Hx')). lra.
      * rewrite atan2_lower_left by lra.
        pose proof (atan_bound (y / x)).
        pose proof (atan_pos (y / x) (div_neg_neg y x ltac:(lra) Hx')). lra.
    + unfold atan2.
      assert (H1 : Rltb 0 x = false) by (apply Rltb_false; lra).
      assert (H2 : Rltb x 0 = false) by (apply Rltb_false; lra).
      rewrite H1, H2.
      destruct (Rltb 0 y); [lra|]. destruct (Rltb y 0); lra.
Qed.

Lemma theta_range p : (- PI < theta p <= PI)%R.
Proof. apply atan2_range. Qed.

Lemma adjust_range t : (- PI < t <= PI)%R -> (0 <= adjust t < 2 * PI)%R.
Proof.
  intros H. unfold adjust. destruct (Rltb t 0) eqn:E.
  - apply Rltb_true in E. lra.
  - apply Rltb_false in E. pose proof PI_RGT_0. lra.
Qed.

Lemma corners_cases i :
  corners i = Point (- realw) (- realh) 0
  \/ corners i = Point realw (- realh) 0
  \/ corners i = Point realw realh 0
  \/ corners i = Point (- realw) realh 0.
Proof.
  unfold corners.
  repeat match goal with
         | |- context [match ?p with _ => _ end] => destruct p
         end; auto.
Qed.

Lemma theta_top_left :
  (0 < realw)%R -> (0 < realh)%R ->
  theta (corners 3) = (atan (realh / - realw) + PI)%R
  /\ (PI / 2 < theta (corners 3) < PI)%R.
Proof.
  intros Hw Hh. change (corners 3) with (Point (- realw) realh 0).
  unfold theta. cbn [p_x p_y].
  rewrite atan2_upper_left by lra. split; [reflexivity|].
  pose proof (atan_bound (realh / - realw)).
  pose proof (atan_neg (realh / - realw) (div_pos_neg realh (- realw) Hh ltac:(lra))).
  lra.
Qed.

(** The top-left corner has the largest bearing of the four corners. *)
Lemma theta_corners_le i :
  (0 < realw)%R -> (0 < realh)%R -> (theta (corners i) <= theta (corners 3))%R.
Proof.
  intros Hw Hh. destruct (theta_top_left Hw Hh) as [_ H3].
  pose proof PI_RGT_0 as Hpi.
  destruct (corners_cases i) as [E|[E|[E|E]]]; rewrite E.
  - set (t3 := theta (corners 3)) in *. unfold theta. cbn [p_x p_y].
    rewrite atan2_lower_left by lra.
    pose proof (atan_bound (- realh / - realw)). lra.
  - set (t3 := theta (corners 3)) in *. unfold theta. cbn [p_x p_y].
    rewrite atan2_right by lra. pose proof (atan_bound (- realh / realw)). lra.
  - set (t3 := theta (corners 3)) in *. unfold theta. cbn [p_x p_y].
    rewrite atan2_right by lra. pose proof (atan_bound (realh / realw)). lra.
  - change (corners 3) with (Point (- realw) realh 0). apply Rle_refl.
Qed.

(** ** Visibility polygon: selection of the extreme vertices *)

Lemma minmax_element_snoc lt p ps q :
  minmax_element lt p (ps ++ [q]) = minmax_step lt (minmax_element lt p ps) q.
Proof. unfold minmax_element. rewrite fold_left_app. reflexivity. Qed.

Lemma minmax_element_In lt p ps :
  In (fst (minmax_element lt p ps)) (p :: ps)
  /\ In (snd (minmax_element lt p ps)) (p :: ps).
Proof.
  induction ps as [|q ps IH] using rev_ind.
  - cbn. auto.
  - rewrite minmax_element_snoc. unfold minmax_step. cbn [fst snd].
    destruct IH as [H1 H2].
    assert (Hq : In q (p :: ps ++ [q])) by (right; apply in_or_app; cbn; auto).
    assert (Hin : forall v, In v (p :: ps) -> In v (p :: ps ++ [q])).
    { intros v [->|Hv]; [left; reflexivity | right; apply in_or_app; auto]. }
    split.
    + destruct (lt q (fst (minmax_element lt p ps))); auto.
    + destruct (lt q (snd (minmax_element lt p ps))); auto.
Qed.

(** With a comparison by a real-valued key, [minmax_element] returns a vertex
    of least key and a vertex of greatest key. *)
Lemma minmax_element_key (key : PointType -> R) p ps v :
  In v (p :: ps) ->
  let mm := minmax_element (fun a b => Rltb (key a) (key b)) p ps in
  (key (fst mm) <= key v <= key (snd mm))%R.
Proof.
  revert v. induction ps as [|q ps IH] using rev_ind; intros v Hv.
  - cbn in Hv. destruct Hv as [<-|[]]. cbn. lra.
  - rewrite minmax_element_snoc. unfold minmax_step. cbn [fst snd].
    set (mm := minmax_element (fun a b => Rltb (key a) (key b)) p ps) in *.
    assert (Hp : (key (fst mm) <= key (snd mm))%R).
    { specialize (IH p (or_introl eq_refl)). cbn in IH. lra. }
    assert (Hcase : In v (p :: ps) \/ v = q).
    { destruct Hv as [->|Hv]; [left; left; reflexivity|].
      apply in_app_or in Hv. destruct Hv as [Hv|[<-|[]]]; [left; right|]; auto. }
    destruct (Rltb (key q) (key (fst mm))) eqn:E1;
    destruct (Rltb (key q) (key (snd mm))) eqn:E2;
      try apply Rltb_true in E1; try apply Rltb_false in E1;
      try apply Rltb_true in E2; try apply Rltb_false in E2;
      (destruct Hcase as [Hc| ->]; [specialize (IH v Hc); cbn in IH|]); lra.
Qed.

Lemma select_minmax_In p ps :
  In (fst (select_minmax p ps)) (p :: ps)
  /\ In (snd (select_minmax p ps)) (p :: ps).
Proof.
  unfold select_minmax.
  destruct (Rltb PI _); apply minmax_element_In.
Qed.

(** ** Visibility polygon: the corner loops *)

(** The first loop compares the raw corner bearings, which never exceed the
    bearing of the top-left corner: beyond it the loop does not stop. *)
Lemma first_corner_diverges fuel : forall minang i,
  (forall j, (theta (corners j) < minang)%R) ->
  first_corner fuel minang i = None.
Proof.
  induction fuel as [|fuel IH]; intros minang i H; [reflexivity|].
  cbn [first_corner].
  assert (E : Rleb minang (theta (corners i)) = false)
    by (apply Rleb_false, H).
  rewrite E. apply IH, H.
Qed.

Lemma first_corner_terminates fuel minang :
  (minang <= theta (corners 3))%R -> (4 <= fuel)%nat ->
  exists i, first_corner fuel minang 0 = Some i /\ 0 <= i <= 3.
Proof.
  intros H Hfuel.
  destruct fuel as [|[|[|[|fuel]]]]; try lia.
  cbn [first_corner].
  destruct (Rleb minang (theta (corners 0))); [exists 0; split; [reflexivity|lia]|].
  change (wrap size_t (0 + 1)) with 1.
  destruct (Rleb minang (theta (corners 1))); [exists 1; split; [reflexivity|lia]|].
  change (wrap size_t (1 + 1)) with 2.
  destruct (Rleb minang (theta (corners 2))); [exists 2; split; [reflexivity|lia]|].
  change (wrap size_t (2 + 1)) with 3.
  apply Rleb_true in H. rewrite H. exists 3; split; [reflexivity|lia].
Qed.

(** The second loop adds a full turn for every four corners passed, so it
    stops at the latest at the ninth corner. *)
Lemma walk_corners_terminates k : forall fuel maxang i res,
  (maxang <= 3 * PI)%R ->
  0 <= i -> i + Z.of_nat k = 8 -> (k < fuel)%nat ->
  exists r, walk_corners fuel maxang i res = Some r.
Proof.
  induction k as [|k IH]; intros fuel maxang i res Hmax Hi Hk Hfuel;
    (destruct fuel as [|fuel]; [lia|]); cbn [walk_corners].
  - assert (i = 8) as -> by lia.
    change (8 / 4) with 2.
    pose proof (theta_range (corners 8)) as Hc.
    assert (E : Rleb maxang (theta (corners 8) + 2 * PI * 2) = true)
      by (apply Rleb_true; lra).
    rewrite E. eauto.
  - destruct (Rleb maxang (theta (corners i) + 2 * PI * IZR (i / 4))); [eauto|].
    rewrite wrap_size_small by (change (2 ^ 64) with 18446744073709551616; lia).
    apply IH; try assumption; lia.
Qed.

(** [makeInvisibleArea] returns once the fuel covers both loops, provided the
    minimum bearing does not lie beyond the top-left corner. *)
Lemma makeInvisibleArea_terminates fuel p ps :
  (theta (fst (select_minmax p ps)) <= theta (corners 3))%R ->
  (9 <= fuel)%nat ->
  exists res, makeInvisibleArea fuel (p :: ps) = Ok res.
Proof.
  intros Hmin Hfuel. unfold makeInvisibleArea.
  destruct (select_minmax p ps) as [minp maxp]. cbn [fst] in Hmin.
  destruct (first_corner_terminates fuel (theta minp) Hmin ltac:(lia))
    as (i & -> & Hi).
  pose proof (theta_range maxp) as Hmaxp. pose proof PI_RGT_0 as Hpi.
  set (maxang := if Rltb (theta maxp) (theta minp)
                 then (theta maxp + 2 * PI)%R else theta maxp).
  assert (Hmaxang : (maxang <= 3 * PI)%R)
    by (unfold maxang; destruct (Rltb (theta maxp) (theta minp)); lra).
  destruct (walk_corners_terminates (Z.to_nat (8 - i)) fuel maxang i
              [minp; projection minp i] Hmaxang) as ([j res] & ->); try lia.
  eauto.
Qed.

Lemma makeInvisibleArea_terminates_front fuel p ps :
  (0 < realw)%R -> (0 < realh)%R ->
  (forall v, In v (p :: ps) -> (0 < p_x v)%R) ->
  (9 <= fuel)%nat ->
  exists res, makeInvisibleArea fuel (p :: ps) = Ok res.
Proof.
  intros Hw Hh Hfront Hfuel. apply makeInvisibleArea_terminates; [|exact Hfuel].
  destruct (select_minmax_In p ps) as [Hin _].
  destruct (theta_top_left Hw Hh) as [_ H3].
  specialize (Hfront _ Hin). unfold theta at 1.
  rewrite atan2_right by exact Hfront.
  pose proof (atan_bound (p_y (fst (select_minmax p ps))
                          / p_x (fst (select_minmax p ps)))).
  lra.
Qed.

(** C5 (behaviour of the code): on a grid of positive extent, for a non-empty
    polygon all of whose vertices have a bearing beyond that of the top-left
    corner (an obstacle in the sector between that corner and the negative
    x axis), the first corner loop never stops: [makeInvisibleArea] returns
    for no amount of fuel. *)
Theorem makeInvisibleArea_diverges p ps :
  (0 < realw)%R -> (0 < realh)%R ->
  (forall v, In v (p :: ps) -> (theta (corners 3) < theta v)%R) ->
  forall fuel, makeInvisibleArea fuel (p :: ps) = OutOfFuel.
Proof.
  intros Hw Hh Hall fuel. unfold makeInvisibleArea.
  destruct (select_minmax_In p ps) as [Hin _].
  destruct (select_minmax p ps) as [minp maxp]. cbn [fst] in Hin.
  rewrite first_corner_diverges; [reflexivity|].
  intros j. pose proof (theta_corners_le j Hw Hh). specialize (Hall minp Hin). lra.
Qed.

Lemma add_unfinished fuel primitive b :
  primitive_count_ b <> count_max ->
  (forall fuel', makeInvisibleArea fuel' (makeOccupiedArea b primitive) = OutOfFuel) ->
  add fuel primitive b = Unfinished.
Proof.
  intros Hc H. rewrite add_unfold. cbv zeta.
  destruct (Z.eqb_spec (primitive_count_ b) count_max); [contradiction|].
  rewrite H. reflexivity.
Qed.

(** ** Visibility polygon: the re-selection across the cut at [PI] *)

Lemma makeInvisibleArea_ends fuel p ps res :
  makeInvisibleArea fuel (p :: ps) = Ok res ->
  exists middle,
    res = fst (select_minmax p ps) :: middle ++ [snd (select_minmax p ps)].
Proof.
  unfold makeInvisibleArea.
  destruct (select_minmax p ps) as [minp maxp]. cbn [fst snd].
  destruct (first_corner fuel (theta minp) 0) as [i|]; [|discriminate].
  set (maxang := if Rltb (theta maxp) (theta minp)
                 then (theta maxp + 2 * PI)%R else theta maxp).
  assert (Hwalk : forall fuel' i res0 j res1,
             walk_corners fuel' maxang i res0 = Some (j, res1) ->
             exists more, res1 = res0 ++ more).
  { induction fuel' as [|fuel' IH]; intros i0 res0 j res1; [discriminate|].
    cbn [walk_corners].
    destruct (Rleb maxang _).
    - intros H. injection H as _ <-. exists []. symmetry. apply app_nil_r.
    - intros H. apply IH in H as [more ->].
      exists (corners i0 :: more). rewrite <- app_assoc. reflexivity. }
  destruct (walk_corners fuel maxang i [minp; projection minp i])
    as [[j res1]|] eqn:E; [|discriminate].
  apply Hwalk in E as [more ->]. intros H. injection H as <-.
  exists (projection minp i :: more ++ [projection maxp j]).
  cbn. rewrite <- !app_assoc. reflexivity.
Qed.

(** If every remapped bearing is within a half turn of two given ones, which
    lie on either side of the cut, the representative of a bearing that falls
    into that window is its remapped value. *)
Lemma adjust_unique t (k : Z) :
  (- PI < t <= PI)%R ->
  (0 < t + 2 * PI * IZR k < 2 * PI)%R ->
  adjust t = (t + 2 * PI * IZR k)%R.
Proof.
  intros Ht Hs. pose proof PI_RGT_0 as Hpi.
  assert (Hk : k = 0 \/ k = 1).
  { assert (Hcases : k <= -1 \/ k = 0 \/ k = 1 \/ 2 <= k) by lia.
    destruct Hcases as [Hk|[Hk|[Hk|Hk]]]; auto; exfalso.
    - apply IZR_le in Hk.
      assert (2 * PI * IZR k <= 2 * PI * -1)%R
        by (apply Rmult_le_compat_l; lra).
      lra.
    - apply IZR_le in Hk.
      assert (2 * PI * 2 <= 2 * PI * IZR k)%R
        by (apply Rmult_le_compat_l; lra).
      lra. }
  unfold adjust. destruct Hk as [-> | ->].
  - assert (E : Rltb t 0 = false) by (apply Rltb_false; lra).
    rewrite E. lra.
  - assert (E : Rltb t 0 = true) by (apply Rltb_true; lra).
    rewrite E. lra.
Qed.

(** C4: whenever the naive span (largest minus smallest bearing) exceeds
    [PI], the vertex pair used by [makeInvisibleArea] is the one selected by
    [std::minmax_element] on the bearings remapped into [[0, 2 PI)]
    (negative bearings shifted by [2 PI]): its first and last output vertices
    are hull vertices of least and greatest remapped bearing, the wedge
    [[minang, maxang]] it sweeps has the width of the remapped span, and, if
    the hull lies within a quarter turn of some direction on either side
    (that is, strictly inside a half-plane through the sensor), that width is
    less than [PI]: the short way round. *)
Theorem select_minmax_remaps p ps :
  let naive := minmax_element theta_lt p ps in
  (PI < theta (snd naive) - theta (fst naive))%R ->
  let sel := select_minmax p ps in
  let minang := theta (fst sel) in
  let maxang :=
    if Rltb (theta (snd sel)) minang
    then (theta (snd sel) + 2 * PI)%R else theta (snd sel) in
  sel = minmax_element adjusted_lt p ps
  /\ In (fst sel) (p :: ps) /\ In (snd sel) (p :: ps)
  /\ (forall v, In v (p :: ps) ->
        (0 <= adjust (theta v) < 2 * PI)%R
        /\ (adjust (theta (fst sel)) <= adjust (theta v)
            <= adjust (theta (snd sel)))%R)
  /\ (maxang - minang = adjust (theta (snd sel)) - adjust (theta (fst sel)))%R
  /\ (forall fuel res,
        makeInvisibleArea fuel (p :: ps) = Ok res ->
        exists middle, res = fst sel :: middle ++ [snd sel])
  /\ ((exists c, forall v, In v (p :: ps) ->
          exists k : Z,
            (c - PI / 2 < theta v + 2 * PI * IZR k < c + PI / 2)%R) ->
      (0 <= maxang - minang < PI)%R).
Proof.
  intros naive Hspan sel minang maxang.
  pose proof PI_RGT_0 as Hpi.
  assert (Hsel : sel = minmax_element adjusted_lt p ps).
  { unfold sel, select_minmax. fold naive.
    apply Rltb_true in Hspan. rewrite Hspan. reflexivity. }
  assert (Hkey : forall v, In v (p :: ps) ->
            (adjust (theta (fst sel)) <= adjust (theta v)
             <= adjust (theta (snd sel)))%R).
  { intros v Hv. rewrite Hsel.
    apply (minmax_element_key (fun q => adjust (theta q)) p ps v Hv). }
  destruct (select_minmax_In p ps) as [Hin1 Hin2]. fold sel in Hin1, Hin2.
  assert (Hwidth :
    (maxang - minang = adjust (theta (snd sel)) - adjust (theta (fst sel)))%R).
  { pose proof (Hkey _ Hin1) as [_ Hord].
    pose proof (theta_range (fst sel)) as H1.
    pose proof (theta_range (snd sel)) as H2.
    unfold maxang, minang, adjust in *.
    destruct (Rltb (theta (fst sel)) 0) eqn:E1;
    destruct (Rltb (theta (snd sel)) 0) eqn:E2;
    destruct (Rltb (theta (snd sel)) (theta (fst sel))) eqn:E3;
      try apply Rltb_true in E1; try apply Rltb_false in E1;
      try apply Rltb_true in E2; try apply Rltb_false in E2;
      try apply Rltb_true in E3; try apply Rltb_false in E3; lra. }
  repeat split; try assumption.
  - apply adjust_range, theta_range.
  - apply adjust_range, theta_range.
  - apply Hkey, H.
  - apply Hkey, H.
  - intros fuel res. apply makeInvisibleArea_ends.
  - rewrite Hwidth. pose proof (Hkey _ Hin1). lra.
  - rewrite Hwidth. destruct H as [c Hc].
    (* the naive extremes lie on either side of the cut *)
    destruct (minmax_element_In theta_lt p ps) as [Hu Hv]. fold naive in Hu, Hv.
    set (u := fst naive) in *. set (v := snd naive) in *.
    pose proof (theta_range u) as Hru. pose proof (theta_range v) as Hrv.
    destruct (Hc u Hu) as [ku Hku]. destruct (Hc v Hv) as [kv Hkv].
    assert (Hkuv : ku = kv + 1).
    { assert (Hcases : ku <= kv \/ ku = kv + 1 \/ kv + 2 <= ku) by lia.
      destruct Hcases as [Hk|[Hk|Hk]]; auto; exfalso.
      - apply IZR_le in Hk.
        assert (2 * PI * IZR ku <= 2 * PI * IZR kv)%R
          by (apply Rmult_le_compat_l; lra).
        lra.
      - apply IZR_le in Hk. rewrite plus_IZR in Hk.
        assert (2 * PI * (IZR kv + 2) <= 2 * PI * IZR ku)%R
          by (apply Rmult_le_compat_l; lra).
        lra. }
    (* every vertex, shifted by the common number of turns, falls in (0, 2 PI) *)
    assert (Hrep : forall a, In a (p :: ps) ->
              exists ka : Z,
                adjust (theta a) = (theta a + 2 * PI * IZR (ka - kv))%R
                /\ (c - PI / 2 < theta a + 2 * PI * IZR ka < c + PI / 2)%R).
    { intros a Ha. destruct (Hc a Ha) as [ka Hka]. exists ka. split; [|exact Hka].
      apply adjust_unique; [apply theta_range|].
      rewrite minus_IZR. subst ku. rewrite plus_IZR in Hku.
      pose proof (theta_range a). lra. }
    destruct (Hrep _ Hin1) as (k1 & E1 & B1).
    destruct (Hrep _ Hin2) as (k2 & E2 & B2).
    rewrite E1, E2, !minus_IZR. pose proof (Hkey _ Hin1). lra.
Qed.

(** ** Grid compositor: the order of the [add] calls *)

Lemma vec_get_vec_add g i d k :
  vec_get (vec_add g i d) k =
  if (k =? i) && (0 <=? i) && (i <? Z.of_nat (length g))
  then wrap MarkerCounterType (vec_get g i + d)
  else vec_get g k.
Proof. unfold vec_add. apply vec_get_vec_set. Qed.

Lemma vec_add_comm g i a j b :
  vec_add (vec_add g i a) j b = vec_add (vec_add g j b) i a.
Proof.
  apply vec_ext.
  - rewrite !length_vec_add. reflexivity.
  - intros k _. rewrite !vec_get_vec_add, !length_vec_add.
    destruct (Z.eqb_spec i j) as [->|Hij].
    + rewrite Z.eqb_refl.
      destruct ((k =? j) && (0 <=? j) && (j <? Z.of_nat (length g))) eqn:E;
        [|reflexivity].
      apply andb_prop in E as [E Hlt]. apply andb_prop in E as [_ Hle].
      rewrite Hle, Hlt. cbn [andb].
      rewrite !wrap_add_l. f_equal. lia.
    + destruct (Z.eqb_spec j i) as [Hji|_]; [congruence|]. cbn [andb].
      destruct (Z.eqb_spec k j) as [Hkj|Hkj], (Z.eqb_spec k i) as [Hki|Hki];
        try congruence; cbn [andb]; reflexivity.
Qed.

Lemma apply_write_comm g w1 w2 :
  apply_write (apply_write g w1) w2 = apply_write (apply_write g w2) w1.
Proof. unfold apply_write. apply vec_add_comm. Qed.

Lemma fold_left_push {A B : Type} (f : A -> B -> A) :
  (forall a x y, f (f a x) y = f (f a y) x) ->
  forall l a x, fold_left f l (f a x) = f (fold_left f l a) x.
Proof.
  intros Hcomm. induction l as [|y l IH]; intros a x; [reflexivity|].
  cbn [fold_left]. rewrite Hcomm. apply IH.
Qed.

Lemma fold_left_swap {A B : Type} (f : A -> B -> A) :
  (forall a x y, f (f a x) y = f (f a y) x) ->
  forall l1 l2 a,
    fold_left f l1 (fold_left f l2 a) = fold_left f l2 (fold_left f l1 a).
Proof.
  intros Hcomm. induction l1 as [|x l1 IH]; intros l2 a; [reflexivity|].
  cbn [fold_left]. rewrite <- IH. f_equal.
  symmetry. apply fold_left_push, Hcomm.
Qed.

Lemma same_accumulation_refl b : same_accumulation b b.
Proof. repeat split. Qed.

Lemma same_accumulation_sym b1 b2 :
  same_accumulation b1 b2 -> same_accumulation b2 b1.
Proof. unfold same_accumulation. intuition congruence. Qed.

Lemma same_accumulation_trans b1 b2 b3 :
  same_accumulation b1 b2 -> same_accumulation b2 b3 -> same_accumulation b1 b3.
Proof. unfold same_accumulation. intuition congruence. Qed.

(** What one rasterization pair of [add] does to the builder. *)
Lemma add_polygons_effect invisible_area occupied_area b :
  let b' := addPolygon OccupiedGrid occupied_area
              (addPolygon InvisibleGrid invisible_area b) in
  origin_ b' = origin_ b
  /\ primitive_count_ b' = primitive_count_ b
  /\ invisible_grid_ b'
     = fold_left apply_write (addPolygon_writes invisible_area b)
         (invisible_grid_ b)
  /\ occupied_grid_ b'
     = fold_left apply_write (addPolygon_writes occupied_area b)
         (occupied_grid_ b)
  /\ values_ b' = values_ b
  /\ length (mincols_ b') = length (mincols_ b)
  /\ length (maxcols_ b') = length (maxcols_ b).
Proof.
  intros b'. subst b'.
  set (b1 := addPolygon InvisibleGrid invisible_area b).
  destruct (addPolygon_frame InvisibleGrid invisible_area b)
    as (Ho1 & Hc1 & Hv1 & Hocc1).
  destruct (addPolygon_frame OccupiedGrid occupied_area b1)
    as (Ho2 & Hc2 & Hv2 & Hinv2).
  destruct (addPolygon_scratch_length InvisibleGrid invisible_area b) as [L1 L2].
  destruct (addPolygon_scratch_length OccupiedGrid occupied_area b1) as [L3 L4].
  fold b1 in Ho1, Hc1, Hv1, Hocc1, L1, L2.
  pose proof (addPolygon_grid InvisibleGrid invisible_area b) as Hg1.
  pose proof (addPolygon_grid OccupiedGrid occupied_area b1) as Hg2.
  cbn [get_grid] in Hg1, Hg2. fold b1 in Hg1.
  rewrite (addPolygon_writes_same occupied_area b1 b L1 L2) in Hg2.
  repeat split; try congruence.
Qed.

Lemma add_normal_inv fuel primitive b s :
  add fuel primitive b = Normal s ->
  exists invisible_area,
    makeInvisibleArea fuel (makeOccupiedArea b primitive) = Ok invisible_area
    /\ primitive_count_ b <> count_max
    /\ s = addPolygon OccupiedGrid (makeOccupiedArea b primitive)
             (addPolygon InvisibleGrid invisible_area
                (set_primitive_count
                   (wrap MarkerCounterType (primitive_count_ b + 1)) b)).
Proof.
  rewrite add_unfold. cbv zeta.
  destruct (Z.eqb_spec (primitive_count_ b) count_max); [discriminate|].
  destruct (makeInvisibleArea fuel (makeOccupiedArea b primitive)) as [inv| |];
    try discriminate.
  destruct (_ && _); try discriminate.
  intros H. injection H as <-. exists inv. auto.
Qed.

(** A call that returns has rasterized both polygons without overflow. *)
Lemma add_normal_defined fuel primitive b s invisible_area :
  add fuel primitive b = Normal s ->
  makeInvisibleArea fuel (makeOccupiedArea b primitive) = Ok invisible_area ->
  addPolygon_defined invisible_area b = true
  /\ addPolygon_defined (makeOccupiedArea b primitive) b = true.
Proof.
  rewrite add_unfold. cbv zeta. intros H Hinv. rewrite Hinv in H.
  destruct (Z.eqb_spec (primitive_count_ b) count_max); [discriminate|].
  destruct (addPolygon_defined invisible_area b); [|discriminate].
  destruct (addPolygon_defined (makeOccupiedArea b primitive) b);
    [auto | discriminate].
Qed.

Lemma add_normal_intro fuel primitive b invisible_area :
  makeInvisibleArea fuel (makeOccupiedArea b primitive) = Ok invisible_area ->
  primitive_count_ b <> count_max ->
  addPolygon_defined invisible_area b = true ->
  addPolygon_defined (makeOccupiedArea b primitive) b = true ->
  add fuel primitive b
  = Normal (addPolygon OccupiedGrid (makeOccupiedArea b primitive)
              (addPolygon InvisibleGrid invisible_area
                 (set_primitive_count
                    (wrap MarkerCounterType (primitive_count_ b + 1)) b))).
Proof.
  intros Hinv Hc Hd1 Hd2. rewrite add_unfold. cbv zeta.
  destruct (Z.eqb_spec (primitive_count_ b) count_max); [contradiction|].
  rewrite Hinv, Hd1, Hd2. reflexivity.
Qed.

Lemma makeOccupiedArea_same b1 b2 primitive :
  origin_ b1 = origin_ b2 ->
  makeOccupiedArea b1 primitive = makeOccupiedArea b2 primitive.
Proof. unfold makeOccupiedArea. intros ->. reflexivity. Qed.

(** The effect of a normally returning [add] on everything but the contents
    of the scratch buffers. *)
Lemma add_effect fuel primitive b s :
  add fuel primitive b = Normal s ->
  exists invisible_area,
    makeInvisibleArea fuel (makeOccupiedArea b primitive) = Ok invisible_area
    /\ primitive_count_ b <> count_max
    /\ origin_ s = origin_ b
    /\ primitive_count_ s = wrap MarkerCounterType (primitive_count_ b + 1)
    /\ invisible_grid_ s
       = fold_left apply_write (addPolygon_writes invisible_area b)
           (invisible_grid_ b)
    /\ occupied_grid_ s
       = fold_left apply_write
           (addPolygon_writes (makeOccupiedArea b primitive) b)
           (occupied_grid_ b)
    /\ values_ s = values_ b
    /\ length (mincols_ s) = length (mincols_ b)
    /\ length (maxcols_ s) = length (maxcols_ b).
Proof.
  intros H. apply add_normal_inv in H as (inv & Hinv & Hc & ->).
  exists inv.
  set (b0 := set_primitive_count
               (wrap MarkerCounterType (primitive_count_ b + 1)) b).
  destruct (add_polygons_effect inv (makeOccupiedArea b primitive) b0)
    as (H1 & H2 & H3 & H4 & H5 & H6 & H7).
  rewrite (addPolygon_writes_same inv b0 b eq_refl eq_refl) in H3.
  rewrite (addPolygon_writes_same (makeOccupiedArea b primitive) b0 b
             eq_refl eq_refl) in H4.
  repeat split; assumption.
Qed.

Lemma add_same_accumulation fuel primitive b1 b2 s1 :
  same_accumulation b1 b2 ->
  add fuel primitive b1 = Normal s1 ->
  exists s2, add fuel primitive b2 = Normal s2 /\ same_accumulation s1 s2.
Proof.
  intros (Ho & Hc & Hi & Hocc & Hv & Hl1 & Hl2) H.
  pose proof H as H'.
  apply add_effect in H as (inv & Hinv & Hne & E1 & E2 & E3 & E4 & E5 & E6 & E7).
  destruct (add_normal_defined fuel primitive b1 s1 inv H' Hinv) as [D1 D2].
  rewrite (addPolygon_defined_same _ b1 b2 Hl1 Hl2) in D1.
  rewrite (addPolygon_defined_same _ b1 b2 Hl1 Hl2) in D2.
  rewrite (makeOccupiedArea_same b1 b2 primitive Ho) in Hinv, E4, D2.
  rewrite Hc in Hne.
  eexists. split; [apply (add_normal_intro fuel primitive b2 inv Hinv Hne D1 D2)|].
  pose proof (add_normal_intro fuel primitive b2 inv Hinv Hne D1 D2) as H2.
  apply add_effect in H2
    as (inv' & Hinv' & _ & F1 & F2 & F3 & F4 & F5 & F6 & F7).
  rewrite Hinv in Hinv'. injection Hinv' as <-.
  rewrite (addPolygon_writes_same inv b1 b2 Hl1 Hl2) in E3.
  rewrite (addPolygon_writes_same _ b1 b2 Hl1 Hl2) in E4.
  unfold same_accumulation. repeat split; congruence.
Qed.

Lemma add_all_same_accumulation fuel primitives : forall b1 b2 s1,
  same_accumulation b1 b2 ->
  add_all fuel primitives b1 = Normal s1 ->
  exists s2, add_all fuel primitives b2 = Normal s2 /\ same_accumulation s1 s2.
Proof.
  induction primitives as [|p ps IH]; intros b1 b2 s1 Hsame H.
  - injection H as <-. exists b2. split; [reflexivity | assumption].
  - cbn [add_all] in *.
    destruct (add fuel p b1) as [b1'| | |] eqn:E; try discriminate.
    destruct (add_same_accumulation fuel p b1 b2 b1' Hsame E) as (b2' & -> & Hs).
    apply (IH b1' b2' s1 Hs H).
Qed.

(** Two consecutive [add] calls can be exchanged. *)
Lemma add_swap fuel x y b b1 b2 :
  add fuel y b = Normal b1 -> add fuel x b1 = Normal b2 ->
  exists b1' b2',
    add fuel x b = Normal b1' /\ add fuel y b1' = Normal b2'
    /\ same_accumulation b2 b2'.
Proof.
  intros Hy Hx.
  pose proof Hy as Hy0. pose proof Hx as Hx0.
  apply add_effect in Hy
    as (invy & Hinvy & Hney & Y1 & Y2 & Y3 & Y4 & Y5 & Y6 & Y7).
  apply add_effect in Hx
    as (invx & Hinvx & Hnex & X1 & X2 & X3 & X4 & X5 & X6 & X7).
  destruct (add_normal_defined fuel y b b1 invy Hy0 Hinvy) as [Dy1 Dy2].
  destruct (add_normal_defined fuel x b1 b2 invx Hx0 Hinvx) as [Dx1 Dx2].
  rewrite (addPolygon_defined_same _ b1 b Y6 Y7) in Dx1.
  rewrite (addPolygon_defined_same _ b1 b Y6 Y7) in Dx2.
  rewrite (makeOccupiedArea_same b1 b x Y1) in Hinvx, X4, Dx2.
  rewrite (addPolygon_writes_same invx b1 b Y6 Y7) in X3.
  rewrite (addPolygon_writes_same _ b1 b Y6 Y7) in X4.
  pose proof (add_normal_intro fuel x b invx Hinvx Hney Dx1 Dx2) as Hx'.
  match type of Hx' with _ = Normal ?t => remember t as b1' eqn:Eb1' end.
  clear Eb1'.
  destruct (add_effect fuel x b b1' Hx')
    as (invx' & Hinvx' & _ & P1 & P2 & P3 & P4 & P5 & P6 & P7).
  rewrite Hinvx in Hinvx'. injection Hinvx' as <-.
  assert (Hinvy' : makeInvisibleArea fuel (makeOccupiedArea b1' y) = Ok invy)
    by (rewrite (makeOccupiedArea_same b1' b y P1); exact Hinvy).
  assert (Hney' : primitive_count_ b1' <> count_max) by congruence.
  assert (Dy1' : addPolygon_defined invy b1' = true)
    by (rewrite (addPolygon_defined_same invy b1' b P6 P7); exact Dy1).
  assert (Dy2' : addPolygon_defined (makeOccupiedArea b1' y) b1' = true).
  { rewrite (makeOccupiedArea_same b1' b y P1).
    rewrite (addPolygon_defined_same _ b1' b P6 P7). exact Dy2. }
  pose proof (add_normal_intro fuel y b1' invy Hinvy' Hney' Dy1' Dy2') as Hy'.
  match type of Hy' with _ = Normal ?t => remember t as b2' eqn:Eb2' end.
  clear Eb2'.
  exists b1', b2'. split; [exact Hx'|]. split; [exact Hy'|].
  destruct (add_effect fuel y b1' b2' Hy')
    as (invy' & Hinvy'' & _ & Q1 & Q2 & Q3 & Q4 & Q5 & Q6 & Q7).
  rewrite Hinvy' in Hinvy''. injection Hinvy'' as <-.
  rewrite (makeOccupiedArea_same b1' b y P1) in Q4.
  rewrite (addPolygon_writes_same invy b1' b P6 P7) in Q3.
  rewrite (addPolygon_writes_same _ b1' b P6 P7) in Q4.
  unfold same_accumulation. repeat split; try congruence.
  - rewrite X3, Y3, Q3, P3. apply fold_left_swap, apply_write_comm.
  - rewrite X4, Y4, Q4, P4. apply fold_left_swap, apply_write_comm.
Qed.

Lemma add_all_permutation fuel l l' :
  Permutation l l' ->
  forall b s,
    add_all fuel l b = Normal s ->
    exists s', add_all fuel l' b = Normal s' /\ same_accumulation s s'.
Proof.
  induction 1 as [|x l l' Hperm IH|x y l|l l' l'' H1 IH1 H2 IH2]; intros b s H.
  - exists s. split; [assumption | apply same_accumulation_refl].
  - cbn [add_all] in *.
    destruct (add fuel x b) as [b1| | |]; try discriminate.
    apply IH, H.
  - cbn [add_all] in *.
    destruct (add fuel y b) as [b1| | |] eqn:Ey; try discriminate.
    destruct (add fuel x b1) as [b2| | |] eqn:Ex; try discriminate.
    destruct (add_swap fuel x y b b1 b2 Ey Ex) as (b1' & b2' & -> & -> & Hsame).
    apply (add_all_same_accumulation fuel l b2 b2' s Hsame H).
  - destruct (IH1 b s H) as (s' & H' & Hs').
    destruct (IH2 b s' H') as (s'' & H'' & Hs'').
    exists s''. split; [assumption|].
    eapply same_accumulation_trans; eassumption.
Qed.

Lemma build_same_accumulation b1 b2 :
  same_accumulation b1 b2 -> get (build b1) = get (build b2).
Proof.
  intros (_ & _ & Hi & Ho & Hv & _). unfold get, build. cbn [values_].
  rewrite Hi, Ho, Hv. reflexivity.
Qed.

(** C8: if a sequence of [add] calls, issued on some builder (in particular
    right after [reset origin]), returns normally throughout, hence without
    overflowing the counter, then so does every permutation of the sequence,
    it leaves the same counter and the same two accumulator arrays, and the
    values array after [build] is identical. *)
Theorem add_order_irrelevant fuel (l l' : list PrimitiveType) b s :
  Permutation l l' ->
  add_all fuel l b = Normal s ->
  exists s',
    add_all fuel l' b = Normal s'
    /\ primitive_count_ s' = primitive_count_ s
    /\ invisible_grid_ s' = invisible_grid_ s
    /\ occupied_grid_ s' = occupied_grid_ s
    /\ get (build s') = get (build s).
Proof.
  intros Hperm H.
  destruct (add_all_permutation fuel l l' Hperm b s H) as (s' & H' & Hsame).
  exists s'. split; [assumption|].
  pose proof (build_same_accumulation s s' Hsame) as Hb.
  destruct Hsame as (_ & Hc & Hi & Ho & _).
  repeat split; congruence.
Qed.

(** ** Lifecycle: the data invariant *)

Lemma marker_values_zeros n : marker_values (repeat 0 n).
Proof.
  apply marker_values_Forall, Forall_forall. intros c Hc.
  apply repeat_spec in Hc. subst c. apply in_range_0.
Qed.

Lemma fold_apply_write_length ws : forall g,
  length (fold_left apply_write ws g) = length g.
Proof.
  induction ws as [|w ws IH]; intros g; [reflexivity|].
  cbn [fold_left]. rewrite IH. apply length_vec_add.
Qed.

Lemma fold_apply_write_values ws : forall g,
  marker_values g -> marker_values (fold_left apply_write ws g).
Proof.
  induction ws as [|w ws IH]; intros g Hg; [exact Hg|].
  cbn [fold_left]. apply IH, marker_values_vec_add, Hg.
Qed.



Lemma addPolygon_invariant sel convex_hull b :
  builder_invariant b -> builder_invariant (addPolygon sel convex_hull b).
Proof.
  intros ((Hi & Ho & Hv & Hmin & Hmax) & Hmi & Hmo).
  pose proof (addPolygon_grid sel convex_hull b) as Hg.
  destruct (addPolygon_frame sel convex_hull b) as (_ & _ & Hvals & Hother).
  destruct (addPolygon_scratch_length sel convex_hull b) as [L1 L2].
  unfold builder_invariant, wf_builder.
  rewrite L1, L2, Hvals.
  destruct sel; cbn [get_grid] in Hg; rewrite Hg, Hother;
    rewrite ?fold_apply_write_length;
    (split; [tauto|]); split;
    try assumption; apply fold_apply_write_values; assumption.
Qed.


(** X2: a builder made by the constructor, for sizes whose product is a
    [size_t] value, satisfies the data invariant, and all its cells are 0. *)
Theorem construct_invariant origin0 count0 :
  wf_sizes ->
  builder_invariant (construct origin0 count0)
  /\ Forall (fun c => c = 0) (invisible_grid_ (construct origin0 count0))
  /\ Forall (fun c => c = 0) (occupied_grid_ (construct origin0 count0))
  /\ Forall (fun c => c = 0) (get (construct origin0 count0)).
Proof.
  intros (Hh & Hw & Hsz). change (int_max size_t) with (2 ^ 64 - 1) in Hsz.
  assert (Hcells : wrap size_t (height * width) = height * width)
    by (apply wrap_size_small; nia).
  assert (Hall : forall n, Forall (fun c => c = 0) (repeat 0 n)).
  { intros n. apply Forall_forall. intros c Hc. eapply repeat_spec, Hc. }
  unfold builder_invariant, wf_builder, construct, get.
  cbn [invisible_grid_ occupied_grid_ values_ mincols_ maxcols_].
  rewrite !repeat_length, Hcells.
  split; [split; [repeat split | split; apply marker_values_zeros]|].
  split; [apply Hall | split; apply Hall].
Qed.

(** ** Lifecycle: what [get] shows *)

Lemma coverage_zero g i :
  (forall k, vec_get g k = 0) -> coverage g i = 0.
Proof.
  intros Hz. unfold coverage.
  assert (Hp : forall base n, psum g base n = 0).
  { intros base n. induction n as [|n IH]; cbn [psum]; rewrite ?IH, Hz; reflexivity. }
  rewrite Hp. apply wrap_small, in_range_0.
Qed.

Lemma build_values_cells b :
  wf_geometry -> wf_builder b ->
  marker_values (occupied_grid_ b) -> marker_values (invisible_grid_ b) ->
  forall i, 0 <= i < height * width ->
    vec_get (get (build b)) i
    = cell_cost (coverage (occupied_grid_ b) i) (coverage (invisible_grid_ b) i).
Proof.
  intros Hgeo (Hinv & Hocc & Hvals & _) Hmo Hmi i Hi.
  pose proof (wf_geometry_size Hgeo) as Hsz.
  destruct (prefix_sums_cells (occupied_grid_ b) Hgeo Hocc Hmo) as [_ Hco].
  destruct (prefix_sums_cells (invisible_grid_ b) Hgeo Hinv Hmi) as [_ Hci].
  unfold get, build. cbn [values_].
  rewrite wrap_size_small by lia.
  destruct (compose_cells (prefix_sums (occupied_grid_ b))
              (prefix_sums (invisible_grid_ b))
              (Z.to_nat (height * width)) (values_ b)) as [_ Hget].
  rewrite Hget, Hvals.
  destruct (Z.leb_spec 0 i), (Z.ltb_spec i (Z.of_nat (Z.to_nat (height * width))));
    try lia.
  cbn [andb]. rewrite Hco, Hci by lia. reflexivity.
Qed.

(** X3: [reset] followed by [build], with no [add] in between, yields the
    all-free grid: every cell of the array [get] returns is 0, whatever the
    builder held before. *)
Theorem reset_build_all_free origin b :
  wf_geometry -> wf_builder b ->
  forall i, 0 <= i < height * width ->
    vec_get (get (build (reset origin b))) i = 0.
Proof.
  intros Hgeo Hwf i Hi.
  assert (Hz : forall v k, vec_get (vec_assign v 0) k = 0).
  { intros v k. unfold vec_get, vec_assign. destruct (k <? 0); [reflexivity|].
    destruct (Nat.lt_ge_cases (Z.to_nat k) (length v)).
    - apply nth_repeat_lt. assumption.
    - apply nth_overflow. rewrite repeat_length. assumption. }
  rewrite build_values_cells; try assumption.
  - cbn [reset occupied_grid_ invisible_grid_].
    rewrite !coverage_zero by apply Hz. reflexivity.
  - destruct Hwf as (H1 & H2 & H3 & H4 & H5).
    unfold wf_builder, reset.
    cbn [invisible_grid_ occupied_grid_ values_ mincols_ maxcols_].
    rewrite !length_vec_assign. auto.
  - cbn [reset occupied_grid_]. intros k. rewrite Hz. apply in_range_0.
  - cbn [reset invisible_grid_]. intros k. rewrite Hz. apply in_range_0.
Qed.

Lemma add_all_values fuel primitives : forall b s,
  add_all fuel primitives b = Normal s ->
  values_ s = values_ b /\ origin_ s = origin_ b.
Proof.
  induction primitives as [|p ps IH]; intros b s H.
  - injection H as <-. auto.
  - cbn [add_all] in H. destruct (add fuel p b) as [b1| | |] eqn:E; try discriminate.
    apply add_effect in E as (_ & _ & _ & E1 & _ & _ & _ & E5 & _).
    destruct (IH b1 s H) as [H1 H2]. split; congruence.
Qed.

(** X4: the array [get] returns is written by [build] only: after [reset]
    and any sequence of [add] calls that return, [get] still shows the values
    of the previous cycle. *)
Theorem get_stale_until_build fuel primitives origin b s :
  add_all fuel primitives (reset origin b) = Normal s ->
  get s = get b /\ origin_ s = origin.
Proof.
  intros H. apply add_all_values in H as [H1 H2].
  unfold get. rewrite H1, H2. split; reflexivity.
Qed.

(** X5: [build] works in place: afterwards each accumulator holds, cell by
    cell, its own coverage counts (the row-wise running sums), while the
    pose, the counter and the scratch buffers are as before; a second [build]
    would sum the sums. *)
Theorem build_overwrites_accumulators b :
  wf_geometry -> builder_invariant b ->
  (forall i, 0 <= i < height * width ->
     vec_get (occupied_grid_ (build b)) i = coverage (occupied_grid_ b) i
     /\ vec_get (invisible_grid_ (build b)) i = coverage (invisible_grid_ b) i)
  /\ origin_ (build b) = origin_ b
  /\ primitive_count_ (build b) = primitive_count_ b
  /\ mincols_ (build b) = mincols_ b
  /\ maxcols_ (build b) = maxcols_ b.
Proof.
  intros Hgeo ((Hinv & Hocc & _) & Hmi & Hmo).
  destruct (prefix_sums_cells (occupied_grid_ b) Hgeo Hocc Hmo) as [_ Hco].
  destruct (prefix_sums_cells (invisible_grid_ b) Hgeo Hinv Hmi) as [_ Hci].
  unfold build. cbn. repeat split; auto.
Qed.

(** X6: in a cycle started by [reset], after [n] calls of [add] that all
    returned the counter is [n], and [n] is at most the maximum of the
    counter's type: no more than [count_max] primitives are accepted. *)
Theorem add_all_counts_primitives fuel primitives origin b s :
  add_all fuel primitives (reset origin b) = Normal s ->
  primitive_count_ s = Z.of_nat (length primitives)
  /\ Z.of_nat (length primitives) <= count_max.
Proof.
  intros H. apply add_all_count in H.
  - cbn [reset primitive_count_] in H. lia.
  - cbn [reset primitive_count_]. apply in_range_0.
Qed.

(** ** Rasterizer: the coverage a polygon adds *)

Lemma delta_at_cons w ws k :
  delta_at (w :: ws) k = (if fst w =? k then snd w else 0) + delta_at ws k.
Proof.
  unfold delta_at. cbn [filter]. destruct (fst w =? k); reflexivity.
Qed.

Lemma delta_in_cons w ws lo hi :
  delta_in (w :: ws) lo hi
  = (if (lo <=? fst w) && (fst w <=? hi) then snd w else 0) + delta_in ws lo hi.
Proof.
  unfold delta_in. cbn [filter].
  destruct ((lo <=? fst w) && (fst w <=? hi)); reflexivity.
Qed.

Lemma delta_in_app ws1 ws2 lo hi :
  delta_in (ws1 ++ ws2) lo hi = delta_in ws1 lo hi + delta_in ws2 lo hi.
Proof.
  induction ws1 as [|w ws1 IH]; [reflexivity|].
  cbn [app]. rewrite !delta_in_cons, IH. lia.
Qed.

Lemma delta_in_single ws k : delta_in ws k k = delta_at ws k.
Proof.
  induction ws as [|w ws IH]; [reflexivity|].
  rewrite delta_in_cons, delta_at_cons, IH. f_equal.
  destruct (Z.leb_spec k (fst w)), (Z.leb_spec (fst w) k), (Z.eqb_spec (fst w) k);
    cbn [andb]; try lia; reflexivity.
Qed.

Lemma delta_in_extend ws lo hi :
  lo <= hi + 1 ->
  delta_in ws lo (hi + 1) = delta_in ws lo hi + delta_at ws (hi + 1).
Proof.
  intros Hlo. induction ws as [|w ws IH]; [reflexivity|].
  rewrite !delta_in_cons, delta_at_cons, IH.
  destruct (Z.leb_spec lo (fst w)), (Z.leb_spec (fst w) (hi + 1)),
           (Z.leb_spec (fst w) hi), (Z.eqb_spec (fst w) (hi + 1));
    cbn [andb]; lia.
Qed.

Lemma delta_in_outside ws lo hi :
  (forall w, In w ws -> ~ (lo <= fst w <= hi)) -> delta_in ws lo hi = 0.
Proof.
  induction ws as [|w ws IH]; intros H; [reflexivity|].
  rewrite delta_in_cons, IH by (intros; apply H; right; assumption).
  destruct (Z.leb_spec lo (fst w)), (Z.leb_spec (fst w) hi); cbn [andb];
    try reflexivity.
  exfalso. apply (H w); [left; reflexivity | lia].
Qed.

(** The difference array after a list of in-bounds writes. *)
Lemma apply_writes_get ws : forall g k,
  marker_values g ->
  (forall w, In w ws -> 0 <= fst w < Z.of_nat (length g)) ->
  vec_get (fold_left apply_write ws g) k
  = wrap MarkerCounterType (vec_get g k + delta_at ws k).
Proof.
  induction ws as [|[i d] ws IH]; intros g k Hg Hb.
  - cbn. rewrite Z.add_0_r. symmetry. apply wrap_small, Hg.
  - cbn [fold_left]. rewrite IH.
    + unfold apply_write. cbn [fst snd]. rewrite vec_get_vec_add, delta_at_cons.
      cbn [fst snd].
      assert (Hi : 0 <= i < Z.of_nat (length g))
        by (apply (Hb (i, d)); left; reflexivity).
      destruct (Z.eqb_spec k i) as [E1|E1], (Z.eqb_spec i k) as [E2|E2];
        try congruence; try lia.
      * subst i.
        destruct (Z.leb_spec 0 k), (Z.ltb_spec k (Z.of_nat (length g))); try lia.
        cbn [andb]. rewrite wrap_add_l. f_equal. lia.
      * cbn [andb]. reflexivity.
    + apply marker_values_vec_add, Hg.
    + intros w Hw. unfold apply_write. rewrite length_vec_add.
      apply Hb. right. exact Hw.
Qed.


(** The running sums of a row after a list of in-bounds writes. *)
Lemma psum_after_writes ws g base n :
  marker_values g ->
  (forall w, In w ws -> 0 <= fst w < Z.of_nat (length g)) ->
  wrap MarkerCounterType (psum (fold_left apply_write ws g) base n)
  = wrap MarkerCounterType (psum g base n + delta_in ws base (base + Z.of_nat n)).
Proof.
  intros Hg Hb. induction n as [|n IH].
  - cbn [psum]. rewrite apply_writes_get by assumption.
    rewrite wrap_idem. cbn [Z.of_nat]. rewrite Z.add_0_r, delta_in_single.
    reflexivity.
  - cbn [psum]. rewrite apply_writes_get by assumption.
    rewrite wrap_add_r, <- wrap_add_l, IH, wrap_add_l.
    replace (base + Z.of_nat (S n)) with (base + Z.of_nat n + 1) by lia.
    rewrite delta_in_extend by lia. f_equal. lia.
Qed.

Lemma addPolygon_writes_in_bounds convex_hull b w :
  wf_sizes ->
  In w (addPolygon_writes convex_hull b) ->
  exists row col,
    fst w = row * width + col /\ 0 <= row < height /\ 0 <= col < width.
Proof.
  intros Hsz Hin. unfold addPolygon_writes in Hin.
  apply in_flat_map in Hin as (row & Hrow & Hin). apply in_zrange in Hrow.
  destruct w as [idx d].
  destruct (row_writes_in_row _ _ row idx d Hsz ltac:(lia) Hin) as (col & -> & Hc & _).
  exists row, col. cbn [fst]. repeat split; lia.
Qed.

Lemma delta_in_rows mincols maxcols row col n :
  wf_sizes -> 0 <= row -> 0 <= col < width -> Z.of_nat n <= height ->
  delta_in (flat_map (row_writes mincols maxcols) (zrange 0 n))
    (row * width) (row * width + col)
  = if row <? Z.of_nat n
    then delta_in (row_writes mincols maxcols row) (row * width) (row * width + col)
    else 0.
Proof.
  intros Hsz Hrow Hcol. induction n as [|n IH]; intros Hn.
  - cbn. destruct (Z.ltb_spec row 0); [lia | reflexivity].
  - rewrite zrange_snoc, flat_map_app, delta_in_app, IH by lia.
    cbn [flat_map]. rewrite app_nil_r.
    change (0 + Z.of_nat n) with (Z.of_nat n).
    assert (Hrn : 0 <= Z.of_nat n < height) by lia.
    destruct (Z.eq_dec row (Z.of_nat n)) as [->|Hne].
    + destruct (Z.ltb_spec (Z.of_nat n) (Z.of_nat n)); try lia.
      destruct (Z.ltb_spec (Z.of_nat n) (Z.of_nat (S n))); lia.
    + rewrite (delta_in_outside (row_writes mincols maxcols (Z.of_nat n))).
      * destruct (Z.ltb_spec row (Z.of_nat n)), (Z.ltb_spec row (Z.of_nat (S n)));
          lia.
      * intros [idx d] Hw.
        destruct (row_writes_in_row _ _ _ _ _ Hsz Hrn Hw) as (c & -> & Hc & _).
        cbn [fst]. nia.
Qed.

Lemma delta_in_row_writes mincols maxcols row col :
  wf_geometry -> 0 <= row < height -> 0 <= col < width ->
  delta_in (row_writes mincols maxcols row) (row * width) (row * width + col)
  = (if (0 <=? vec_get mincols row) && (vec_get mincols row <=? col)
     then 1 else 0)
    - (if (0 <=? vec_get maxcols row) && (vec_get maxcols row + 1 <=? col)
       then 1 else 0).
Proof.
  intros Hgeo Hrow Hcol.
  pose proof (wf_geometry_size Hgeo) as Hsz.
  assert (Hw32 : wrap int32_t width = width)
    by (apply wrap_int32_small; destruct Hgeo; lia).
  unfold row_writes. rewrite max_write_value_eq. unfold min_write.
  rewrite Hw32, delta_in_app.
  set (mi := vec_get mincols row). set (ma := vec_get maxcols row).
  assert (Hmin :
    delta_in (if (0 <=? mi) && (mi <? width)
              then [(wrap size_t (width * row + mi), 1)] else [])
      (row * width) (row * width + col)
    = if (0 <=? mi) && (mi <=? col) then 1 else 0).
  { destruct (Z.leb_spec 0 mi); cbn [andb]; [|reflexivity].
    destruct (Z.ltb_spec mi width).
    - rewrite wrap_size_small by nia. rewrite delta_in_cons. cbn [fst snd].
      change (delta_in [] (row * width) (row * width + col)) with 0.
      destruct (Z.leb_spec (row * width) (width * row + mi)),
               (Z.leb_spec (width * row + mi) (row * width + col)),
               (Z.leb_spec mi col); cbn [andb]; lia.
    - destruct (Z.leb_spec mi col); [lia | reflexivity]. }
  assert (Hmax :
    delta_in (if (0 <=? ma) && (ma + 1 <? width)
              then [(wrap size_t (width * row + ma + 1), -1)] else [])
      (row * width) (row * width + col)
    = - (if (0 <=? ma) && (ma + 1 <=? col) then 1 else 0)).
  { destruct (Z.leb_spec 0 ma); cbn [andb]; [|reflexivity].
    destruct (Z.ltb_spec (ma + 1) width).
    - rewrite wrap_size_small by nia. rewrite delta_in_cons. cbn [fst snd].
      change (delta_in [] (row * width) (row * width + col)) with 0.
      destruct (Z.leb_spec (row * width) (width * row + ma + 1)),
               (Z.leb_spec (width * row + ma + 1) (row * width + col)),
               (Z.leb_spec (ma + 1) col); cbn [andb]; lia.
    - destruct (Z.leb_spec (ma + 1) col); [lia | reflexivity]. }
  rewrite Hmin, Hmax. lia.
Qed.

(** The change of a cell's coverage count by one [addPolygon] call, in terms
    of the extremes the call leaves in the scratch buffers. *)
Lemma addPolygon_coverage sel convex_hull b row col :
  wf_geometry -> wf_builder b -> marker_values (get_grid sel b) ->
  0 <= row < height -> 0 <= col < width ->
  coverage (get_grid sel (addPolygon sel convex_hull b)) (row * width + col)
  = wrap MarkerCounterType
      (coverage (get_grid sel b) (row * width + col)
       + (if (0 <=? vec_get (fst (scanned convex_hull b)) row)
             && (vec_get (fst (scanned convex_hull b)) row <=? col)
          then 1 else 0)
       - (if (0 <=? vec_get (snd (scanned convex_hull b)) row)
             && (vec_get (snd (scanned convex_hull b)) row + 1 <=? col)
          then 1 else 0)).
Proof.
  intros Hgeo Hwf Hval Hrow Hcol.
  pose proof (wf_geometry_sizes Hgeo) as Hsz.
  pose proof (wf_geometry_size Hgeo) as Hsize.
  assert (Hlen : length (get_grid sel b) = Z.to_nat (height * width))
    by (destruct Hwf as (H1 & H2 & _); destruct sel; assumption).
  rewrite addPolygon_grid. unfold coverage.
  assert (Hw : 0 < width) by lia.
  rewrite (row_index_div (row * width + col) row) by lia.
  rewrite (row_index_mod (row * width + col) row) by lia.
  replace (row * width + col - row * width) with col by lia.
  rewrite psum_after_writes.
  - rewrite Z2Nat.id by lia.
    unfold addPolygon_writes.
    rewrite delta_in_rows by (try assumption; lia).
    destruct (Z.ltb_spec row (Z.of_nat (Z.to_nat height))); try lia.
    rewrite delta_in_row_writes by assumption.
    rewrite <- Z.add_sub_assoc, wrap_add_l. reflexivity.
  - exact Hval.
  - intros w Hin.
    destruct (addPolygon_writes_in_bounds convex_hull b w Hsz Hin)
      as (r & c & -> & Hr & Hc).
    rewrite Hlen. nia.
Qed.

Lemma addPolygon_scratch sel convex_hull b :
  mincols_ (addPolygon sel convex_hull b) = fst (scanned convex_hull b)
  /\ maxcols_ (addPolygon sel convex_hull b) = snd (scanned convex_hull b).
Proof. destruct sel; split; reflexivity. Qed.

Lemma coverage_wrapped g i : wrap MarkerCounterType (coverage g i) = coverage g i.
Proof. unfold coverage. apply wrap_idem. Qed.

(** X7: after [addPolygon] the scratch buffers hold, for every row of the
    grid, the extremes of the columns the traversal visited in that row: the
    recorded minimum is the least of them or, if none is below it, the
    sentinel [width]; the recorded maximum is the greatest of them or the
    sentinel [-1]. *)
Theorem addPolygon_records_extremes sel convex_hull b row :
  wf_geometry -> wf_builder b -> 0 <= row < height ->
  let lo := vec_get (mincols_ (addPolygon sel convex_hull b)) row in
  let hi := vec_get (maxcols_ (addPolygon sel convex_hull b)) row in
  (forall col, In (col, row) (polygon_cells convex_hull) -> lo <= col <= hi)
  /\ lo <= width /\ -1 <= hi
  /\ (lo = width \/ In (lo, row) (polygon_cells convex_hull))
  /\ (hi = -1 \/ In (hi, row) (polygon_cells convex_hull)).
Proof.
  intros Hgeo Hwf Hrow lo hi. subst lo hi.
  destruct (addPolygon_scratch sel convex_hull b) as [-> ->].
  destruct (scanned_bounds convex_hull b row Hgeo Hwf Hrow) as (B1 & B2 & B3).
  destruct (scanned_origin convex_hull b row Hwf Hrow) as [O1 O2].
  rewrite wrap_int32_small in O1 by (destruct Hgeo; lia).
  repeat split; try assumption; apply B3; assumption.
Qed.

Lemma addPolygon_coverage_span sel convex_hull b row col :
  wf_geometry -> wf_builder b -> marker_values (get_grid sel b) ->
  0 <= row < height -> 0 <= col < width ->
  (forall c, In (c, row) (polygon_cells convex_hull) -> 0 <= c) ->
  (in_span convex_hull row col ->
   coverage (get_grid sel (addPolygon sel convex_hull b)) (row * width + col)
   = wrap MarkerCounterType (coverage (get_grid sel b) (row * width + col) + 1))
  /\ (~ in_span convex_hull row col ->
      coverage (get_grid sel (addPolygon sel convex_hull b)) (row * width + col)
      = coverage (get_grid sel b) (row * width + col)).
Proof.
  intros Hgeo Hwf Hval Hrow Hcol Hnonneg.
  rewrite (addPolygon_coverage sel convex_hull b row col) by assumption.
  destruct (scanned_bounds convex_hull b row Hgeo Hwf Hrow) as (B1 & B2 & B3).
  destruct (scanned_origin convex_hull b row Hwf Hrow) as [O1 O2].
  rewrite wrap_int32_small in O1 by (destruct Hgeo; lia).
  set (lo := vec_get (fst (scanned convex_hull b)) row) in *.
  set (hi := vec_get (snd (scanned convex_hull b)) row) in *.
  assert (Hlo : 0 <= lo)
    by (destruct O1 as [O1|O1]; [lia | apply Hnonneg in O1; exact O1]).
  split.
  - intros (c1 & c2 & H1 & H2 & Hc).
    pose proof (B3 c1 H1). pose proof (B3 c2 H2).
    destruct (Z.leb_spec 0 lo), (Z.leb_spec lo col); try lia.
    destruct (Z.leb_spec 0 hi), (Z.leb_spec (hi + 1) col); try lia;
      cbn [andb]; f_equal; lia.
  - intros Hnot.
    rewrite <- (coverage_wrapped (get_grid sel b) (row * width + col)) at 2.
    f_equal.
    destruct (Z.leb_spec 0 lo); try lia. cbn [andb].
    destruct (Z.leb_spec lo col) as [Hle|Hgt].
    + assert (Hlo_in : In (lo, row) (polygon_cells convex_hull))
        by (destruct O1 as [O1|O1]; [lia | exact O1]).
      pose proof (B3 lo Hlo_in) as Hlohi.
      assert (Hhi_in : In (hi, row) (polygon_cells convex_hull))
        by (destruct O2 as [O2|O2]; [lia | exact O2]).
      assert (Hright : hi < col).
      { destruct (Z.lt_ge_cases hi col) as [Hlt|Hge]; [exact Hlt|].
        exfalso. apply Hnot. exists lo, hi. repeat split; try assumption; lia. }
      destruct (Z.leb_spec 0 hi), (Z.leb_spec (hi + 1) col); try lia.
      cbn [andb]. lia.
    + destruct (Z.leb_spec 0 hi) as [Hhi|Hhi]; cbn [andb]; [|lia].
      assert (Hhi_in : In (hi, row) (polygon_cells convex_hull))
        by (destruct O2 as [O2|O2]; [lia | exact O2]).
      pose proof (B3 hi Hhi_in).
      destruct (Z.leb_spec (hi + 1) col); lia.
Qed.




(** ** Rasterizer and compositor together *)

Lemma wrap_one_nonzero : wrap MarkerCounterType 1 <> 0.
Proof.
  unfold wrap. intros H.
  pose proof (modulus_pos MarkerCounterType) as Hm.
  assert (Hm2 : 2 <= modulus MarkerCounterType).
  { unfold modulus.
    assert (2 ^ 1 <= 2 ^ Z.pos (bits MarkerCounterType))
      by (apply Z.pow_le_mono_r; lia).
    change (2 ^ 1) with 2 in *. lia. }
  pose proof (Z.div_mod (1 - int_min MarkerCounterType) (modulus MarkerCounterType)
                ltac:(lia)) as Hdiv.
  set (q := (1 - int_min MarkerCounterType) / modulus MarkerCounterType) in *.
  assert (Hq : 1 = modulus MarkerCounterType * q) by lia.
  assert (q <= 0 \/ 1 <= q) by lia. nia.
Qed.

Lemma zeros_get v k : vec_get (vec_assign v 0) k = 0.
Proof.
  unfold vec_get, vec_assign. destruct (k <? 0); [reflexivity|].
  destruct (Nat.lt_ge_cases (Z.to_nat k) (length v)).
  - apply nth_repeat_lt. assumption.
  - apply nth_overflow. rewrite repeat_length. assumption.
Qed.

Lemma marker_values_assign_zero v : marker_values (vec_assign v 0).
Proof. intros k. rewrite zeros_get. apply in_range_0. Qed.

Lemma reset_invariant origin b : wf_builder b -> builder_invariant (reset origin b).
Proof.
  intros (H1 & H2 & H3 & H4 & H5).
  unfold builder_invariant, wf_builder, reset.
  cbn [invisible_grid_ occupied_grid_ values_ mincols_ maxcols_].
  rewrite !length_vec_assign.
  split; [tauto|]. split; apply marker_values_assign_zero.
Qed.

Lemma set_primitive_count_invariant n b :
  builder_invariant b -> builder_invariant (set_primitive_count n b).
Proof. intros H. exact H. Qed.


(** X12: one obstacle, end to end.  If, after [reset], [add] returns for a
    primitive whose occupied and invisible polygons visit no negative column
    in the rows of the grid, then after [build] a cell holds [occupied_cost]
    if it lies in a row span of the occupied polygon, else [invisible_cost]
    if it lies in a row span of the invisible polygon, else 0. *)
Theorem single_obstacle_grid fuel primitive origin b s invisible_area row col :
  wf_geometry -> wf_builder b ->
  0 <= row < height -> 0 <= col < width ->
  let occupied_area := makeOccupiedArea (reset origin b) primitive in
  makeInvisibleArea fuel occupied_area = Ok invisible_area ->
  add fuel primitive (reset origin b) = Normal s ->
  (forall c, In (c, row) (polygon_cells occupied_area) -> 0 <= c) ->
  (forall c, In (c, row) (polygon_cells invisible_area) -> 0 <= c) ->
  (in_span occupied_area row col ->
   vec_get (get (build s)) (row * width + col) = occupied_cost)
  /\ (~ in_span occupied_area row col -> in_span invisible_area row col ->
      vec_get (get (build s)) (row * width + col) = invisible_cost)
  /\ (~ in_span occupied_area row col -> ~ in_span invisible_area row col ->
      vec_get (get (build s)) (row * width + col) = 0).
Proof.
  intros Hgeo Hwf Hrow Hcol occupied_area Hinv Hadd Hocc_nonneg Hinv_nonneg.
  apply add_normal_inv in Hadd as (inv' & Hinv' & _ & ->).
  subst occupied_area.
  rewrite Hinv in Hinv'. injection Hinv' as <-.
  set (occupied_area := makeOccupiedArea (reset origin b) primitive) in *.
  set (b0 := set_primitive_count
               (wrap MarkerCounterType (primitive_count_ (reset origin b) + 1))
               (reset origin b)).
  set (b1 := addPolygon InvisibleGrid invisible_area b0).
  assert (Hinv0 : builder_invariant b0) by (apply (reset_invariant origin b Hwf)).
  assert (Hinv1 : builder_invariant b1) by (apply addPolygon_invariant, Hinv0).
  pose proof (addPolygon_invariant OccupiedGrid occupied_area b1 Hinv1)
    as (Hwf2 & Hmi2 & Hmo2).
  destruct Hinv0 as (Hwf0 & Hmi0 & Hmo0). destruct Hinv1 as (Hwf1 & Hmi1 & Hmo1).
  assert (Hi : 0 <= row * width + col < height * width) by nia.
  destruct (addPolygon_coverage_span InvisibleGrid invisible_area b0 row col
              Hgeo Hwf0 Hmi0 Hrow Hcol Hinv_nonneg) as [Iin Iout].
  destruct (addPolygon_coverage_span OccupiedGrid occupied_area b1 row col
              Hgeo Hwf1 Hmo1 Hrow Hcol Hocc_nonneg) as [Oin Oout].
  cbn [get_grid] in Iin, Iout, Oin, Oout. fold b1 in Iin, Iout.
  destruct (addPolygon_frame InvisibleGrid invisible_area b0)
    as (_ & _ & _ & Hocc1).
  destruct (addPolygon_frame OccupiedGrid occupied_area b1)
    as (_ & _ & _ & Hinv2).
  fold b1 in Hocc1.
  assert (Z0 : coverage (invisible_grid_ b0) (row * width + col) = 0)
    by (apply coverage_zero; intros k; apply zeros_get).
  assert (Z1 : coverage (occupied_grid_ b1) (row * width + col) = 0)
    by (rewrite Hocc1; apply coverage_zero; intros k; apply zeros_get).
  rewrite Z0 in Iin, Iout. rewrite Z1 in Oin, Oout.
  rewrite (build_values_cells _ Hgeo Hwf2 Hmo2 Hmi2 _ Hi), Hinv2.
  pose proof wrap_one_nonzero as Hone. unfold cell_cost.
  split; [|split].
  - intros Ho. rewrite (Oin Ho). cbn [Z.add].
    destruct (Z.eqb_spec (wrap MarkerCounterType 1) 0); [contradiction|reflexivity].
  - intros Ho Hi'. rewrite (Oout Ho), (Iin Hi'). cbn [Z.add Z.eqb].
    destruct (Z.eqb_spec (wrap MarkerCounterType 1) 0); [contradiction|reflexivity].
  - intros Ho Hi'. rewrite (Oout Ho), (Iout Hi'). reflexivity.
Qed.

(** ** Coordinate transformer: pixels *)

Lemma transformToPixel_scaled p :
  resolution <> 0%R ->
  (p_x (transformToPixel p) * resolution = p_x p + realw)%R
  /\ (p_y (transformToPixel p) * resolution = p_y p + realh)%R.
Proof.
  intros Hr. unfold transformToPixel, realw, realh. cbn [p_x p_y].
  split; field; exact Hr.
Qed.

(** X13: for a positive resolution, a point of the grid frame lies in the
    rectangle [[-realw, realw) x [-realh, realh)] centred on the sensor
    exactly when its pixel lies in [[0, width) x [0, height)]; the sensor
    itself maps to the centre [(width / 2, height / 2)]. *)
Theorem transformToPixel_rectangle p :
  (0 < resolution)%R ->
  ((0 <= p_x (transformToPixel p) < IZR width)%R
   <-> (- realw <= p_x p < realw)%R)
  /\ ((0 <= p_y (transformToPixel p) < IZR height)%R
      <-> (- realh <= p_y p < realh)%R)
  /\ transformToPixel (Point 0 0 0) = Point (IZR width / 2) (IZR height / 2) 0.
Proof.
  intros Hr.
  destruct (transformToPixel_scaled p ltac:(lra)) as [Hx Hy].
  assert (Hw : (IZR width * resolution = 2 * realw)%R) by (unfold realw; field).
  assert (Hh : (IZR height * resolution = 2 * realh)%R) by (unfold realh; field).
  set (X := p_x (transformToPixel p)) in *.
  set (Y := p_y (transformToPixel p)) in *.
  split; [|split].
  - split; intros [H1 H2].
    + assert (0 <= X * resolution)%R by (apply Rmult_le_pos; lra).
      assert (X * resolution < IZR width * resolution)%R
        by (apply Rmult_lt_compat_r; lra).
      lra.
    + split.
      * apply (Rmult_le_reg_r resolution); lra.
      * apply (Rmult_lt_reg_r resolution); lra.
  - split; intros [H1 H2].
    + assert (0 <= Y * resolution)%R by (apply Rmult_le_pos; lra).
      assert (Y * resolution < IZR height * resolution)%R
        by (apply Rmult_lt_compat_r; lra).
      lra.
    + split.
      * apply (Rmult_le_reg_r resolution); lra.
      * apply (Rmult_lt_reg_r resolution); lra.
  - unfold transformToPixel. cbn [p_x p_y]. f_equal; field; lra.
Qed.

(** X14: for a non-zero resolution the four corners of the shadow rectangle
    are, in pixel space, the four corners of the grid: [(0, 0)],
    [(width, 0)], [(width, height)] and [(0, height)], in that order, and
    [corners] has period 4. *)
Theorem corners_in_pixels :
  resolution <> 0%R ->
  transformToPixel (corners 0) = Point 0 0 0
  /\ transformToPixel (corners 1) = Point (IZR width) 0 0
  /\ transformToPixel (corners 2) = Point (IZR width) (IZR height) 0
  /\ transformToPixel (corners 3) = Point 0 (IZR height) 0
  /\ forall i, corners (i + 4) = corners i.
Proof.
  intros Hr.
  change (corners 0) with (Point (- realw) (- realh) 0).
  change (corners 1) with (Point realw (- realh) 0).
  change (corners 2) with (Point realw realh 0).
  change (corners 3) with (Point (- realw) realh 0).
  unfold transformToPixel, realw, realh. cbn [p_x p_y].
  repeat split; try (f_equal; field; exact Hr).
  intros i. unfold corners.
  replace ((i + 4) mod 4) with (i mod 4); [reflexivity|].
  rewrite <- (Z.mod_add i 1 4) by lia. f_equal.
Qed.

(** X15: on a grid of positive extent the four corners are enumerated in
    increasing bearing order, one per quadrant:
    [-PI < theta c0 < -PI/2 < theta c1 < 0 < theta c2 < PI/2 < theta c3 < PI]. *)
Theorem corners_bearing_order :
  (0 < realw)%R -> (0 < realh)%R ->
  (- PI < theta (corners 0) < - (PI / 2))%R
  /\ (- (PI / 2) < theta (corners 1) < 0)%R
  /\ (0 < theta (corners 2) < PI / 2)%R
  /\ (PI / 2 < theta (corners 3) < PI)%R.
Proof.
  intros Hw Hh. pose proof PI_RGT_0 as Hpi.
  change (corners 0) with (Point (- realw) (- realh) 0).
  change (corners 1) with (Point realw (- realh) 0).
  change (corners 2) with (Point realw realh 0).
  change (corners 3) with (Point (- realw) realh 0).
  unfold theta. cbn [p_x p_y].
  rewrite atan2_lower_left, !atan2_right, atan2_upper_left by lra.
  pose proof (atan_bound (- realh / - realw)).
  pose proof (atan_bound (- realh / realw)).
  pose proof (atan_bound (realh / realw)).
  pose proof (atan_bound (realh / - realw)).
  pose proof (atan_pos _ (div_neg_neg (- realh) (- realw) ltac:(lra) ltac:(lra))).
  pose proof (atan_neg _ (Rdiv_neg_pos (- realh) realw ltac:(lra) ltac:(lra))).
  pose proof (atan_pos _ (Rdiv_lt_0_compat realh realw Hh Hw)).
  pose proof (atan_neg _ (div_pos_neg realh (- realw) Hh ltac:(lra))).
  repeat split; lra.
Qed.

(** ** Coordinate transformer: rigid motion *)

(** X16: for a unit orientation [transformToGrid] preserves distances; for
    the identity orientation it is the translation by the negated origin
    position, so that the sensor itself is the origin of the grid frame. *)
Theorem transformToGrid_rigid origin p q :
  norm2 (orientation origin) = 1%R ->
  dist2 (transformToGrid origin p) (transformToGrid origin q) = dist2 p q
  /\ (orientation origin = Quaternion 0 0 0 1 ->
      transformToGrid origin p = vec3_sub p (position origin)
      /\ transformToGrid origin (position origin) = Point 0 0 0).
Proof.
  intros Hn. split.
  - destruct origin as [[ox oy oz] [x y z w]], p as [px py pz], q as [qx qy qz].
    unfold norm2 in Hn. cbn in Hn.
    unfold dist2, transformToGrid, quat_transform, conjugate, vec3_sub. cbn.
    apply Rminus_diag_uniq.
    match goal with |- ?d = _ =>
      replace d with
        (4 * (w * w + x * x + y * y + z * z - 1)
         * ((x * x + y * y + z * z)
            * ((px - qx) * (px - qx) + (py - qy) * (py - qy)
               + (pz - qz) * (pz - qz))
            - (x * (px - qx) + y * (py - qy) + z * (pz - qz))
              * (x * (px - qx) + y * (py - qy) + z * (pz - qz))))%R by ring
    end.
    rewrite Hn. ring.
  - intros Hid. destruct origin as [[ox oy oz] r]. cbn in Hid. subst r.
    destruct p as [px py pz].
    unfold transformToGrid, quat_transform, conjugate, vec3_sub. cbn.
    split; f_equal; ring.
Qed.

(** ** Visibility polygon: when it returns and what it returns *)

Lemma zrange_cons lo n : zrange lo (S n) = lo :: zrange (lo + 1) n.
Proof.
  unfold zrange. cbn [seq map]. f_equal; [lia|].
  rewrite <- seq_shift, map_map. apply map_ext. intros k. lia.
Qed.

Lemma first_corner_result fuel minang i :
  first_corner fuel minang 0 = Some i ->
  0 <= i <= 3
  /\ (minang <= theta (corners i))%R
  /\ forall j, 0 <= j < i -> (theta (corners j) < minang)%R.
Proof.
  destruct fuel as [|[|[|[|fuel]]]]; cbn [first_corner];
    try discriminate;
    repeat match goal with
    | |- context [Rleb minang (theta (corners ?k))] =>
        let E := fresh "E" in
        destruct (Rleb minang (theta (corners k))) eqn:E;
        [ apply Rleb_true in E | apply Rleb_false in E ]
    | |- context [wrap size_t (?k + 1)] =>
        progress change (wrap size_t (k + 1)) with (k + 1);
        cbn [Z.add Pos.add Pos.succ]
    end;
    try discriminate;
    try (intros H; injection H as <-; split; [lia|]; split; [assumption|];
         intros j Hj;
         assert (Hc : j = 0 \/ j = 1 \/ j = 2) by lia;
         destruct Hc as [-> | [-> | ->]]; try assumption; lia).
  intros H. exfalso.
  rewrite first_corner_diverges in H; [discriminate|].
  intros j. destruct (corners_cases j) as [Ej|[Ej|[Ej|Ej]]]; rewrite Ej.
  - change (Point (- realw) (- realh) 0) with (corners 0). assumption.
  - change (Point realw (- realh) 0) with (corners 1). assumption.
  - change (Point realw realh 0) with (corners 2). assumption.
  - change (Point (- realw) realh 0) with (corners 3). assumption.
Qed.

Lemma walk_corners_result fuel : forall maxang i res0 j res1,
  (maxang <= 3 * PI)%R -> 0 <= i <= 8 ->
  walk_corners fuel maxang i res0 = Some (j, res1) ->
  i <= j <= 8
  /\ res1 = res0 ++ map corners (zrange i (Z.to_nat (j - i)))
  /\ (maxang <= theta (corners j) + 2 * PI * IZR (j / 4))%R
  /\ forall k, i <= k < j ->
       (theta (corners k) + 2 * PI * IZR (k / 4) < maxang)%R.
Proof.
  induction fuel as [|fuel IH]; intros maxang i res0 j res1 Hmax Hi;
    [discriminate|].
  cbn [walk_corners].
  destruct (Rleb maxang (theta (corners i) + 2 * PI * IZR (i / 4))) eqn:E.
  - apply Rleb_true in E. intros H. injection H as <- <-.
    rewrite Z.sub_diag. cbn. rewrite app_nil_r.
    repeat split; try lia; try assumption.
  - apply Rleb_false in E. intros H.
    assert (Hne : i <> 8).
    { intros ->. change (8 / 4) with 2 in E.
      pose proof (theta_range (corners 8)). pose proof PI_RGT_0. lra. }
    rewrite wrap_size_small in H
      by (change (2 ^ 64) with 18446744073709551616; lia).
    apply IH in H as (Hj & Hres & Hstop & Hbefore); try assumption; try lia.
    split; [lia|]. split; [|split; [assumption|]].
    + rewrite Hres, <- app_assoc. f_equal.
      replace (Z.to_nat (j - i)) with (S (Z.to_nat (j - (i + 1)))) by lia.
      rewrite zrange_cons. reflexivity.
    + intros k Hk. destruct (Z.eq_dec k i) as [->|Hki]; [assumption|].
      apply Hbefore. lia.
Qed.

Lemma select_maxang_bound p ps :
  let sel := select_minmax p ps in
  ((if Rltb (theta (snd sel)) (theta (fst sel))
    then theta (snd sel) + 2 * PI else theta (snd sel)) <= 3 * PI)%R.
Proof.
  cbn zeta. pose proof (theta_range (snd (select_minmax p ps))).
  pose proof PI_RGT_0.
  destruct (Rltb _ _); lra.
Qed.

(** X17: on a grid of positive extent, with fuel for nine iterations,
    [makeInvisibleArea] returns for a non-empty polygon exactly when the
    bearing of its minimum-bearing vertex does not exceed the bearing of the
    top-left corner. *)
Theorem makeInvisibleArea_returns_iff fuel p ps :
  (0 < realw)%R -> (0 < realh)%R -> (9 <= fuel)%nat ->
  (exists res, makeInvisibleArea fuel (p :: ps) = Ok res)
  <-> (theta (fst (select_minmax p ps)) <= theta (corners 3))%R.
Proof.
  intros Hw Hh Hfuel. split.
  - intros [res Hres].
    destruct (Rle_dec (theta (fst (select_minmax p ps))) (theta (corners 3)))
      as [Hle|Hgt]; [exact Hle|].
    exfalso. unfold makeInvisibleArea in Hres.
    destruct (select_minmax p ps) as [minp maxp]. cbn [fst] in Hgt.
    rewrite first_corner_diverges in Hres; [discriminate|].
    intros j. pose proof (theta_corners_le j Hw Hh). lra.
  - intros Hle. apply makeInvisibleArea_terminates; assumption.
Qed.

Lemma makeInvisibleArea_parts fuel p ps res :
  makeInvisibleArea fuel (p :: ps) = Ok res ->
  exists i j,
    first_corner fuel (theta (fst (select_minmax p ps))) 0 = Some i
    /\ 0 <= i <= 3 /\ i <= j <= 8
    /\ res = fst (select_minmax p ps)
             :: projection (fst (select_minmax p ps)) i
             :: map corners (zrange i (Z.to_nat (j - i)))
             ++ [projection (snd (select_minmax p ps)) j;
                 snd (select_minmax p ps)]
    /\ ((if Rltb (theta (snd (select_minmax p ps)))
               (theta (fst (select_minmax p ps)))
         then theta (snd (select_minmax p ps)) + 2 * PI
         else theta (snd (select_minmax p ps)))
        <= theta (corners j) + 2 * PI * IZR (j / 4))%R
    /\ forall k, i <= k < j ->
         (theta (corners k) + 2 * PI * IZR (k / 4)
          < (if Rltb (theta (snd (select_minmax p ps)))
                  (theta (fst (select_minmax p ps)))
             then theta (snd (select_minmax p ps)) + 2 * PI
             else theta (snd (select_minmax p ps))))%R.
Proof.
  unfold makeInvisibleArea.
  pose proof (select_maxang_bound p ps) as Hbound. cbn zeta in Hbound.
  destruct (select_minmax p ps) as [minp maxp]. cbn [fst snd] in *.
  destruct (first_corner fuel (theta minp) 0) as [i|] eqn:Ei; [|discriminate].
  destruct (first_corner_result fuel (theta minp) i Ei) as (Hi & _ & _).
  destruct (walk_corners fuel _ i [minp; projection minp i])
    as [[j res1]|] eqn:Ew; [|discriminate].
  apply walk_corners_result in Ew as (Hj & Hres & Hstop & Hbefore);
    try assumption; try lia.
  intros H. injection H as <-. exists i, j.
  repeat split; try lia; try assumption.
  rewrite Hres. reflexivity.
Qed.

(** X18: a shadow polygon that [makeInvisibleArea] returns consists of the
    minimum-bearing vertex, its projection, a run of consecutive grid
    corners [corners i, ..., corners (j - 1)] with [0 <= i <= 3] and
    [i <= j <= 8], the projection of the maximum-bearing vertex and that
    vertex: between 4 and 12 vertices. *)
Theorem makeInvisibleArea_shape fuel p ps res :
  makeInvisibleArea fuel (p :: ps) = Ok res ->
  exists i j,
    0 <= i <= 3 /\ i <= j <= 8
    /\ res = fst (select_minmax p ps)
             :: projection (fst (select_minmax p ps)) i
             :: map corners (zrange i (Z.to_nat (j - i)))
             ++ [projection (snd (select_minmax p ps)) j;
                 snd (select_minmax p ps)]
    /\ Z.of_nat (length res) = 4 + (j - i)
    /\ (4 <= length res <= 12)%nat.
Proof.
  intros H. apply makeInvisibleArea_parts in H
    as (i & j & _ & Hi & Hj & Hres & _ & _).
  exists i, j.
  assert (Hlen : Z.of_nat (length res) = 4 + (j - i)).
  { rewrite Hres. cbn [length]. rewrite length_app, length_map.
    unfold zrange. rewrite length_map, length_seq. cbn [length]. lia. }
  repeat split; try lia; assumption.
Qed.

(** ** Visibility polygon: the projections onto the rectangle *)

Lemma atan2_cases y x :
  ((0 < x)%R /\ atan2 y x = atan (y / x))
  \/ ((x < 0)%R /\ (0 <= y)%R /\ atan2 y x = (atan (y / x) + PI)%R)
  \/ ((x < 0)%R /\ (y < 0)%R /\ atan2 y x = (atan (y / x) - PI)%R)
  \/ (x = 0%R /\ (0 < y)%R /\ atan2 y x = (PI / 2)%R)
  \/ (x = 0%R /\ (y < 0)%R /\ atan2 y x = (- (PI / 2))%R)
  \/ (x = 0%R /\ y = 0%R /\ atan2 y x = 0%R).
Proof.
  destruct (Rlt_dec 0 x) as [Hx|Hx].
  - left. split; [exact Hx | apply atan2_right, Hx].
  - destruct (Rlt_dec x 0) as [Hx'|Hx'].
    + destruct (Rle_dec 0 y) as [Hy|Hy].
      * right; left. repeat split; try assumption.
        apply atan2_upper_left; assumption.
      * right; right; left. repeat split; try lra.
        apply atan2_lower_left; lra.
    + assert (x = 0%R) by lra. subst x.
      unfold atan2.
      assert (E0 : Rltb 0 0 = false) by (apply Rltb_false; lra). rewrite E0.
      destruct (Rltb 0 y) eqn:E1.
      * apply Rltb_true in E1. right; right; right; left. auto.
      * apply Rltb_false in E1. destruct (Rltb y 0) eqn:E2.
        -- apply Rltb_true in E2. right; right; right; right; left. auto.
        -- apply Rltb_false in E2. right; right; right; right; right.
           repeat split; lra.
Qed.

Lemma atan_le_inv a b : (atan a <= atan b)%R -> (a <= b)%R.
Proof.
  intros H. destruct (Rle_dec a b) as [Hle|Hgt]; [exact Hle|].
  pose proof (atan_increasing b a ltac:(lra)). lra.
Qed.

Lemma atan_lt_inv a b : (atan a < atan b)%R -> (a < b)%R.
Proof.
  intros H. destruct (Rlt_dec a b) as [Hlt|Hge]; [exact Hlt|].
  destruct (Req_dec a b) as [->|Hne]; [lra|].
  pose proof (atan_increasing b a ltac:(lra)). lra.
Qed.

Lemma div_times y x : x <> 0%R -> (y / x * x = y)%R.
Proof. intros Hx. field. exact Hx. Qed.

(** The bearings of the four corners, with [t = realh / realw]. *)
Lemma corners_theta :
  (0 < realw)%R -> (0 < realh)%R ->
  let t := (realh / realw)%R in
  (0 < t)%R /\ realh = (t * realw)%R
  /\ (0 < atan t < PI / 2)%R
  /\ theta (corners 0) = (atan t - PI)%R
  /\ theta (corners 1) = (- atan t)%R
  /\ theta (corners 2) = atan t
  /\ theta (corners 3) = (PI - atan t)%R.
Proof.
  intros Hw Hh t.
  assert (Ht : (0 < t)%R) by (apply Rdiv_lt_0_compat; assumption).
  pose proof (atan_bound t) as Hb. pose proof (atan_pos t Ht) as Hp.
  change (corners 0) with (Point (- realw) (- realh) 0).
  change (corners 1) with (Point realw (- realh) 0).
  change (corners 2) with (Point realw realh 0).
  change (corners 3) with (Point (- realw) realh 0).
  unfold theta. cbn [p_x p_y].
  rewrite atan2_lower_left, !atan2_right, atan2_upper_left by lra.
  replace (- realh / - realw)%R with t by (unfold t; field; lra).
  replace (- realh / realw)%R with (- t)%R by (unfold t; field; lra).
  replace (realh / - realw)%R with (- t)%R by (unfold t; field; lra).
  rewrite atan_opp.
  repeat split; try lra. unfold t. field. lra.
Qed.

(** From the bearing of a point to its coordinates, side by side; [t] is
    [realh / realw]. *)
Lemma bearing_left_low p :
  (0 < realw)%R -> (0 < realh)%R ->
  (theta p <= theta (corners 0))%R ->
  (p_x p < 0)%R /\ (p_y p < 0)%R /\ (realh / realw * p_x p <= p_y p)%R.
Proof.
  intros Hw Hh H.
  destruct (corners_theta Hw Hh) as (Ht & _ & Ha & E0 & _). rewrite E0 in H.
  pose proof PI_RGT_0 as Hpi. pose proof (atan_bound (p_y p / p_x p)) as Hb.
  unfold theta in H.
  destruct (atan2_cases (p_y p) (p_x p))
    as [(Hx & E)|[(Hx & Hy & E)|[(Hx & Hy & E)|[(Hx & Hy & E)|[(Hx & Hy & E)
       |(Hx & Hy & E)]]]]]; rewrite E in H.
  - exfalso; lra.
  - exfalso; lra.
  - repeat split; try assumption.
    assert (Hr : (p_y p / p_x p <= realh / realw)%R) by (apply atan_le_inv; lra).
    pose proof (div_times (p_y p) (p_x p) ltac:(lra)). nra.
  - exfalso; lra.
  - exfalso; lra.
  - exfalso; lra.
Qed.

Lemma bearing_left_high p :
  (0 < realw)%R -> (0 < realh)%R ->
  (theta (corners 3) < theta p)%R ->
  (p_x p < 0)%R /\ (0 <= p_y p)%R /\ (p_y p <= - (realh / realw) * p_x p)%R.
Proof.
  intros Hw Hh H.
  destruct (corners_theta Hw Hh) as (Ht & _ & Ha & _ & _ & _ & E3). rewrite E3 in H.
  pose proof PI_RGT_0 as Hpi. pose proof (atan_bound (p_y p / p_x p)) as Hb.
  unfold theta in H.
  destruct (atan2_cases (p_y p) (p_x p))
    as [(Hx & E)|[(Hx & Hy & E)|[(Hx & Hy & E)|[(Hx & Hy & E)|[(Hx & Hy & E)
       |(Hx & Hy & E)]]]]]; rewrite E in H.
  - exfalso; lra.
  - repeat split; try assumption.
    assert (Hr : (- (realh / realw) < p_y p / p_x p)%R)
      by (apply atan_lt_inv; rewrite atan_opp; lra).
    pose proof (div_times (p_y p) (p_x p) ltac:(lra)). nra.
  - exfalso; lra.
  - exfalso; lra.
  - exfalso; lra.
  - exfalso; lra.
Qed.

Lemma bearing_bottom p :
  (0 < realw)%R -> (0 < realh)%R ->
  (theta (corners 0) < theta p <= theta (corners 1))%R ->
  (p_y p < 0)%R
  /\ (realh / realw * p_x p <= - p_y p)%R
  /\ (realh / realw * - p_x p <= - p_y p)%R.
Proof.
  intros Hw Hh H.
  destruct (corners_theta Hw Hh) as (Ht & _ & Ha & E0 & E1 & _).
  rewrite E0, E1 in H.
  pose proof PI_RGT_0 as Hpi. pose proof (atan_bound (p_y p / p_x p)) as Hb.
  unfold theta in H.
  destruct (atan2_cases (p_y p) (p_x p))
    as [(Hx & E)|[(Hx & Hy & E)|[(Hx & Hy & E)|[(Hx & Hy & E)|[(Hx & Hy & E)
       |(Hx & Hy & E)]]]]]; rewrite E in H.
  - assert (Hr : (p_y p / p_x p <= - (realh / realw))%R)
      by (apply atan_le_inv; rewrite atan_opp; lra).
    pose proof (div_times (p_y p) (p_x p) ltac:(lra)).
    assert (p_y p <= - (realh / realw) * p_x p)%R by nra.
    repeat split; nra.
  - exfalso; lra.
  - assert (Hr : (realh / realw < p_y p / p_x p)%R) by (apply atan_lt_inv; lra).
    pose proof (div_times (p_y p) (p_x p) ltac:(lra)).
    assert (p_y p <= realh / realw * p_x p)%R by nra.
    repeat split; nra.
  - exfalso; lra.
  - rewrite Hx. repeat split; lra.
  - exfalso; lra.
Qed.

Lemma bearing_right p :
  (0 < realw)%R -> (0 < realh)%R ->
  (p_x p <> 0 \/ p_y p <> 0)%R ->
  (theta (corners 1) < theta p <= theta (corners 2))%R ->
  (0 < p_x p)%R
  /\ (- (realh / realw) * p_x p <= p_y p)%R
  /\ (p_y p <= realh / realw * p_x p)%R.
Proof.
  intros Hw Hh Hp H.
  destruct (corners_theta Hw Hh) as (Ht & _ & Ha & _ & E1 & E2 & _).
  rewrite E1, E2 in H.
  pose proof PI_RGT_0 as Hpi. pose proof (atan_bound (p_y p / p_x p)) as Hb.
  unfold theta in H.
  destruct (atan2_cases (p_y p) (p_x p))
    as [(Hx & E)|[(Hx & Hy & E)|[(Hx & Hy & E)|[(Hx & Hy & E)|[(Hx & Hy & E)
       |(Hx & Hy & E)]]]]]; rewrite E in H.
  - assert (Hr1 : (- (realh / realw) < p_y p / p_x p)%R)
      by (apply atan_lt_inv; rewrite atan_opp; lra).
    assert (Hr2 : (p_y p / p_x p <= realh / realw)%R) by (apply atan_le_inv; lra).
    pose proof (div_times (p_y p) (p_x p) ltac:(lra)).
    repeat split; try assumption; nra.
  - exfalso. pose proof (atan_nonpos _ (div_nonneg_neg _ _ Hy Hx)). lra.
  - exfalso. pose proof (atan_pos _ (div_neg_neg _ _ Hy Hx)). lra.
  - exfalso; lra.
  - exfalso; lra.
  - exfalso. destruct Hp; contradiction.
Qed.

Lemma bearing_top p :
  (0 < realw)%R -> (0 < realh)%R ->
  (theta (corners 2) < theta p <= theta (corners 3))%R ->
  (0 < p_y p)%R
  /\ (realh / realw * p_x p <= p_y p)%R
  /\ (realh / realw * - p_x p <= p_y p)%R.
Proof.
  intros Hw Hh H.
  destruct (corners_theta Hw Hh) as (Ht & _ & Ha & _ & _ & E2 & E3).
  rewrite E2, E3 in H.
  pose proof PI_RGT_0 as Hpi. pose proof (atan_bound (p_y p / p_x p)) as Hb.
  unfold theta in H.
  destruct (atan2_cases (p_y p) (p_x p))
    as [(Hx & E)|[(Hx & Hy & E)|[(Hx & Hy & E)|[(Hx & Hy & E)|[(Hx & Hy & E)
       |(Hx & Hy & E)]]]]]; rewrite E in H.
  - assert (Hr : (realh / realw < p_y p / p_x p)%R) by (apply atan_lt_inv; lra).
    pose proof (div_times (p_y p) (p_x p) ltac:(lra)).
    assert (realh / realw * p_x p <= p_y p)%R by nra.
    repeat split; nra.
  - assert (Hr : (p_y p / p_x p <= - (realh / realw))%R)
      by (apply atan_le_inv; rewrite atan_opp; lra).
    pose proof (div_times (p_y p) (p_x p) ltac:(lra)).
    assert (Hy' : (- (realh / realw) * p_x p <= p_y p)%R) by nra.
    assert (0 < p_y p)%R by nra.
    repeat split; nra.
  - exfalso. pose proof (atan_pos _ (div_neg_neg _ _ Hy Hx)). lra.
  - rewrite Hx. repeat split; lra.
  - exfalso; lra.
  - exfalso; lra.
Qed.

Lemma ratio_bound o d D O :
  (0 < d)%R -> (- (d * O) <= o * D <= d * O)%R -> (- O <= o * D / d <= O)%R.
Proof.
  intros Hd [H1 H2]. split.
  - apply Rmult_le_reg_r with d; [exact Hd|].
    replace (o * D / d * d)%R with (o * D)%R by (field; lra). lra.
  - apply Rmult_le_reg_r with d; [exact Hd|].
    replace (o * D / d * d)%R with (o * D)%R by (field; lra). lra.
Qed.

Lemma project_left p :
  (0 < realw)%R -> (0 < realh)%R ->
  (p_x p < 0)%R ->
  (realh / realw * p_x p <= p_y p <= - (realh / realw) * p_x p)%R ->
  on_rectangle (projection p 0) /\ radial p (projection p 0).
Proof.
  intros Hw Hh Hx [H1 H2].
  destruct (corners_theta Hw Hh) as (Ht & Hrh & _).
  change (projection p 0)
    with (Point (- realw) (p_y p * - realw / p_x p) 0).
  split.
  - left. cbn [p_x p_y]. split; [left; reflexivity|].
    replace (p_y p * - realw / p_x p)%R with (p_y p * realw / - p_x p)%R
      by (field; lra).
    apply ratio_bound; [lra|]. rewrite Hrh. split; nra.
  - exists (realw / - p_x p)%R. cbn [p_x p_y].
    split; [apply Rdiv_lt_0_compat; lra|]. split; field; lra.
Qed.

Lemma project_right p :
  (0 < realw)%R -> (0 < realh)%R ->
  (0 < p_x p)%R ->
  (- (realh / realw) * p_x p <= p_y p <= realh / realw * p_x p)%R ->
  on_rectangle (projection p 2) /\ radial p (projection p 2).
Proof.
  intros Hw Hh Hx [H1 H2].
  destruct (corners_theta Hw Hh) as (Ht & Hrh & _).
  change (projection p 2) with (Point realw (p_y p * realw / p_x p) 0).
  split.
  - left. cbn [p_x p_y]. split; [right; reflexivity|].
    apply ratio_bound; [lra|]. rewrite Hrh. split; nra.
  - exists (realw / p_x p)%R. cbn [p_x p_y].
    split; [apply Rdiv_lt_0_compat; lra|]. split; field; lra.
Qed.

Lemma project_bottom p :
  (0 < realw)%R -> (0 < realh)%R ->
  (p_y p < 0)%R ->
  (realh / realw * p_x p <= - p_y p)%R ->
  (realh / realw * - p_x p <= - p_y p)%R ->
  on_rectangle (projection p 1) /\ radial p (projection p 1).
Proof.
  intros Hw Hh Hy H1 H2.
  destruct (corners_theta Hw Hh) as (Ht & Hrh & _).
  change (projection p 1)
    with (Point (p_x p * - realh / p_y p) (- realh) 0).
  split.
  - right. cbn [p_x p_y]. split; [left; reflexivity|].
    replace (p_x p * - realh / p_y p)%R with (p_x p * realh / - p_y p)%R
      by (field; lra).
    apply ratio_bound; [lra|]. rewrite Hrh. split; nra.
  - exists (realh / - p_y p)%R. cbn [p_x p_y].
    split; [apply Rdiv_lt_0_compat; lra|]. split; field; lra.
Qed.

Lemma project_top p :
  (0 < realw)%R -> (0 < realh)%R ->
  (0 < p_y p)%R ->
  (realh / realw * p_x p <= p_y p)%R ->
  (realh / realw * - p_x p <= p_y p)%R ->
  on_rectangle (projection p 3) /\ radial p (projection p 3).
Proof.
  intros Hw Hh Hy H1 H2.
  destruct (corners_theta Hw Hh) as (Ht & Hrh & _).
  change (projection p 3) with (Point (p_x p * realh / p_y p) realh 0).
  split.
  - right. cbn [p_x p_y]. split; [right; reflexivity|].
    apply ratio_bound; [lra|]. rewrite Hrh. split; nra.
  - exists (realh / p_y p)%R. cbn [p_x p_y].
    split; [apply Rdiv_lt_0_compat; lra|]. split; field; lra.
Qed.

Lemma projection_mod p k : projection p k = projection p (k mod 4).
Proof. unfold projection. rewrite Z.mod_mod by lia. reflexivity. Qed.

Lemma projection_side p k :
  (0 < realw)%R -> (0 < realh)%R ->
  (p_x p <> 0 \/ p_y p <> 0)%R ->
  in_sector p k ->
  on_rectangle (projection p k) /\ radial p (projection p k).
Proof.
  intros Hw Hh Hp Hs.
  rewrite projection_mod. unfold in_sector in Hs.
  assert (Hk : k mod 4 = 0 \/ k mod 4 = 1 \/ k mod 4 = 2 \/ k mod 4 = 3)
    by (pose proof (Z.mod_pos_bound k 4); lia).
  destruct Hk as [E|[E|[E|E]]]; rewrite E in *; cbv beta iota in Hs.
  - destruct Hs as [Hs|Hs].
    + destruct (bearing_left_low p Hw Hh Hs) as (Hx & Hy & Hb).
      apply project_left; try assumption.
      destruct (corners_theta Hw Hh) as (Ht & _). split; [lra | nra].
    + destruct (bearing_left_high p Hw Hh Hs) as (Hx & Hy & Hb).
      apply project_left; try assumption.
      destruct (corners_theta Hw Hh) as (Ht & _). split; [nra | lra].
  - destruct (bearing_bottom p Hw Hh Hs) as (Hy & H1 & H2).
    apply project_bottom; assumption.
  - destruct (bearing_right p Hw Hh Hp Hs) as (Hx & H1 & H2).
    apply project_right; try assumption. split; assumption.
  - destruct (bearing_top p Hw Hh Hs) as (Hy & H1 & H2).
    apply project_top; assumption.
Qed.

(** X19: a vertex that is not at the sensor and whose bearing falls on side
    [k mod 4] of the rectangle is projected by [projection] onto the boundary
    of the rectangle, along the ray from the sensor through the vertex. *)
Theorem projection_on_boundary p k :
  (0 < realw)%R -> (0 < realh)%R ->
  (p_x p <> 0 \/ p_y p <> 0)%R ->
  in_sector p k ->
  on_rectangle (projection p k) /\ radial p (projection p k).
Proof. apply projection_side. Qed.

Lemma corners_on_rectangle k :
  (0 < realw)%R -> (0 < realh)%R -> on_rectangle (corners k).
Proof.
  intros Hw Hh.
  destruct (corners_cases k) as [E|[E|[E|E]]]; rewrite E; left; cbn [p_x p_y];
    (split; [auto | lra]).
Qed.

(** The side each of the two projections is taken on is the side the
    projected vertex's bearing falls on. *)
Lemma makeInvisibleArea_sectors fuel p ps res :
  (0 < realw)%R -> (0 < realh)%R ->
  makeInvisibleArea fuel (p :: ps) = Ok res ->
  exists i j,
    0 <= i <= 3 /\ i <= j <= 8
    /\ res = fst (select_minmax p ps)
             :: projection (fst (select_minmax p ps)) i
             :: map corners (zrange i (Z.to_nat (j - i)))
             ++ [projection (snd (select_minmax p ps)) j;
                 snd (select_minmax p ps)]
    /\ in_sector (fst (select_minmax p ps)) i
    /\ in_sector (snd (select_minmax p ps)) j.
Proof.
  intros Hw Hh H.
  apply makeInvisibleArea_parts in H
    as (i & j & Hfirst & Hi & Hj & Hres & Hstop & Hbefore).
  apply first_corner_result in Hfirst as (_ & Hmin & Hprev).
  exists i, j. split; [exact Hi|]. split; [exact Hj|]. split; [exact Hres|].
  clear Hres res.
  set (minp := fst (select_minmax p ps)) in *.
  set (maxp := snd (select_minmax p ps)) in *.
  pose proof (theta_range minp) as Rmin. pose proof (theta_range maxp) as Rmax.
  pose proof PI_RGT_0 as Hpi.
  destruct (corners_theta Hw Hh) as (_ & _ & Ha & E0 & E1 & E2 & E3).
  assert (Hi' : i = 0 \/ i = 1 \/ i = 2 \/ i = 3) by lia.
  assert (Hj' : j = 0 \/ j = 1 \/ j = 2 \/ j = 3 \/ j = 4 \/ j = 5
                \/ j = 6 \/ j = 7 \/ j = 8) by lia.
  assert (Hp0 : 1 <= i -> (theta (corners 0) < theta minp)%R)
    by (intros; apply Hprev; lia).
  assert (Hp1 : 2 <= i -> (theta (corners 1) < theta minp)%R)
    by (intros; apply Hprev; lia).
  assert (Hp2 : 3 <= i -> (theta (corners 2) < theta minp)%R)
    by (intros; apply Hprev; lia).
  clear Hprev.
  set (maxang := if Rltb (theta maxp) (theta minp)
                 then (theta maxp + 2 * PI)%R else theta maxp) in *.
  assert (Hb0 : i <= 0 < j -> (theta (corners 0) + 2 * PI * 0 < maxang)%R)
    by (intros; apply (Hbefore 0); lia).
  assert (Hb1 : i <= 1 < j -> (theta (corners 1) + 2 * PI * 0 < maxang)%R)
    by (intros; apply (Hbefore 1); lia).
  assert (Hb2 : i <= 2 < j -> (theta (corners 2) + 2 * PI * 0 < maxang)%R)
    by (intros; apply (Hbefore 2); lia).
  assert (Hb3 : i <= 3 < j -> (theta (corners 3) + 2 * PI * 0 < maxang)%R)
    by (intros; apply (Hbefore 3); lia).
  assert (Hb4 : i <= 4 < j -> (theta (corners 0) + 2 * PI * 1 < maxang)%R)
    by (intros; apply (Hbefore 4); lia).
  assert (Hb5 : i <= 5 < j -> (theta (corners 1) + 2 * PI * 1 < maxang)%R)
    by (intros; apply (Hbefore 5); lia).
  assert (Hb6 : i <= 6 < j -> (theta (corners 2) + 2 * PI * 1 < maxang)%R)
    by (intros; apply (Hbefore 6); lia).
  assert (Hb7 : i <= 7 < j -> (theta (corners 3) + 2 * PI * 1 < maxang)%R)
    by (intros; apply (Hbefore 7); lia).
  clear Hbefore.
  assert (Hge : (theta minp <= maxang)%R).
  { unfold maxang. destruct (Rltb (theta maxp) (theta minp)) eqn:Es.
    - lra.
    - apply Rltb_false in Es. exact Es. }
  assert (Hsh : (maxang = theta maxp
                 \/ (maxang = theta maxp + 2 * PI /\ theta maxp < theta minp))%R).
  { unfold maxang. destruct (Rltb (theta maxp) (theta minp)) eqn:Es.
    - apply Rltb_true in Es. right. split; [reflexivity | exact Es].
    - left. reflexivity. }
  clearbody maxang.
  destruct Hi' as [-> | [-> | [-> | ->]]];
    destruct Hj' as [-> | [-> | [-> | [-> | [-> | [-> | [-> | [-> | ->]]]]]]]];
    try lia;
    repeat match goal with
    | Hx : ?P -> _ |- _ =>
        match type of P with
        | Prop =>
            first [ specialize (Hx ltac:(lia)) | clear Hx ]
        end
    end;
    unfold in_sector;
    repeat match goal with
    | |- context [?k mod 4] =>
        let r := eval cbv in (k mod 4) in change (k mod 4) with r
    end;
    cbv beta iota;
    repeat match goal with
    | Hx : context [corners ?k] |- _ =>
        lazymatch k with
        | 0 => fail | 1 => fail | 2 => fail | 3 => fail
        | _ => let r := eval cbv in (k mod 4) in
               change (corners k) with (corners r) in Hx
        end
    end;
    repeat match goal with
    | Hx : context [IZR (?k / 4)] |- _ =>
        let r := eval cbv in (k / 4) in change (k / 4) with r in Hx
    end;
    rewrite ?E0, ?E1, ?E2, ?E3 in *;
    destruct Hsh as [Hsh | [Hsh Hlt]];
    (split; first [ lra | left; lra | right; lra ]).
Qed.

(** X20: on a grid of positive extent, when no vertex of the occupied polygon
    is at the sensor, a shadow polygon that [makeInvisibleArea] returns is the
    minimum-bearing vertex, a point of the rectangle's boundary on the ray
    from the sensor through that vertex, corners of the rectangle, a point of
    the boundary on the ray through the maximum-bearing vertex, and that
    vertex. *)
Theorem makeInvisibleArea_shadow fuel p ps res :
  (0 < realw)%R -> (0 < realh)%R ->
  (forall v, In v (p :: ps) -> (p_x v <> 0 \/ p_y v <> 0)%R) ->
  makeInvisibleArea fuel (p :: ps) = Ok res ->
  exists a mid b,
    res = fst (select_minmax p ps) :: a :: mid
          ++ [b; snd (select_minmax p ps)]
    /\ on_rectangle a /\ radial (fst (select_minmax p ps)) a
    /\ Forall on_rectangle mid
    /\ on_rectangle b /\ radial (snd (select_minmax p ps)) b.
Proof.
  intros Hw Hh Hv H.
  apply makeInvisibleArea_sectors in H
    as (i & j & _ & _ & Hres & Hsi & Hsj); try assumption.
  destruct (select_minmax_In p ps) as [Imin Imax].
  destruct (projection_side _ i Hw Hh (Hv _ Imin) Hsi) as [Ha1 Ha2].
  destruct (projection_side _ j Hw Hh (Hv _ Imax) Hsj) as [Hb1 Hb2].
  eexists _, _, _. split; [exact Hres|].
  repeat split; try assumption.
  apply Forall_forall. intros c Hc. apply in_map_iff in Hc as (k & <- & _).
  apply corners_on_rectangle; assumption.
Qed.

(** ** Visibility polygon: the extreme vertices without re-selection *)

(** X21: when the bearings of the polygon span at most PI, the pair
    [makeInvisibleArea] works with is the first [minmax_element] by bearing:
    its bearings bound the bearing of every vertex and [maxang] is the
    maximum bearing itself, not raised by a turn.  In every case the swept
    wedge [maxang - minang] lies in [[0, 2 PI)]. *)
Theorem select_minmax_plain p ps :
  let naive := minmax_element theta_lt p ps in
  let sel := select_minmax p ps in
  let minang := theta (fst sel) in
  let maxang :=
    if Rltb (theta (snd sel)) minang
    then (theta (snd sel) + 2 * PI)%R else theta (snd sel) in
  ((theta (snd naive) - theta (fst naive) <= PI)%R ->
   sel = naive
   /\ (forall v, In v (p :: ps) ->
         (theta (fst sel) <= theta v <= theta (snd sel))%R)
   /\ maxang = theta (snd sel)
   /\ (maxang - minang <= PI)%R)
  /\ (0 <= maxang - minang < 2 * PI)%R.
Proof.
  intros naive sel minang maxang.
  pose proof PI_RGT_0 as Hpi.
  pose proof (theta_range (fst sel)) as R1.
  pose proof (theta_range (snd sel)) as R2.
  split.
  - intros Hspan.
    assert (Hsel : sel = naive).
    { unfold sel, select_minmax. fold naive.
      apply Rltb_false in Hspan. rewrite Hspan. reflexivity. }
    assert (Hkey : forall v, In v (p :: ps) ->
              (theta (fst sel) <= theta v <= theta (snd sel))%R).
    { intros v Hv. rewrite Hsel.
      apply (minmax_element_key theta p ps v Hv). }
    assert (Hord : (theta (fst sel) <= theta (snd sel))%R).
    { destruct (select_minmax_In p ps) as [Hin _]. fold sel in Hin.
      apply (Hkey _ Hin). }
    assert (Hmax : maxang = theta (snd sel)).
    { unfold maxang, minang.
      assert (E : Rltb (theta (snd sel)) (theta (fst sel)) = false)
        by (apply Rltb_false; exact Hord).
      rewrite E. reflexivity. }
    split; [exact Hsel|]. split; [exact Hkey|]. split; [exact Hmax|].
    rewrite Hmax. unfold minang. rewrite Hsel. exact Hspan.
  - unfold maxang, minang.
    destruct (Rltb (theta (snd sel)) (theta (fst sel))) eqn:E;
      [apply Rltb_true in E | apply Rltb_false in E]; lra.
Qed.

(** ** Compositor: a polygon that crosses the left edge *)

Lemma wrap_minus_one_nonzero : wrap MarkerCounterType (-1) <> 0.
Proof.
  unfold wrap. intros H.
  pose proof (modulus_pos MarkerCounterType) as Hm.
  assert (Hm2 : 2 <= modulus MarkerCounterType).
  { unfold modulus.
    assert (2 ^ 1 <= 2 ^ Z.pos (bits MarkerCounterType))
      by (apply Z.pow_le_mono_r; lia).
    change (2 ^ 1) with 2 in *. lia. }
  pose proof (Z.div_mod (-1 - int_min MarkerCounterType)
                (modulus MarkerCounterType) ltac:(lia)) as Hdiv.
  set (q := (-1 - int_min MarkerCounterType) / modulus MarkerCounterType) in *.
  assert (Hq : -1 = modulus MarkerCounterType * q) by lia.
  assert (q <= -1 \/ 0 <= q) by lia. nia.
Qed.

Lemma wrap_minus_one_signed :
  is_signed MarkerCounterType = true -> wrap MarkerCounterType (-1) = -1.
Proof.
  intros Hs. apply wrap_small. unfold in_range, int_max, int_min, modulus.
  rewrite Hs.
  assert (0 < 2 ^ (Z.pos (bits MarkerCounterType) - 1))
    by (apply Z.pow_pos_nonneg; lia).
  assert (2 ^ Z.pos (bits MarkerCounterType)
          = 2 * 2 ^ (Z.pos (bits MarkerCounterType) - 1)).
  { rewrite <- Z.pow_succ_r by lia. f_equal. lia. }
  lia.
Qed.

(** C1 (behaviour of the code): [build] gives a cell [occupied_cost] when
    its prefix-summed occupied count is not zero, which for counts that are
    not negative is what the claim says, whatever the builder.  A negative count arises where a
    polygon crosses the left edge of the grid: in a row whose span starts
    left of the grid and ends at a column of the grid, [addPolygon] skips the
    increment and keeps the decrement.  After [reset], that (defined)
    [addPolygon] into the occupied array and [build], the cells of the row
    that the polygon covers are free, and the cells right of the span, which
    it does not cover, hold [occupied_cost], their count being the wrapped
    -1: for a signed counter -1, which is not greater than 0. *)
Theorem build_after_left_edge_polygon convex_hull origin b row col :
  wf_geometry -> wf_builder b ->
  0 <= row < height -> 0 <= col < width ->
  (forall c r, In (c, r) (polygon_cells convex_hull) ->
     0 <= r < height -> c < int_max int32_t) ->
  (exists c0, In (c0, row) (polygon_cells convex_hull) /\ c0 < 0) ->
  (exists c2, In (c2, row) (polygon_cells convex_hull) /\ 0 <= c2) ->
  let marked := addPolygon OccupiedGrid convex_hull (reset origin b) in
  let occupied := coverage (occupied_grid_ marked) in
  let invisible := coverage (invisible_grid_ marked) in
  (exists accesses,
      addPolygon_run OccupiedGrid convex_hull (reset origin b)
      = Ok (marked, accesses))
  /\ (forall b0 i,
        wf_builder b0 ->
        marker_values (occupied_grid_ b0) ->
        marker_values (invisible_grid_ b0) ->
        0 <= i < height * width ->
        0 <= coverage (occupied_grid_ b0) i ->
        0 <= coverage (invisible_grid_ b0) i ->
        vec_get (get (build b0)) i
        = spec_cell_cost (coverage (occupied_grid_ b0) i)
                         (coverage (invisible_grid_ b0) i))
  /\ (in_span convex_hull row col ->
      occupied (row * width + col) = 0
      /\ vec_get (get (build marked)) (row * width + col) = 0)
  /\ ((forall c, In (c, row) (polygon_cells convex_hull) -> c < col) ->
      occupied (row * width + col) = wrap MarkerCounterType (-1)
      /\ invisible (row * width + col) = 0
      /\ vec_get (get (build marked)) (row * width + col) = occupied_cost
      /\ (is_signed MarkerCounterType = true ->
          occupied (row * width + col) = -1
          /\ spec_cell_cost (occupied (row * width + col))
                            (invisible (row * width + col)) = 0)).
Proof.
  intros Hgeo Hwf Hrow Hcol Hno (c0 & Hc0 & Hneg) (c2 & Hc2 & Hpos)
         marked occupied invisible.
  pose proof (reset_invariant origin b Hwf) as Hinv0.
  pose proof (addPolygon_invariant OccupiedGrid convex_hull _ Hinv0)
    as (Hwf1 & Hmi1 & Hmo1).
  destruct Hinv0 as (Hwf0 & Hmi0 & Hmo0).
  assert (Hi : 0 <= row * width + col < height * width) by nia.
  assert (Hcov : occupied (row * width + col)
                 = wrap MarkerCounterType
                     (0 - (if (0 <=? vec_get (snd (scanned convex_hull
                                                     (reset origin b))) row)
                              && (vec_get (snd (scanned convex_hull
                                                  (reset origin b))) row + 1
                                  <=? col)
                           then 1 else 0))).
  { unfold occupied, marked.
    pose proof (addPolygon_coverage OccupiedGrid convex_hull (reset origin b)
                  row col Hgeo Hwf0 Hmo0 Hrow Hcol) as Hc.
    cbn [get_grid] in Hc. rewrite Hc.
    rewrite (coverage_zero (occupied_grid_ (reset origin b)))
      by (intros k; apply zeros_get).
    destruct (scanned_bounds convex_hull (reset origin b) row Hgeo Hwf0 Hrow)
      as (_ & _ & B3).
    pose proof (B3 c0 Hc0) as Hb0.
    destruct (Z.leb_spec 0 (vec_get (fst (scanned convex_hull
                                            (reset origin b))) row));
      try lia.
    cbn [andb]. f_equal. }
  destruct (scanned_bounds convex_hull (reset origin b) row Hgeo Hwf0 Hrow)
    as (_ & _ & B3).
  destruct (scanned_origin convex_hull (reset origin b) row Hwf0 Hrow)
    as [_ O2].
  set (hi := vec_get (snd (scanned convex_hull (reset origin b))) row) in *.
  pose proof (B3 c2 Hc2) as Hb2.
  assert (Hhi : In (hi, row) (polygon_cells convex_hull))
    by (destruct O2 as [O2|O2]; [lia | exact O2]).
  assert (Hinvis : invisible (row * width + col) = 0).
  { unfold invisible, marked.
    destruct (addPolygon_frame OccupiedGrid convex_hull (reset origin b))
      as (_ & _ & _ & ->).
    apply coverage_zero. intros k. apply zeros_get. }
  assert (Hbuild : forall i, 0 <= i < height * width ->
            vec_get (get (build marked)) i
            = cell_cost (occupied i) (invisible i))
    by (intros i Hi'; apply (build_values_cells marked Hgeo Hwf1 Hmo1 Hmi1 i Hi')).
  split; [|split; [|split]].
  - pose proof (proj2 (addPolygon_defined_iff convex_hull (reset origin b)
                         Hgeo Hwf0) Hno) as Hdef.
    destruct (addPolygon_run_defined OccupiedGrid convex_hull (reset origin b)
                Hdef) as (accesses & Hrun & _).
    exists accesses. exact Hrun.
  - intros b0 i Hwfb Hmo Hmi Hi' Ho Hiv.
    rewrite (build_values_cells b0 Hgeo Hwfb Hmo Hmi i Hi').
    apply cell_cost_nonneg; assumption.
  - intros (c1 & c3 & _ & H3 & Hle). pose proof (B3 c3 H3) as Hb3.
    assert (Hocc : occupied (row * width + col) = 0).
    { rewrite Hcov.
      destruct (Z.leb_spec 0 hi), (Z.leb_spec (hi + 1) col); cbn [andb];
        try lia; apply wrap_small, in_range_0. }
    split; [exact Hocc|].
    rewrite (Hbuild _ Hi), Hocc, Hinvis. reflexivity.
  - intros Hall. specialize (Hall hi Hhi).
    assert (Hocc : occupied (row * width + col) = wrap MarkerCounterType (-1)).
    { rewrite Hcov.
      destruct (Z.leb_spec 0 hi), (Z.leb_spec (hi + 1) col); cbn [andb];
        try lia; reflexivity. }
    split; [exact Hocc|]. split; [exact Hinvis|]. split.
    + rewrite (Hbuild _ Hi), Hocc. unfold cell_cost.
      destruct (Z.eqb_spec (wrap MarkerCounterType (-1)) 0) as [E|E];
        [exfalso; apply wrap_minus_one_nonzero, E | reflexivity].
    + intros Hs. rewrite Hocc, Hinvis, (wrap_minus_one_signed Hs).
      split; reflexivity.
Qed.

(** ** Compositor: the occupied count of a cell *)

Lemma in_spanb_spec convex_hull row col :
  in_spanb convex_hull row col = true <-> in_span convex_hull row col.
Proof.
  unfold in_spanb, in_span. rewrite andb_true_iff, !existsb_exists. split.
  - intros [([c1 r1] & H1 & E1) ([c2 r2] & H2 & E2)].
    cbn [fst snd] in *.
    apply andb_true_iff in E1 as [R1 L1]. apply andb_true_iff in E2 as [R2 L2].
    apply Z.eqb_eq in R1, R2. apply Z.leb_le in L1, L2. subst r1 r2.
    exists c1, c2. auto.
  - intros (c1 & c2 & H1 & H2 & Hle). split.
    + exists (c1, row). split; [exact H1|]. cbn [fst snd].
      apply andb_true_iff. split; [apply Z.eqb_refl | apply Z.leb_le; lia].
    + exists (c2, row). split; [exact H2|]. cbn [fst snd].
      apply andb_true_iff. split; [apply Z.eqb_refl | apply Z.leb_le; lia].
Qed.

Lemma covering_cons b primitive primitives row col :
  covering b (primitive :: primitives) row col
  = (if in_spanb (makeOccupiedArea b primitive) row col then 1 else 0)
    + covering b primitives row col.
Proof.
  unfold covering. cbn [filter].
  destruct (in_spanb _ _ _); cbn [length]; lia.
Qed.

Lemma covering_bounds b primitives row col :
  0 <= covering b primitives row col <= Z.of_nat (length primitives).
Proof.
  unfold covering.
  pose proof (filter_length_le
                (fun primitive => in_spanb (makeOccupiedArea b primitive) row col)
                primitives).
  lia.
Qed.

Lemma covering_same b1 b2 primitives row col :
  origin_ b1 = origin_ b2 ->
  covering b1 primitives row col = covering b2 primitives row col.
Proof. intros H. unfold covering, makeOccupiedArea. rewrite H. reflexivity. Qed.

Lemma add_invariant fuel primitive b s :
  builder_invariant b -> add fuel primitive b = Normal s -> builder_invariant s.
Proof.
  intros Hinv H. apply add_normal_inv in H as (inv & _ & _ & ->).
  apply addPolygon_invariant, addPolygon_invariant.
  apply set_primitive_count_invariant, Hinv.
Qed.

Lemma add_all_invariant fuel primitives : forall b s,
  builder_invariant b -> add_all fuel primitives b = Normal s ->
  builder_invariant s.
Proof.
  induction primitives as [|primitive ps IH]; intros b s Hinv H.
  - cbn in H. injection H as <-. exact Hinv.
  - cbn [add_all] in H.
    destruct (add fuel primitive b) as [b1|b1| |] eqn:Eadd; try discriminate.
    apply (IH b1 s); [|exact H]. apply (add_invariant fuel primitive b b1 Hinv Eadd).
Qed.

Lemma add_all_occupied_coverage fuel primitives row col : forall b s,
  wf_geometry -> builder_invariant b ->
  0 <= row < height -> 0 <= col < width ->
  add_all fuel primitives b = Normal s ->
  (forall primitive c, In primitive primitives ->
     In (c, row) (polygon_cells (makeOccupiedArea b primitive)) -> 0 <= c) ->
  coverage (occupied_grid_ s) (row * width + col)
  = wrap MarkerCounterType
      (coverage (occupied_grid_ b) (row * width + col)
       + covering b primitives row col).
Proof.
  induction primitives as [|primitive ps IH];
    intros b s Hgeo Hinv Hrow Hcol Hall Hnn.
  - cbn in Hall. injection Hall as <-. unfold covering. cbn [filter length].
    change (Z.of_nat 0) with 0. rewrite Z.add_0_r. symmetry.
    apply coverage_wrapped.
  - cbn [add_all] in Hall.
    destruct (add fuel primitive b) as [b1|b1| |] eqn:Eadd; try discriminate.
    pose proof (add_invariant fuel primitive b b1 Hinv Eadd) as Hinv1.
    apply add_normal_inv in Eadd as (inv & _ & _ & Hb1).
    set (b0 := set_primitive_count
                 (wrap MarkerCounterType (primitive_count_ b + 1)) b) in Hb1.
    set (bi := addPolygon InvisibleGrid inv b0) in Hb1.
    assert (Hinvi : builder_invariant bi)
      by (apply addPolygon_invariant, set_primitive_count_invariant, Hinv).
    assert (Ho : origin_ b1 = origin_ b) by (rewrite Hb1; reflexivity).
    destruct Hinvi as (Hwfi & _ & Hmoi).
    destruct (addPolygon_coverage_span OccupiedGrid (makeOccupiedArea b primitive)
                bi row col Hgeo Hwfi Hmoi Hrow Hcol
                (fun c Hc => Hnn primitive c (or_introl eq_refl) Hc))
      as [Oin Oout].
    cbn [get_grid] in Oin, Oout. rewrite <- Hb1 in Oin, Oout.
    change (occupied_grid_ bi) with (occupied_grid_ b) in Oin, Oout.
    rewrite (IH b1 s Hgeo Hinv1 Hrow Hcol Hall).
    + rewrite (covering_same b1 b ps row col Ho), covering_cons.
      destruct (in_spanb (makeOccupiedArea b primitive) row col) eqn:E.
      * apply in_spanb_spec in E. rewrite (Oin E), wrap_add_l. f_equal. lia.
      * assert (Hno : ~ in_span (makeOccupiedArea b primitive) row col)
          by (rewrite <- in_spanb_spec, E; discriminate).
        rewrite (Oout Hno). reflexivity.
    + intros p c Hp Hc. rewrite (makeOccupiedArea_same b1 b p Ho) in Hc.
      apply (Hnn p c (or_intror Hp) Hc).
Qed.

(** X22: the occupied count of a cell is the number of primitives covering
    it.  In a cycle started by [reset] in which every [add] returned, for a
    row in which no occupied polygon visits a negative column, the
    prefix-summed occupied count of a cell equals the number of primitives
    whose occupied polygon has the cell in a row span, exactly: that number
    is at most [count_max], so the counter type does not wrap.  After
    [build] the cell holds [occupied_cost] if at least one primitive covers
    it, and [invisible_cost] or 0 otherwise. *)
Theorem occupied_count_exact fuel primitives origin b s row col :
  wf_geometry -> wf_builder b ->
  0 <= row < height -> 0 <= col < width ->
  add_all fuel primitives (reset origin b) = Normal s ->
  (forall primitive c, In primitive primitives ->
     In (c, row) (polygon_cells (makeOccupiedArea (reset origin b) primitive)) ->
     0 <= c) ->
  let n := covering (reset origin b) primitives row col in
  coverage (occupied_grid_ s) (row * width + col) = n
  /\ 0 <= n <= count_max
  /\ (0 < n -> vec_get (get (build s)) (row * width + col) = occupied_cost)
  /\ (n = 0 ->
      vec_get (get (build s)) (row * width + col) = invisible_cost
      \/ vec_get (get (build s)) (row * width + col) = 0).
Proof.
  intros Hgeo Hwf Hrow Hcol Hall Hnn n.
  pose proof (reset_invariant origin b Hwf) as Hinv0.
  pose proof (add_all_invariant fuel primitives _ s Hinv0 Hall)
    as (Hwfs & Hmis & Hmos).
  pose proof (covering_bounds (reset origin b) primitives row col) as Hn.
  fold n in Hn.
  pose proof (add_all_capacity_error fuel primitives origin b s Hall) as Hcap.
  assert (Hcov : coverage (occupied_grid_ s) (row * width + col) = n).
  { rewrite (add_all_occupied_coverage fuel primitives row col _ s Hgeo Hinv0
               Hrow Hcol Hall Hnn).
    fold n. rewrite coverage_zero by (intros k; apply zeros_get).
    apply wrap_small. pose proof in_range_0 as H0.
    unfold in_range, count_max in *. lia. }
  assert (Hi : 0 <= row * width + col < height * width) by nia.
  split; [exact Hcov|]. split; [lia|].
  rewrite (build_values_cells s Hgeo Hwfs Hmos Hmis _ Hi), Hcov.
  unfold cell_cost. split.
  - intros Hpos. destruct (Z.eqb_spec n 0); [lia | reflexivity].
  - intros ->. cbn [Z.eqb]. destruct (Z.eqb _ 0); auto.
Qed.

End OccupancyGridBuilder.

(** * Concrete instances *)

Lemma Forall_in_range_int16 l :
  forallb (fun c => (-32768 <=? c) && (c <=? 32767)) l = true ->
  marker_values int16_t l.
Proof.
  intros H. apply marker_values_Forall, Forall_forall. intros c Hc.
  rewrite forallb_forall in H. apply H in Hc.
  apply andb_prop in Hc as [H1 H2]. apply Z.leb_le in H1, H2.
  unfold in_range. change (int_min int16_t) with (-32768).
  change (int_max int16_t) with 32767. lia.
Defined.

Lemma left_edge_marked_reached :
  addPolygon 1 1 2 int16_t left_edge_traversal OccupiedGrid left_edge_hull empty_2x1
  = left_edge_marked.
Proof. reflexivity. Qed.

Lemma left_edge_cells :
  polygon_cells 1 1 2 left_edge_traversal left_edge_hull
  = [(-1, 0); (0, 0); (-1, 0); (0, 0)].
Proof. reflexivity. Defined.

(** On the 2 x 1 grid, after a polygon that sticks out over the left edge of
    row 0 and ends in column 0, the cell of column 1, which the polygon does
    not cover, has the occupied count -1 and is given [occupied_cost]; by the
    claim it is free. *)
Lemma build_after_left_edge_polygon_witness :
  coverage 2 int16_t
    (occupied_grid_
       (addPolygon 1 1 2 int16_t left_edge_traversal OccupiedGrid left_edge_hull
          (reset identity_pose empty_2x1))) (0 * 2 + 1) = -1
  /\ vec_get
       (get (build 1 2 100 50 int16_t
               (addPolygon 1 1 2 int16_t left_edge_traversal OccupiedGrid
                  left_edge_hull (reset identity_pose empty_2x1))))
       (0 * 2 + 1) = 100
  /\ spec_cell_cost 100 50
       (coverage 2 int16_t
          (occupied_grid_
             (addPolygon 1 1 2 int16_t left_edge_traversal OccupiedGrid
                left_edge_hull (reset identity_pose empty_2x1))) (0 * 2 + 1))
       (coverage 2 int16_t
          (invisible_grid_
             (addPolygon 1 1 2 int16_t left_edge_traversal OccupiedGrid
                left_edge_hull (reset identity_pose empty_2x1))) (0 * 2 + 1))
     = 0.
Proof.
  assert (Hcells : forall c r,
             In (c, r) (polygon_cells 1 1 2 left_edge_traversal left_edge_hull) ->
             r = 0 /\ (c = -1 \/ c = 0)).
  { intros c r Hin. rewrite left_edge_cells in Hin. cbn [In] in Hin.
    repeat (destruct Hin as [Hin|Hin]; [injection Hin as <- <-; auto|]).
    contradiction. }
  destruct (build_after_left_edge_polygon 1 1 2 100 50 int16_t
              left_edge_traversal left_edge_hull identity_pose empty_2x1 0 1)
    as (_ & _ & _ & Hright).
  - by_computation.
  - by_computation.
  - lia.
  - lia.
  - intros c r Hin _. apply Hcells in Hin. rewrite int32_max_value. lia.
  - exists (-1). rewrite left_edge_cells. cbn [In]. split; [auto|lia].
  - exists 0. rewrite left_edge_cells. cbn [In]. split; [auto|lia].
  - destruct Hright as (_ & _ & Hval & Hsigned).
    + intros c Hin. apply Hcells in Hin. lia.
    + destruct (Hsigned eq_refl) as [Hocc Hspec]. auto.
Defined.




Lemma far_right_hull_edges i :
  (i < 2)%nat ->
  (p_y (edge_start 1 1 2 far_right_hull i) = 1 / 2)%R
  /\ (p_y (edge_end 1 1 2 far_right_hull i) = 1 / 2)%R
  /\ ((p_x (edge_start 1 1 2 far_right_hull i) = 8589934589 / 4
       /\ p_x (edge_end 1 1 2 far_right_hull i) = 8589934591 / 4)%R
      \/ (p_x (edge_start 1 1 2 far_right_hull i) = 8589934591 / 4
          /\ p_x (edge_end 1 1 2 far_right_hull i) = 8589934589 / 4)%R).
Proof.
  intros Hi. assert (Hcases : i = 0%nat \/ i = 1%nat) by lia.
  destruct Hcases as [-> | ->];
    unfold edge_start, edge_end, transformToPixel; cbn.
  - split; [lra|]. split; [lra|]. left. split; lra.
  - split; [lra|]. split; [lra|]. right. split; lra.
Defined.

Lemma far_right_hull_outside :
  polygon_traversal_crosses 1 1 2 far_right_traversal far_right_hull
  /\ polygon_outside 1 1 2 far_right_hull.
Proof.
  split.
  - intros i Hi c Hc.
    destruct (far_right_hull_edges i Hi) as (Hy1 & Hy2 & Hx).
    set (s := edge_start 1 1 2 far_right_hull i) in *.
    set (e := edge_end 1 1 2 far_right_hull i) in *.
    destruct Hc as [<-|[]].
    exists (p_x s), (p_y s). split.
    + exists 0%R. repeat split; lra.
    + unfold in_cell. cbn [fst snd]. rewrite Hy1.
      destruct Hx as [[Hs _]|[Hs _]]; rewrite Hs; lra.
  - intros i x y Hi (t & Ht & -> & ->) [[Hx1 Hx2] _].
    destruct (far_right_hull_edges i Hi) as (_ & _ & Hx).
    destruct Hx as [[Hs He]|[Hs He]]; rewrite Hs, He in Hx1, Hx2; lra.
Defined.

(** On the 2 x 1 grid the far polygon, whose only traversed cell is the cell
    of column [INT32_MAX] of row 0, lies outside the grid, and rasterizing it
    is undefined. *)
Lemma addPolygon_outside_no_coverage_witness :
  addPolygon_run 1 1 2 int16_t far_right_traversal OccupiedGrid far_right_hull
    left_edge_marked = UndefinedBehaviour.
Proof.
  destruct far_right_hull_outside as [Hcross Hout].
  apply (proj2 (addPolygon_outside_no_coverage 1 1 2 100 50 int16_t
                  far_right_traversal OccupiedGrid far_right_hull
                  left_edge_marked ltac:(by_computation)
                  ltac:(by_computation) Hcross Hout) 0).
  - lia.
  - left. reflexivity.
Defined.

(** The polygon right of the 2 x 1 grid whose traversed cells are those of
    columns 5 and 6 is rasterized without undefined behaviour and without a
    write. *)
Lemma outside_hull_no_coverage :
  exists b' accesses,
    addPolygon_run 1 1 2 int16_t outside_traversal OccupiedGrid outside_hull
      left_edge_marked
    = Ok (b', accesses)
    /\ grid_writes accesses = []
    /\ occupied_grid_ b' = occupied_grid_ left_edge_marked.
Proof. eexists. eexists. split; [reflexivity|]. split; reflexivity. Qed.

Lemma addPolygon_run_in_bounds_unless_overflow_witness :
  addPolygon_run 1 1 2 int16_t far_right_traversal InvisibleGrid far_right_hull
    empty_2x1 = UndefinedBehaviour
  /\ wrap int32_t (int_max int32_t + 1) < wrap int32_t 2
  /\ Z.of_nat (length (get_grid InvisibleGrid empty_2x1)) <= 2 * 0 + 2 ^ 31.
Proof.
  destruct (proj2 (addPolygon_run_in_bounds_unless_overflow 1 1 2 int16_t
                     far_right_traversal InvisibleGrid far_right_hull empty_2x1
                     ltac:(by_computation) ltac:(by_computation)) 0)
    as (Hub & Hguard & _ & Hout).
  - lia.
  - left. reflexivity.
  - split; [exact Hub|]. split; [exact Hguard|]. apply Hout. lia.
Defined.

Lemma makeInvisibleArea_diverges_witness :
  ~ (exists fuel res, makeInvisibleArea 1 10 10 fuel behind_left_hull = Ok res).
Proof.
  intros (fuel & res & Hres).
  assert (Hw : (0 < realw 1 10)%R) by (unfold realw; lra).
  assert (Hh : (0 < realh 1 10)%R) by (unfold realh; lra).
  assert (Hnever : makeInvisibleArea 1 10 10 fuel behind_left_hull = OutOfFuel).
  { apply (makeInvisibleArea_diverges 1 10 10); try assumption.
    destruct (theta_top_left 1 10 10 Hw Hh) as [-> _].
    replace (realh 1 10 / - realw 1 10)%R with (-1)%R
      by (unfold realh, realw; field).
    intros v Hv. cbn [In] in Hv.
    assert (Hcases : exists t, (-1 < t)%R /\ theta v = (atan t + PI)%R).
    { destruct Hv as [<-|[<-|[<-|[<-|[]]]]]; unfold theta; cbn [p_x p_y];
        rewrite atan2_upper_left by lra; eexists; (split; [|reflexivity]); lra. }
    destruct Hcases as (t & Ht & ->).
    pose proof (atan_increasing (-1) t Ht). lra. }
  rewrite Hnever in Hres. discriminate.
Defined.

Lemma transformToGrid_rotate_then_subtract_witness :
  transformToGrid turned_pose (Point 3 4 0)
  = spec_transformToGrid turned_pose (Point 3 4 0).
Proof.
  apply (transformToGrid_rotate_then_subtract turned_pose (Point 3 4 0)).
  unfold norm2; cbn; ring.
Defined.

(** With the sensor at (1, 2) turned by a half turn, the world point (3, 4)
    maps to (-3, -4) - (1, 2) = (-4, -6), not to the rigid inverse
    (-2, -2). *)
Lemma transformToGrid_turned :
  transformToGrid turned_pose (Point 3 4 0) = Point (-4) (-6) 0.
Proof.
  unfold transformToGrid, quat_transform, conjugate, vec3_sub. cbn.
  f_equal; ring.
Qed.

(** An obstacle edge behind the sensor that crosses the negative x axis, from
    (-1, 1) to (-1, -1): its two bearings, 3/4 PI and -3/4 PI, lie on either
    side of the cut. *)
Lemma straddling_bearings :
  (PI / 2 < theta (Point (-1) 1 0))%R /\ (theta (Point (-1) (-1) 0) < - (PI / 2))%R.
Proof.
  unfold theta. cbn [p_x p_y].
  rewrite atan2_upper_left, atan2_lower_left by lra.
  pose proof (atan_bound (1 / -1)). pose proof (atan_bound (-1 / -1)). lra.
Defined.

Lemma select_minmax_remaps_witness :
  select_minmax (Point (-1) 1 0) [Point (-1) (-1) 0]
  = minmax_element adjusted_lt (Point (-1) 1 0) [Point (-1) (-1) 0].
Proof.
  apply (select_minmax_remaps 1 10 10 (Point (-1) 1 0) [Point (-1) (-1) 0]).
  destruct straddling_bearings as [H1 H2]. pose proof PI_RGT_0 as Hpi.
  unfold minmax_element, minmax_step, theta_lt. cbn [fold_left fst snd].
  assert (E : Rltb (theta (Point (-1) (-1) 0)) (theta (Point (-1) 1 0)) = true)
    by (apply Rltb_true; lra).
  rewrite E. lra.
Defined.

(** On the 10 x 10 grid the re-selected pair of that edge is its upper end,
    whose bearing is that of the top-left corner, and its lower end, and
    [makeInvisibleArea] returns. *)
Lemma straddling_edge_returns :
  select_minmax (Point (-1) 1 0) [Point (-1) (-1) 0]
  = (Point (-1) 1 0, Point (-1) (-1) 0)
  /\ exists res,
      makeInvisibleArea 1 10 10 9 [Point (-1) 1 0; Point (-1) (-1) 0] = Ok res.
Proof.
  destruct straddling_bearings as [H1 H2]. pose proof PI_RGT_0 as Hpi.
  pose proof (theta_range (Point (-1) 1 0)) as R1.
  pose proof (theta_range (Point (-1) (-1) 0)) as R2.
  assert (Hsel : select_minmax (Point (-1) 1 0) [Point (-1) (-1) 0]
                 = (Point (-1) 1 0, Point (-1) (-1) 0)).
  { unfold select_minmax, minmax_element, minmax_step, theta_lt, adjusted_lt.
    cbn [fold_left fst snd].
    assert (E : Rltb (theta (Point (-1) (-1) 0)) (theta (Point (-1) 1 0)) = true)
      by (apply Rltb_true; lra).
    rewrite E.
    assert (E2 : Rltb PI (theta (Point (-1) 1 0) - theta (Point (-1) (-1) 0))
                 = true) by (apply Rltb_true; lra).
    rewrite E2. unfold adjust.
    assert (E3 : Rltb (theta (Point (-1) (-1) 0)) 0 = true)
      by (apply Rltb_true; lra).
    assert (E4 : Rltb (theta (Point (-1) 1 0)) 0 = false)
      by (apply Rltb_false; lra).
    rewrite E3, E4.
    assert (E5 : Rltb (theta (Point (-1) (-1) 0) + 2 * PI)
                   (theta (Point (-1) 1 0)) = false)
      by (apply Rltb_false; lra).
    rewrite E5. reflexivity. }
  split; [exact Hsel|].
  apply makeInvisibleArea_terminates; [|lia].
  rewrite Hsel. cbn [fst].
  assert (Hw : (0 < realw 1 10)%R) by (unfold realw; lra).
  assert (Hh : (0 < realh 1 10)%R) by (unfold realh; lra).
  destruct (theta_top_left 1 10 10 Hw Hh) as [-> _].
  unfold theta. cbn [p_x p_y]. rewrite atan2_upper_left by lra.
  replace (realh 1 10 / - realw 1 10)%R with (1 / -1)%R
    by (unfold realh, realw; field).
  lra.
Qed.

Lemma transformToGrid_identity p : transformToGrid identity_pose p = p.
Proof.
  destruct p as [x y z].
  unfold transformToGrid, quat_transform, conjugate, vec3_sub. cbn.
  f_equal; ring.
Defined.

(** Whatever the polygon, the cells [two_cell_traversal] answers are the
    cells 0 and 1 of row 0. *)
Lemma two_cell_cells resolution height width hull c row :
  In (c, row) (polygon_cells resolution height width two_cell_traversal hull) ->
  row = 0 /\ (c = 0 \/ c = 1).
Proof.
  unfold polygon_cells. intros H. apply in_flat_map in H as (i & _ & H).
  unfold edge_cells, two_cell_traversal in H. cbn [In] in H.
  destruct H as [H|[H|[]]]; injection H as <- <-; auto.
Defined.

Lemma two_cell_defined hull b :
  wf_builder 1 3 b ->
  addPolygon_defined 1 1 3 two_cell_traversal hull b = true.
Proof.
  intros Hwf.
  apply (addPolygon_defined_iff 1 1 3 two_cell_traversal hull b);
    [by_computation | exact Hwf |].
  intros col row Hin _. apply two_cell_cells in Hin.
  rewrite int32_max_value. lia.
Defined.

Lemma empty_3x1_invariant : builder_invariant 1 3 int16_t empty_3x1.
Proof.
  split; [by_computation|]. split; apply Forall_in_range_int16; reflexivity.
Defined.

Lemma front_hulls_return b hull :
  origin_ b = identity_pose ->
  hull = near_hull \/ hull = far_hull ->
  exists invisible_area,
    makeInvisibleArea 1 1 3 9
      (makeOccupiedArea PolygonType (fun h => h) b hull) = Ok invisible_area.
Proof.
  intros Ho Hhull.
  assert (Hw : (0 < realw 1 3)%R) by (unfold realw; lra).
  assert (Hh : (0 < realh 1 1)%R) by (unfold realh; lra).
  unfold makeOccupiedArea. rewrite Ho.
  destruct Hhull as [-> | ->]; cbn [map near_hull far_hull];
    rewrite !transformToGrid_identity;
    apply makeInvisibleArea_terminates_front; try assumption; try lia;
    intros v [<-|[<-|[]]]; cbn [p_x]; lra.
Defined.

Lemma front_add_returns b hull :
  builder_invariant 1 3 int16_t b ->
  origin_ b = identity_pose ->
  primitive_count_ b <> count_max int16_t ->
  hull = near_hull \/ hull = far_hull ->
  exists s,
    add 1 1 3 int16_t two_cell_traversal PolygonType (fun h => h) 9 hull b
    = Normal s.
Proof.
  intros Hinv Ho Hc Hhull.
  destruct (front_hulls_return b hull Ho Hhull) as [inv Hinvis].
  eexists.
  apply (add_normal_intro 1 1 3 int16_t two_cell_traversal PolygonType
           (fun h => h) 9 hull b inv Hinvis Hc);
    apply two_cell_defined, Hinv.
Defined.

Lemma two_adds_return p q :
  (p = near_hull \/ p = far_hull) -> (q = near_hull \/ q = far_hull) ->
  exists s,
    add_all 1 1 3 int16_t two_cell_traversal PolygonType (fun h => h) 9
      [p; q] empty_3x1 = Normal s.
Proof.
  intros Hp Hq. cbn [add_all].
  destruct (front_add_returns empty_3x1 p empty_3x1_invariant eq_refl
              ltac:(cbn; discriminate) Hp) as [b1 Hb1].
  rewrite Hb1.
  pose proof (add_invariant 1 1 3 int16_t two_cell_traversal PolygonType
                (fun h => h) 9 p empty_3x1 b1 empty_3x1_invariant Hb1) as Hinv1.
  destruct (add_effect 1 1 3 int16_t two_cell_traversal PolygonType
              (fun h => h) 9 p empty_3x1 b1 Hb1)
    as (_ & _ & _ & Ho1 & Hc1 & _).
  destruct (front_add_returns b1 q Hinv1 Ho1
              ltac:(rewrite Hc1; cbn; discriminate) Hq) as [b2 Hb2].
  rewrite Hb2. eauto.
Defined.

Lemma add_order_irrelevant_witness :
  exists s s',
    add_all 1 1 3 int16_t two_cell_traversal PolygonType (fun h => h) 9
      [near_hull; far_hull] empty_3x1 = Normal s
    /\ add_all 1 1 3 int16_t two_cell_traversal PolygonType (fun h => h) 9
         [far_hull; near_hull] empty_3x1 = Normal s'
    /\ get (build 1 3 100 50 int16_t s') = get (build 1 3 100 50 int16_t s).
Proof.
  destruct (two_adds_return near_hull far_hull) as [s Hs]; auto.
  destruct (add_order_irrelevant 1 1 3 100 50 int16_t two_cell_traversal
              PolygonType (fun h => h) 9 [near_hull; far_hull]
              [far_hull; near_hull] empty_3x1 s (perm_swap _ _ _) Hs)
    as (s' & Hs' & _ & _ & _ & Hb).
  exists s, s'. auto.
Defined.

(** With a 16-bit signed counter the call that finds the counter at 32767
    throws and leaves it at -32768, and the call after that one is accepted
    again. *)
Lemma add_overflow_int16 :
  let full := set_primitive_count 32767 empty_3x1 in
  add 1 1 3 int16_t two_cell_traversal PolygonType (fun h => h) 9 near_hull full
  = RuntimeError (set_primitive_count (-32768) empty_3x1)
  /\ exists s,
       add 1 1 3 int16_t two_cell_traversal PolygonType (fun h => h) 9 near_hull
         (set_primitive_count (-32768) empty_3x1) = Normal s
       /\ primitive_count_ s = -32767.
Proof.
  intros full. split; [reflexivity|].
  destruct (front_add_returns (set_primitive_count (-32768) empty_3x1)
              near_hull empty_3x1_invariant eq_refl
              ltac:(cbn; discriminate) (or_introl eq_refl)) as [s Hs].
  exists s. split; [exact Hs|].
  apply add_below_capacity in Hs as [_ ->]. reflexivity.
Qed.

(** ** Instances of the lifecycle, rasterizer and shadow properties *)


Lemma construct_invariant_witness :
  builder_invariant 1 3 int16_t (construct 1 3 identity_pose 0)
  /\ Forall (fun c => c = 0) (invisible_grid_ (construct 1 3 identity_pose 0))
  /\ Forall (fun c => c = 0) (occupied_grid_ (construct 1 3 identity_pose 0))
  /\ Forall (fun c => c = 0) (get (construct 1 3 identity_pose 0)).
Proof.
  apply (construct_invariant 1 3 int16_t identity_pose 0). by_computation.
Defined.

Lemma reset_build_all_free_witness :
  vec_get (get (build 1 3 100 50 int16_t (reset identity_pose stale_3x1))) 1 = 0.
Proof.
  apply (reset_build_all_free 1 3 100 50 int16_t identity_pose stale_3x1).
  - by_computation.
  - by_computation.
  - lia.
Defined.

Lemma get_stale_until_build_witness :
  exists s,
    add_all 1 1 3 int16_t two_cell_traversal PolygonType (fun h => h) 9
      [near_hull; far_hull] (reset identity_pose empty_3x1) = Normal s
    /\ get s = get empty_3x1 /\ origin_ s = identity_pose.
Proof.
  destruct (two_adds_return near_hull far_hull) as [s Hs]; auto.
  change empty_3x1 with (reset identity_pose empty_3x1) in Hs at 1.
  exists s. split; [exact Hs|].
  apply (get_stale_until_build 1 1 3 int16_t two_cell_traversal PolygonType
           (fun h => h) 9 [near_hull; far_hull] identity_pose empty_3x1 s Hs).
Defined.

Lemma left_edge_marked_invariant : builder_invariant 1 2 int16_t left_edge_marked.
Proof.
  split; [by_computation|]. split; apply Forall_in_range_int16; reflexivity.
Defined.

Lemma build_overwrites_accumulators_witness :
  (forall i, 0 <= i < 1 * 2 ->
     vec_get (occupied_grid_ (build 1 2 100 50 int16_t left_edge_marked)) i
     = coverage 2 int16_t (occupied_grid_ left_edge_marked) i
     /\ vec_get (invisible_grid_ (build 1 2 100 50 int16_t left_edge_marked)) i
        = coverage 2 int16_t (invisible_grid_ left_edge_marked) i)
  /\ origin_ (build 1 2 100 50 int16_t left_edge_marked) = origin_ left_edge_marked
  /\ primitive_count_ (build 1 2 100 50 int16_t left_edge_marked)
     = primitive_count_ left_edge_marked
  /\ mincols_ (build 1 2 100 50 int16_t left_edge_marked) = mincols_ left_edge_marked
  /\ maxcols_ (build 1 2 100 50 int16_t left_edge_marked) = maxcols_ left_edge_marked.
Proof.
  apply (build_overwrites_accumulators 1 2 100 50 int16_t left_edge_marked).
  - by_computation.
  - exact left_edge_marked_invariant.
Defined.

Lemma add_all_counts_primitives_witness :
  exists s,
    add_all 1 1 3 int16_t two_cell_traversal PolygonType (fun h => h) 9
      [near_hull; far_hull] (reset identity_pose empty_3x1) = Normal s
    /\ primitive_count_ s = 2 /\ 2 <= count_max int16_t.
Proof.
  destruct (two_adds_return near_hull far_hull) as [s Hs]; auto.
  change empty_3x1 with (reset identity_pose empty_3x1) in Hs at 1.
  exists s. split; [exact Hs|].
  apply (add_all_counts_primitives 1 1 3 int16_t two_cell_traversal PolygonType
           (fun h => h) 9 [near_hull; far_hull] identity_pose empty_3x1 s Hs).
Defined.

Lemma addPolygon_records_extremes_witness :
  let after :=
    addPolygon 1 1 3 int16_t two_cell_traversal OccupiedGrid short_span_hull
      empty_3x1 in
  (forall col,
      In (col, 0) (polygon_cells 1 1 3 two_cell_traversal short_span_hull) ->
      vec_get (mincols_ after) 0 <= col <= vec_get (maxcols_ after) 0)
  /\ vec_get (mincols_ after) 0 <= 3 /\ -1 <= vec_get (maxcols_ after) 0
  /\ (vec_get (mincols_ after) 0 = 3
      \/ In (vec_get (mincols_ after) 0, 0)
           (polygon_cells 1 1 3 two_cell_traversal short_span_hull))
  /\ (vec_get (maxcols_ after) 0 = -1
      \/ In (vec_get (maxcols_ after) 0, 0)
           (polygon_cells 1 1 3 two_cell_traversal short_span_hull)).
Proof.
  apply (addPolygon_records_extremes 1 1 3 int16_t two_cell_traversal
           OccupiedGrid short_span_hull empty_3x1 0).
  - by_computation.
  - by_computation.
  - lia.
Defined.






Lemma single_obstacle_grid_witness :
  exists s,
    add 1 1 3 int16_t two_cell_traversal PolygonType (fun h => h) 9 near_hull
      (reset identity_pose stale_3x1) = Normal s
    /\ vec_get (get (build 1 3 100 50 int16_t s)) (0 * 3 + 1) = 100.
Proof.
  destruct (front_hulls_return (reset identity_pose stale_3x1) near_hull eq_refl
              (or_introl eq_refl)) as [inv Hinv].
  assert (Hwf : wf_builder 1 3 (reset identity_pose stale_3x1))
    by by_computation.
  pose proof (add_normal_intro 1 1 3 int16_t two_cell_traversal PolygonType
                (fun h => h) 9 near_hull (reset identity_pose stale_3x1) inv Hinv
                ltac:(cbn; discriminate) (two_cell_defined _ _ Hwf)
                (two_cell_defined _ _ Hwf)) as Hadd.
  eexists. split; [exact Hadd|].
  apply (single_obstacle_grid 1 1 3 100 50 int16_t two_cell_traversal
           PolygonType (fun h => h) 9 near_hull identity_pose stale_3x1 _ inv 0 1).
  - by_computation.
  - by_computation.
  - lia.
  - lia.
  - exact Hinv.
  - exact Hadd.
  - intros c Hc. apply two_cell_cells in Hc. lia.
  - intros c Hc. apply two_cell_cells in Hc. lia.
  - exists 0, 1. split; [left; reflexivity|]. split; [right; left; reflexivity|lia].
Defined.

Lemma transformToPixel_rectangle_witness :
  ((0 <= p_x (transformToPixel 1 10 10 (Point 0 0 0)) < IZR 10)%R
   <-> (- realw 1 10 <= p_x (Point 0 0 0) < realw 1 10)%R)
  /\ ((0 <= p_y (transformToPixel 1 10 10 (Point 0 0 0)) < IZR 10)%R
      <-> (- realh 1 10 <= p_y (Point 0 0 0) < realh 1 10)%R)
  /\ transformToPixel 1 10 10 (Point 0 0 0) = Point (IZR 10 / 2) (IZR 10 / 2) 0.
Proof.
  apply (transformToPixel_rectangle 1 10 10 (Point 0 0 0)). lra.
Defined.

Lemma corners_in_pixels_witness :
  transformToPixel 1 10 10 (corners 1 10 10 0) = Point 0 0 0
  /\ transformToPixel 1 10 10 (corners 1 10 10 1) = Point (IZR 10) 0 0
  /\ transformToPixel 1 10 10 (corners 1 10 10 2) = Point (IZR 10) (IZR 10) 0
  /\ transformToPixel 1 10 10 (corners 1 10 10 3) = Point 0 (IZR 10) 0
  /\ forall i, corners 1 10 10 (i + 4) = corners 1 10 10 i.
Proof.
  apply (corners_in_pixels 1 10 10). lra.
Defined.

Lemma extent_10x10 : (0 < realw 1 10)%R /\ (0 < realh 1 10)%R.
Proof. unfold realw, realh. split; lra. Defined.

Lemma corners_bearing_order_witness :
  (- PI < theta (corners 1 10 10 0) < - (PI / 2))%R
  /\ (- (PI / 2) < theta (corners 1 10 10 1) < 0)%R
  /\ (0 < theta (corners 1 10 10 2) < PI / 2)%R
  /\ (PI / 2 < theta (corners 1 10 10 3) < PI)%R.
Proof.
  apply (corners_bearing_order 1 10 10); apply extent_10x10.
Defined.

Lemma transformToGrid_rigid_witness :
  dist2 (transformToGrid turned_pose (Point 3 4 0))
        (transformToGrid turned_pose (Point 0 0 0))
  = dist2 (Point 3 4 0) (Point 0 0 0).
Proof.
  apply (transformToGrid_rigid turned_pose (Point 3 4 0) (Point 0 0 0)).
  unfold norm2; cbn; ring.
Defined.

Lemma makeInvisibleArea_returns_iff_witness :
  (exists res,
      makeInvisibleArea 1 10 10 9 [Point (-1) 1 0; Point (-1) (-1) 0] = Ok res)
  <-> (theta (fst (select_minmax (Point (-1) 1 0) [Point (-1) (-1) 0]))
       <= theta (corners 1 10 10 3))%R.
Proof.
  apply (makeInvisibleArea_returns_iff 1 10 10 9 (Point (-1) 1 0)
           [Point (-1) (-1) 0]).
  - apply extent_10x10.
  - apply extent_10x10.
  - lia.
Defined.

Lemma makeInvisibleArea_shape_witness :
  exists res,
    makeInvisibleArea 1 10 10 9 [Point (-1) 1 0; Point (-1) (-1) 0] = Ok res
    /\ (4 <= length res <= 12)%nat.
Proof.
  destruct straddling_edge_returns as [_ [res Hres]].
  exists res. split; [exact Hres|].
  destruct (makeInvisibleArea_shape 1 10 10 9 (Point (-1) 1 0)
              [Point (-1) (-1) 0] res Hres) as (i & j & _ & _ & _ & _ & Hlen).
  exact Hlen.
Defined.

Lemma projection_on_boundary_witness :
  on_rectangle 1 10 10 (projection 1 10 10 (Point 1 0 0) 2)
  /\ radial (Point 1 0 0) (projection 1 10 10 (Point 1 0 0) 2).
Proof.
  destruct extent_10x10 as [Hw Hh].
  apply (projection_on_boundary 1 10 10 (Point 1 0 0) 2 Hw Hh).
  - left. cbn [p_x]. lra.
  - destruct (corners_theta 1 10 10 Hw Hh) as (_ & _ & Ha & _ & E1 & E2 & _).
    change (in_sector 1 10 10 (Point 1 0 0) 2)
      with (theta (corners 1 10 10 1) < theta (Point 1 0 0)
            <= theta (corners 1 10 10 2))%R.
    rewrite E1, E2. unfold theta at 1 2. cbn [p_x p_y].
    rewrite atan2_right by lra.
    replace (0 / 1)%R with 0%R by field. rewrite atan_0. lra.
Defined.

Lemma makeInvisibleArea_shadow_witness :
  exists res a mid b,
    makeInvisibleArea 1 10 10 9 [Point (-1) 1 0; Point (-1) (-1) 0] = Ok res
    /\ res = Point (-1) 1 0 :: a :: mid ++ [b; Point (-1) (-1) 0]
    /\ on_rectangle 1 10 10 a /\ radial (Point (-1) 1 0) a
    /\ Forall (on_rectangle 1 10 10) mid
    /\ on_rectangle 1 10 10 b /\ radial (Point (-1) (-1) 0) b.
Proof.
  destruct straddling_edge_returns as [Hsel [res Hres]].
  destruct extent_10x10 as [Hw Hh].
  destruct (makeInvisibleArea_shadow 1 10 10 9 (Point (-1) 1 0)
              [Point (-1) (-1) 0] res Hw Hh) as (a & mid & b & H).
  - intros v [<-|[<-|[]]]; left; cbn [p_x]; lra.
  - exact Hres.
  - rewrite Hsel in H. cbn [fst snd] in H. exists res, a, mid, b.
    split; [exact Hres | exact H].
Defined.

Lemma select_minmax_plain_witness :
  select_minmax (Point 1 0 0) [Point 1 (1 / 4) 0]
  = minmax_element theta_lt (Point 1 0 0) [Point 1 (1 / 4) 0].
Proof.
  apply (select_minmax_plain (Point 1 0 0) [Point 1 (1 / 4) 0]).
  assert (Hb : forall v, In v [Point 1 0 0; Point 1 (1 / 4) 0] ->
                 (- (PI / 2) < theta v < PI / 2)%R).
  { intros v [<-|[<-|[]]]; unfold theta; cbn [p_x p_y];
      rewrite atan2_right by lra;
      match goal with |- context [atan ?x] => pose proof (atan_bound x) end;
      lra. }
  destruct (minmax_element_In theta_lt (Point 1 0 0) [Point 1 (1 / 4) 0])
    as [H1 H2].
  apply Hb in H1, H2. lra.
Defined.

Lemma occupied_count_exact_witness :
  exists s,
    add_all 1 1 3 int16_t two_cell_traversal PolygonType (fun h => h) 9
      [near_hull; far_hull] (reset identity_pose empty_3x1) = Normal s
    /\ coverage 3 int16_t (occupied_grid_ s) (0 * 3 + 1) = 2
    /\ vec_get (get (build 1 3 100 50 int16_t s)) (0 * 3 + 1) = 100.
Proof.
  destruct (two_adds_return near_hull far_hull) as [s Hs]; auto.
  change empty_3x1 with (reset identity_pose empty_3x1) in Hs at 1.
  destruct (occupied_count_exact 1 1 3 100 50 int16_t two_cell_traversal
              PolygonType (fun h => h) 9 [near_hull; far_hull] identity_pose
              empty_3x1 s 0 1) as (Hc & _ & Hocc & _).
  - by_computation.
  - by_computation.
  - lia.
  - lia.
  - exact Hs.
  - intros primitive c _ Hc. apply two_cell_cells in Hc. lia.
  - assert (Hn : covering 1 1 3 two_cell_traversal PolygonType (fun h => h)
                   (reset identity_pose empty_3x1) [near_hull; far_hull] 0 1 = 2)
      by reflexivity.
    exists s. split; [exact Hs|]. rewrite Hn in Hc, Hocc.
    split; [exact Hc | apply Hocc; lia].
Defined.
